(** * Revectorizer: the SLP tree builder of src/compiler/revectorizer.cc

    A shallow embedding of the pass that pairs 128-bit SIMD operations
    into 256-bit ones.  IR nodes, operators and pack nodes are C++
    pointers in the source; here a pointer is a natural number (its
    identity) and the objects behind it are read through the graph
    adapter or through the zone of the SLP tree. *)

From Stdlib Require Import ZArith List Bool Lia.
From stdpp Require Import base option list gmap sets.

(** ** The IR as the pass sees it *)

(** [Node*], [const Operator*] and [PackNode*]: compared by identity. *)
Abbreviation Node := nat (only parsing).
Abbreviation OperatorPtr := nat (only parsing).
Abbreviation PackPtr := nat (only parsing).

(** The opcodes revectorizer.cc names; every other member of the
    [IrOpcode::Value] enumeration is a [kOtherOpcode]. *)
Inductive IrOpcode : Type :=
  | kInt64Constant
  | kInt64Add
  | kChangeUint32ToUint64
  | kLoad
  | kLoadFromObject
  | kProtectedLoad
  | kLoadTransform
  | kStore
  | kProtectedStore
  | kPhi
  | kLoopExitValue
  | kExtractF128
  | kF32x4Add
  | kF32x4Mul
  | kOtherOpcode (tag : nat).

#[global] Instance IrOpcode_eq_dec : EqDecision IrOpcode.
Proof. solve_decision. Defined.

Inductive MachineRepresentation : Type :=
  | kSimd128
  | kOtherRepresentation (tag : nat).

#[global] Instance MachineRepresentation_eq_dec : EqDecision MachineRepresentation.
Proof. solve_decision. Defined.

Inductive LoadTransformation : Type :=
  | kS128Load32Splat
  | kS128Load64Splat
  | kOtherTransformation (tag : nat).

#[global] Instance LoadTransformation_eq_dec : EqDecision LoadTransformation.
Proof. solve_decision. Defined.

(** An operator: its opcode, its number of value inputs and its typed
    parameter.  Each parameter field is read only under the opcode that
    carries it: [OpParameter<int64_t>] under [kInt64Constant],
    [OpParameter<int32_t>] under [kExtractF128], the representation
    under [kProtectedLoad], [kPhi] and [kLoopExitValue], the
    transformation under [kLoadTransform]. *)
Record Operator : Type := {
  opcode_of : IrOpcode;
  ValueInputCount : nat;
  OpParameter_int64 : Z;
  OpParameter_int32 : Z;
  representation : MachineRepresentation;
  transformation : LoadTransformation
}.

(** The queries revectorizer.cc makes of the graph, of [NodeProperties],
    of [IrOpcode] and of the linear scheduler.  Their implementations
    live outside the file, so they are the fields of the adapter and
    every result below holds for whatever they answer.  [InputAt] is
    total here; the source requires the index to be in range.
    [NodeProperties::GetValueInput (node, i)] is [InputAt node i], value
    inputs being the first inputs of a node.  [AllNodes] lists the
    nodes of the graph.  [RecursionMaxDepth] is the constant of the
    class [SLPTree], declared in revectorizer.h. *)
Record Graph : Type := {
  op : Node -> OperatorPtr;
  operator_at : OperatorPtr -> Operator;
  InputAt : Node -> nat -> Node;
  FirstControlIndex : Node -> nat;
  IsConstantOpcode : IrOpcode -> bool;
  IsSimd128Opcode : IrOpcode -> bool;
  IsPhiOpcode : IrOpcode -> bool;
  SameBasicBlock : Node -> Node -> bool;
  GetEarlySchedulePosition : Node -> Node;
  GetSimdStoreNodes : list Node;
  AllNodes : list Node;
  RecursionMaxDepth : nat
}.

(** [kSimd128Size], from the globals of the repository. *)
Definition kSimd128Size : Z := 16%Z.

(** Two's complement wrap-around of [int64_t] and [int32_t] results. *)
Definition wrap64 (z : Z) : Z := ((z + 2 ^ 63) mod 2 ^ 64 - 2 ^ 63)%Z.
Definition wrap32 (z : Z) : Z := ((z + 2 ^ 31) mod 2 ^ 32 - 2 ^ 31)%Z.
Definition in_int64 (z : Z) : Prop := (- 2 ^ 63 <= z < 2 ^ 63)%Z.
Definition in_int32 (z : Z) : Prop := (- 2 ^ 31 <= z < 2 ^ 31)%Z.

(** The graph is finite: the inputs of the nodes of [AllNodes] are nodes
    of [AllNodes]. *)
Definition GraphClosed (G : Graph) : Prop :=
  forall node i, node ∈ AllNodes G -> InputAt G node i ∈ AllNodes G.

Section MemoryAddressAnalysis.

Variable G : Graph.

Local Open Scope Z_scope.

Definition operator (node : Node) : Operator := operator_at G (op G node).
Definition opcode (node : Node) : IrOpcode := opcode_of (operator node).
Definition IsConstant (node : Node) : bool := IsConstantOpcode G (opcode node).
Definition IsSimd128Operation (node : Node) : bool := IsSimd128Opcode G (opcode node).
Definition IsPhi (node : Node) : bool := IsPhiOpcode G (opcode node).
Definition GetValueInput (node : Node) (i : nat) : Node := InputAt G node i.

Definition GetConstantValue (node : Node) : Z :=
  let value := -1 in
  if decide (opcode node = kInt64Constant)
  then OpParameter_int64 (operator node)
  else value.

Definition GetMemoryOffsetValue (node : Node) : Z :=
  let offset := InputAt G node 0 in
  if bool_decide (opcode offset = kLoadFromObject) || bool_decide (opcode offset = kLoad)
  then 0
  else
    let offset_value := -1 in
    if decide (opcode offset = kInt64Add) then
      if IsConstant (InputAt G offset 0) then GetConstantValue (InputAt G offset 0)
      else if IsConstant (InputAt G offset 1) then GetConstantValue (InputAt G offset 1)
      else offset_value
    else offset_value.

Definition GetNodeAddress (node : Node) : Node :=
  let address := InputAt G node 1 in
  if decide (opcode address = kChangeUint32ToUint64)
  then InputAt G address 0
  else address.

(** The loop of [IsContinuousAccess] from index 1 on. *)
Fixpoint IsContinuousAccess_from (previous_offset : Z) (rest : list Node) : bool :=
  match rest with
  | [] => true
  | node :: rest =>
      let current_offset := GetMemoryOffsetValue node in
      let diff := wrap64 (current_offset - previous_offset) in
      if decide (diff = kSimd128Size) then IsContinuousAccess_from current_offset rest
      else false
  end.

(** [DCHECK_GT (node_group.size (), 0)]: the empty group is not an input
    of the source; it has no adjacent pair. *)
Definition IsContinuousAccess (node_group : list Node) : bool :=
  match node_group with
  | [] => true
  | node :: rest => IsContinuousAccess_from (GetMemoryOffsetValue node) rest
  end.

Fixpoint AllConstant (node_group : list Node) : bool :=
  match node_group with
  | [] => true
  | node :: rest => if IsConstant node then AllConstant rest else false
  end.

Definition AllSameAddress (nodes : list Node) : bool :=
  match nodes with
  | [] => true
  | node0 :: rest =>
      let address := GetNodeAddress node0 in
      forallb (fun node => bool_decide (GetNodeAddress node = address)) rest
  end.

Definition IsSplat (node_group : list Node) : bool :=
  match node_group with
  | [] => true
  | node0 :: rest => forallb (fun node => bool_decide (node = node0)) rest
  end.

(** Operators are compared as pointers. *)
Definition AllSameOperator (node_group : list Node) : bool :=
  match node_group with
  | [] => true
  | node0 :: rest => forallb (fun node => bool_decide (op G node = op G node0)) rest
  end.

(** [MemoryOffsetComparer]. *)
Definition MemoryOffsetComparer (lhs rhs : Node) : bool :=
  GetMemoryOffsetValue lhs <? GetMemoryOffsetValue rhs.

End MemoryAddressAnalysis.

(** ** Pack nodes, the registry and the recursion stack *)

(** Modelled from the spec: the class [PackNode] is declared in
    revectorizer.h.  A pack pairs the nodes of a group, has a sparse
    sequence of child packs indexed by operand position and a slot for
    the revectorized node, empty until a later stage. *)
Record PackNode : Type := {
  nodes_ : list Node;
  operands_ : list (option PackPtr);
  revectorized_node_ : option Node
}.

(** The members of [SLPTree].  [zone_] holds the pack nodes allocated so
    far; a [PackPtr] is the position of a pack in it.  The top of
    [stack_] is the head of the list. *)
Record SLPTree : Type := {
  zone_ : list PackNode;
  root_ : option PackPtr;
  on_stack_ : gset Node;
  stack_ : list (list Node);
  node_to_packnode_ : gmap Node PackPtr
}.

Definition set_zone (t : SLPTree) (z : list PackNode) : SLPTree :=
  {| zone_ := z; root_ := root_ t; on_stack_ := on_stack_ t;
     stack_ := stack_ t; node_to_packnode_ := node_to_packnode_ t |}.

Definition set_root (t : SLPTree) (r : option PackPtr) : SLPTree :=
  {| zone_ := zone_ t; root_ := r; on_stack_ := on_stack_ t;
     stack_ := stack_ t; node_to_packnode_ := node_to_packnode_ t |}.

Definition set_stack (t : SLPTree) (s : gset Node) (st : list (list Node)) : SLPTree :=
  {| zone_ := zone_ t; root_ := root_ t; on_stack_ := s;
     stack_ := st; node_to_packnode_ := node_to_packnode_ t |}.

Definition set_registry (t : SLPTree) (m : gmap Node PackPtr) : SLPTree :=
  {| zone_ := zone_ t; root_ := root_ t; on_stack_ := on_stack_ t;
     stack_ := stack_ t; node_to_packnode_ := m |}.

(** A tree as the constructor of [SLPTree] leaves it. *)
Definition empty_tree : SLPTree :=
  {| zone_ := []; root_ := None; on_stack_ := ∅; stack_ := [];
     node_to_packnode_ := ∅ |}.

(** Modelled from the spec: [PackNode::IsSame] is declared in
    revectorizer.h; it is true iff the pack's two nodes match the given
    group element-wise.  A pointer outside the zone matches nothing. *)
Definition IsSame (t : SLPTree) (p : PackPtr) (node_group : list Node) : bool :=
  match zone_ t !! p with
  | Some pnode => bool_decide (nodes_ pnode = node_group)
  | None => false
  end.

(** Modelled from the spec: [PackNode::SetOperand] is declared in
    revectorizer.h; it records a child at an operand position of the
    sparse sequence, which grows to hold the position. *)
Definition SetOperand_pack (pnode : PackNode) (index : nat) (child : PackPtr) : PackNode :=
  let grown := operands_ pnode ++ replicate (S index - length (operands_ pnode)) None in
  {| nodes_ := nodes_ pnode;
     operands_ := <[index := Some child]> grown;
     revectorized_node_ := revectorized_node_ pnode |}.

Definition SetOperand (t : SLPTree) (p : PackPtr) (index : nat) (child : PackPtr) : SLPTree :=
  set_zone t (alter (fun pnode => SetOperand_pack pnode index child) p (zone_ t)).

Definition NewPackNode (t : SLPTree) (node_group : list Node) : PackPtr * SLPTree :=
  let pnode := length (zone_ t) in
  let t := set_zone t (zone_ t ++ [ {| nodes_ := node_group; operands_ := [];
                                        revectorized_node_ := None |} ]) in
  (pnode,
   set_registry t (fold_left (fun m node => <[node := pnode]> m) node_group
                             (node_to_packnode_ t))).

Definition GetPackNode (t : SLPTree) (node : Node) : option PackPtr :=
  node_to_packnode_ t !! node.

Definition PushStack (t : SLPTree) (node_group : list Node) : SLPTree :=
  set_stack t (fold_left (fun s node => {[ node ]} ∪ s) node_group (on_stack_ t))
            (node_group :: stack_ t).

(** [stack_.top ()] of an empty stack has no defined result. *)
Definition PopStack (t : SLPTree) : option SLPTree :=
  match stack_ t with
  | [] => None
  | node_group :: rest =>
      Some (set_stack t (fold_left (fun s node => s ∖ {[ node ]}) node_group (on_stack_ t))
                      rest)
  end.

Definition OnStack (t : SLPTree) (node : Node) : bool :=
  bool_decide (node ∈ on_stack_ t).

Fixpoint AllOnStack (t : SLPTree) (node_group : list Node) : bool :=
  match node_group with
  | [] => false
  | node :: rest => if OnStack t node then true else AllOnStack t rest
  end.

Definition ClearStack (t : SLPTree) : SLPTree := set_stack t ∅ [].

Definition DeleteTree (t : SLPTree) : SLPTree := set_registry (ClearStack t) ∅.

Section Builder.

Variable G : Graph.

(** [stack_.top ()] of an empty stack, and element 0 of an empty group,
    have no defined result. *)
Definition StackTopIsPhi (t : SLPTree) : option bool :=
  match stack_ t with
  | (node0 :: _) :: _ => Some (IsPhi G node0)
  | _ => None
  end.

(** The inputs of a node before its first control input, in order. *)
Definition InputsBeforeControl (node : Node) : list Node :=
  map (InputAt G node) (seq 0 (FirstControlIndex G node)).

(** The first loop of [IsSideEffectFreeLoad]: the work list, every push
    putting a node at the head. *)
Definition InitialToVisit (node_group : list Node) : list Node :=
  fold_left
    (fun to_visit load =>
       fold_left
         (fun to_visit input =>
            if bool_decide (input ∈ node_group) then to_visit else input :: to_visit)
         (InputsBeforeControl load) to_visit)
    node_group [].

(** The second loop of [IsSideEffectFreeLoad], one iteration for each
    unit of [fuel]; [None] when the fuel runs out before the work list
    is empty. *)
Fixpoint VisitInputs (t : SLPTree) (node0 : Node) (fuel : nat)
    (to_visit : list Node) (visited : gset Node) : option bool :=
  match fuel with
  | O => None
  | S fuel =>
      match to_visit with
      | [] => Some true
      | input :: to_visit =>
          if decide (input ∈ visited) then VisitInputs t node0 fuel to_visit visited
          else
            let visited := {[ input ]} ∪ visited in
            if OnStack t input then Some false
            else if SameBasicBlock G input node0
            then VisitInputs t node0 fuel
                   (fold_left (fun to_visit i => i :: to_visit)
                              (InputsBeforeControl input) to_visit)
                   visited
            else VisitInputs t node0 fuel to_visit visited
      end
  end.

(** The number of iterations the second loop can need when every node
    it meets is one of [AllNodes]: each node is expanded once, and each
    expansion pushes its inputs. *)
Definition VisitBudget : nat :=
  S (sum_list (map (fun node => S (FirstControlIndex G node)) (AllNodes G))).

(** The loop of the source is unbounded; the model gives it the budget
    above, which [IsSideEffectFreeLoad_terminates] shows is enough. *)
Definition IsSideEffectFreeLoad (t : SLPTree) (node_group : list Node) : option bool :=
  match node_group with
  | [node0; node1] =>
      let to_visit := InitialToVisit node_group in
      VisitInputs t node0 (length to_visit + VisitBudget) to_visit ∅
  | _ => None
  end.

Definition CanBePacked (node_group : list Node) : bool :=
  match node_group with
  | [node0; node1] =>
      if negb (SameBasicBlock G node0 node1) then false
      else if negb (AllSameOperator G node_group) then false
      else if AllConstant G node_group then false
      else
        let op := opcode G node0 in
        if IsSimd128Operation G node0
           || bool_decide (op = kStore) || bool_decide (op = kProtectedStore)
           || bool_decide (op = kLoad) || bool_decide (op = kProtectedLoad)
           || bool_decide (op = kPhi) || bool_decide (op = kLoopExitValue)
           || bool_decide (op = kExtractF128)
        then true
        else false
  | _ => false
  end.

(** The duplicate check of [BuildTreeRec]: the pack of the first node of
    the group that has one. *)
Fixpoint FindDuplicate (t : SLPTree) (node_group : list Node) : option PackPtr :=
  match node_group with
  | [] => None
  | node :: rest =>
      match GetPackNode t node with
      | Some p => Some p
      | None => FindDuplicate t rest
      end
  end.

(** [partial_sort_copy] of a whole group under [MemoryOffsetComparer]:
    the group in ascending offset order. *)
Fixpoint InsertByOffset (node : Node) (sorted : list Node) : list Node :=
  match sorted with
  | [] => [node]
  | head :: rest =>
      if MemoryOffsetComparer G node head then node :: sorted
      else head :: InsertByOffset node rest
  end.

Definition SortByOffset (node_group : list Node) : list Node :=
  fold_right InsertByOffset [] node_group.

(** The result of a call: [None] when the call has no defined result
    (fuel or budget exhausted, a group that has not two nodes, or a
    [top ()] of the empty stack), otherwise the pack returned ([None]
    for [nullptr]) and the tree after the call. *)
Definition Result : Type := option (option PackPtr * SLPTree).

(** The loop of [NewPackNodeAndRecurs] over the operand positions, [rec]
    being [BuildTreeRec]. *)
Fixpoint RecurseOperands (rec : list Node -> nat -> SLPTree -> Result)
    (pnode : PackPtr) (node_group : list Node) (indices : list nat)
    (recursion_depth : nat) (t : SLPTree) : Result :=
  match indices with
  | [] => Some (Some pnode, t)
  | i :: indices =>
      let operands := map (fun node => GetValueInput G node i) node_group in
      match rec operands (recursion_depth + 1) t with
      | None => None
      | Some (Some child, t) =>
          RecurseOperands rec pnode node_group indices recursion_depth
                          (SetOperand t pnode i child)
      | Some (None, t) => Some (None, t)
      end
  end.

Definition NewPackNodeAndRecurs (rec : list Node -> nat -> SLPTree -> Result)
    (node_group : list Node) (start_index count : nat)
    (recursion_depth : nat) (t : SLPTree) : Result :=
  let '(pnode, t) := NewPackNode t node_group in
  RecurseOperands rec pnode node_group (seq start_index count) recursion_depth t.

(** [PopStack (); return pnode;] *)
Definition PopAndReturn (pnode : option PackPtr) (t : SLPTree) : Result :=
  match PopStack t with
  | Some t => Some (pnode, t)
  | None => None
  end.

Definition RecurseThenPop (r : Result) : Result :=
  match r with
  | Some (pnode, t) => PopAndReturn pnode t
  | None => None
  end.

Fixpoint BuildTreeRec (fuel : nat) (node_group : list Node)
    (recursion_depth : nat) (t : SLPTree) {struct fuel} : Result :=
  match fuel with
  | O => None
  | S fuel =>
  match node_group with
  | [node0; node1] =>
    if decide (recursion_depth = RecursionMaxDepth G) then Some (None, t) else
    match (if AllOnStack t node_group then negb <$> StackTopIsPhi t else Some false) with
    | None => None
    | Some true => Some (None, t)
    | Some false =>
    let t := PushStack t node_group in
    if negb (CanBePacked node_group) then Some (None, t) else
    match FindDuplicate t node_group with
    | Some p =>
        if negb (IsSame t p node_group) then Some (None, t)
        else PopAndReturn (Some p) t
    | None =>
    if decide (opcode G node0 = kExtractF128) then
      if bool_decide (InputAt G node0 0 = InputAt G node1 0)
         && (if decide (opcode G (InputAt G node0 0) = kLoadTransform)
             then bool_decide (node0 = node1)
             else bool_decide (wrap32 (OpParameter_int32 (operator G node0) + 1)
                               = OpParameter_int32 (operator G node1)))
      then let '(pnode, t) := NewPackNode t node_group in PopAndReturn (Some pnode) t
      else Some (None, t)
    else if bool_decide (opcode G node0 = kProtectedLoad)
            || bool_decide (opcode G node0 = kLoadTransform) then
      if negb (AllSameAddress G node_group) then Some (None, t)
      else if bool_decide (opcode G node0 = kProtectedLoad)
              && (negb (bool_decide (representation (operator G node0) = kSimd128))
                  || negb (IsContinuousAccess G (SortByOffset node_group)))
      then Some (None, t)
      else if bool_decide (opcode G node0 = kLoadTransform)
              && (negb (IsSplat node_group)
                  || (negb (bool_decide (transformation (operator G node0) = kS128Load32Splat))
                      && negb (bool_decide (transformation (operator G node0) = kS128Load64Splat))))
      then Some (None, t)
      else
        match IsSideEffectFreeLoad t node_group with
        | None => None
        | Some false => Some (None, t)
        | Some true =>
            let '(p, t) := NewPackNode t node_group in PopAndReturn (Some p) t
        end
    else
      let value_in_count := ValueInputCount (operator G node0) in
      match opcode G node0 with
      | kPhi =>
          if negb (bool_decide (representation (operator G node0) = kSimd128))
          then Some (None, t)
          else RecurseThenPop
                 (NewPackNodeAndRecurs (BuildTreeRec fuel) node_group 0 value_in_count
                                       recursion_depth t)
      | kLoopExitValue =>
          if negb (bool_decide (representation (operator G node0) = kSimd128))
          then Some (None, t)
          else RecurseThenPop
                 (NewPackNodeAndRecurs (BuildTreeRec fuel) node_group 0 value_in_count
                                       recursion_depth t)
      | kF32x4Add | kF32x4Mul =>
          RecurseThenPop
            (NewPackNodeAndRecurs (BuildTreeRec fuel) node_group 0 value_in_count
                                  recursion_depth t)
      | kStore | kProtectedStore =>
          if negb (AllSameAddress G node_group) then Some (None, t)
          else RecurseThenPop
                 (NewPackNodeAndRecurs (BuildTreeRec fuel) node_group 2 1
                                       recursion_depth t)
      | _ => Some (None, t)
      end
    end
    end
  | _ => None
  end
  end.

(** [BuildTree]: the recursion is given one unit of fuel for each depth
    from 0 to [RecursionMaxDepth]. *)
Definition BuildTree (roots : list Node) (t : SLPTree) : Result :=
  let t := DeleteTree t in
  match BuildTreeRec (S (RecursionMaxDepth G)) roots 0 t with
  | Some (root, t) => Some (root, set_root t root)
  | None => None
  end.

End Builder.

(** ** Seed collection and the driver *)

(** Modelled from the spec: [StoreNodeSet] is declared in revectorizer.h
    as a set of store nodes ordered by [MemoryOffsetComparer].  It is
    kept as its ascending sequence; a node whose offset equals that of a
    member is equivalent to the member and is not inserted. *)
Definition StoreNodeSet : Type := list Node.

(** The members of [Revectorizer] the pass reads and writes. *)
Record Revectorizer : Type := {
  slp_tree_ : SLPTree;
  group_of_stores_ : gmap Node (gmap Node StoreNodeSet);
  support_simd256_ : bool
}.

Section Driver.

Variable G : Graph.

Fixpoint StoreNodeSet_insert (node : Node) (set : StoreNodeSet) : StoreNodeSet :=
  match set with
  | [] => [node]
  | head :: rest =>
      if MemoryOffsetComparer G node head then node :: set
      else if MemoryOffsetComparer G head node then head :: StoreNodeSet_insert node rest
      else set
  end.

(** One iteration of the loop of [CollectSeeds].  The remainder of the
    source truncates towards zero, as [Z.rem] does. *)
Definition CollectSeed (group_of_stores : gmap Node (gmap Node StoreNodeSet))
    (node : Node) : gmap Node (gmap Node StoreNodeSet) :=
  let dominator := GetEarlySchedulePosition G node in
  if negb (bool_decide (Z.rem (GetMemoryOffsetValue G node) kSimd128Size = 0%Z))
  then group_of_stores
  else
    let address := GetNodeAddress G node in
    let store_nodes : gmap Node StoreNodeSet :=
      match group_of_stores !! dominator with
      | None => ∅
      | Some store_nodes => store_nodes
      end in
    let set : StoreNodeSet :=
      match store_nodes !! address with
      | None => []
      | Some set => set
      end in
    <[dominator := <[address := StoreNodeSet_insert node set]> store_nodes]>
      group_of_stores.

Definition CollectSeeds (rv : Revectorizer) : Revectorizer :=
  {| slp_tree_ := slp_tree_ rv;
     group_of_stores_ := fold_left CollectSeed (GetSimdStoreNodes G) (group_of_stores_ rv);
     support_simd256_ := support_simd256_ rv |}.

(** The driver's calls return whether a tree was built and the tree
    they leave; [None] as for [Result]. *)
Definition Reduced : Type := option (bool * SLPTree).

Definition ReduceStoreChain (Stores : list Node) (t : SLPTree) : Reduced :=
  if negb (IsContinuousAccess G Stores) then Some (false, t)
  else
    match BuildTree G Stores t with
    | None => None
    | Some (None, t) => Some (false, t)
    | Some (Some root, t) => Some (true, t)
    end.

(** The vectors [stores_unit] of the inner loop of [ReduceStoreChains],
    in order.  The loop runs on chains of even size only, so that no
    unit is cut short by the end of the chain. *)
Fixpoint StoreUnits (store_chain : list Node) : list (list Node) :=
  match store_chain with
  | store0 :: store1 :: rest => [store0; store1] :: StoreUnits rest
  | _ => []
  end.

(** The inner loop of [ReduceStoreChains]. *)
Fixpoint ReduceStoreUnits (units : list (list Node)) (changed : bool)
    (t : SLPTree) : Reduced :=
  match units with
  | [] => Some (changed, t)
  | stores_unit :: units =>
      match ReduceStoreChain stores_unit t with
      | None => None
      | Some (true, t) => ReduceStoreUnits units true t
      | Some (false, t) => ReduceStoreUnits units changed t
      end
  end.

(** [ReduceStoreChains]; the map of chains is given as the sequence of
    its entries in the order the source iterates them. *)
Fixpoint ReduceStoreChains_from (store_chains : list (Node * StoreNodeSet))
    (changed : bool) (t : SLPTree) : Reduced :=
  match store_chains with
  | [] => Some (changed, t)
  | (address, chain) :: store_chains =>
      if (2 <=? length chain)%nat && (length chain mod 2 =? 0)%nat then
        match ReduceStoreUnits (StoreUnits chain) changed t with
        | None => None
        | Some (changed, t) => ReduceStoreChains_from store_chains changed t
        end
      else ReduceStoreChains_from store_chains changed t
  end.

Definition ReduceStoreChains (store_chains : list (Node * StoreNodeSet))
    (t : SLPTree) : Reduced :=
  ReduceStoreChains_from store_chains false t.

(** The loop of [TryRevectorize] over the entries of [group_of_stores_];
    [map_to_list] stands for the iteration order of the maps. *)
Fixpoint ReduceGroups (groups : list (Node * gmap Node StoreNodeSet))
    (success : bool) (t : SLPTree) : Reduced :=
  match groups with
  | [] => Some (success, t)
  | (dominator, store_chains) :: groups =>
      match ReduceStoreChains (map_to_list store_chains) t with
      | None => None
      | Some (true, t) => ReduceGroups groups true t
      | Some (false, t) => ReduceGroups groups success t
      end
  end.

Definition TryRevectorize (rv : Revectorizer) : option (bool * Revectorizer) :=
  if support_simd256_ rv && negb (bool_decide (GetSimdStoreNodes G = [])) then
    let rv := CollectSeeds rv in
    match ReduceGroups (map_to_list (group_of_stores_ rv)) false (slp_tree_ rv) with
    | None => None
    | Some (success, t) =>
        Some (success, {| slp_tree_ := t; group_of_stores_ := group_of_stores_ rv;
                          support_simd256_ := support_simd256_ rv |})
    end
  else Some (false, rv).

(** The groups [TryRevectorize] hands to [ReduceStoreChain], hence to
    [BuildTree] as roots: the units of the chains of even size. *)
Definition ChainUnits (chain : StoreNodeSet) : list (list Node) :=
  if (2 <=? length chain)%nat && (length chain mod 2 =? 0)%nat
  then StoreUnits chain else [].

Definition SeedGroups (group_of_stores : gmap Node (gmap Node StoreNodeSet))
    : list (list Node) :=
  concat (map (fun entry : Node * gmap Node StoreNodeSet =>
                 concat (map (fun chain : Node * StoreNodeSet => ChainUnits chain.2)
                             (map_to_list entry.2)))
              (map_to_list group_of_stores)).

(** A node is in the group-of-stores map when a set of the map has it. *)
Definition InGroupOfStores (group_of_stores : gmap Node (gmap Node StoreNodeSet))
    (node : Node) : Prop :=
  exists dominator store_nodes address set,
    group_of_stores !! dominator = Some store_nodes /\
    store_nodes !! address = Some set /\
    node ∈ set.

End Driver.

(** ** Graphs given by tables, for the examples *)

(** One row for each node, the node being the row number: its operator,
    its inputs in order, its first control index and its basic block. *)
Record NodeRow : Type := {
  row_op : OperatorPtr;
  row_inputs : list Node;
  row_first_control : nat;
  row_block : nat
}.

Definition Row (o : OperatorPtr) (inputs : list Node) (block : nat) : NodeRow :=
  {| row_op := o; row_inputs := inputs; row_first_control := length inputs;
     row_block := block |}.

Definition no_row : NodeRow := Row 0 [] 0.

Definition Op (o : IrOpcode) (inputs : nat) : Operator :=
  {| opcode_of := o; ValueInputCount := inputs; OpParameter_int64 := 0;
     OpParameter_int32 := 0; representation := kSimd128;
     transformation := kS128Load32Splat |}.

Definition Int64ConstantOp (value : Z) : Operator :=
  {| opcode_of := kInt64Constant; ValueInputCount := 0; OpParameter_int64 := value;
     OpParameter_int32 := 0; representation := kOtherRepresentation 0;
     transformation := kS128Load32Splat |}.

Definition ExtractF128Op (lane : Z) : Operator :=
  {| opcode_of := kExtractF128; ValueInputCount := 1; OpParameter_int64 := 0;
     OpParameter_int32 := lane; representation := kSimd128;
     transformation := kS128Load32Splat |}.

(** An opcode outside the list of the pass that [IsConstantOpcode]
    accepts, as it accepts every constant opcode of the IR. *)
Definition kExternalConstant : IrOpcode := kOtherOpcode 1.

(** An input index out of range reads the node itself. *)
Definition TableGraph (rows : list NodeRow) (ops : list Operator)
    (stores : list Node) (max_depth : nat) : Graph :=
  {| op := fun node => row_op (nth node rows no_row);
     operator_at := fun o => nth o ops (Op (kOtherOpcode 0) 0);
     InputAt := fun node i => nth i (row_inputs (nth node rows no_row)) node;
     FirstControlIndex := fun node => row_first_control (nth node rows no_row);
     IsConstantOpcode := fun o =>
       bool_decide (o = kInt64Constant) || bool_decide (o = kExternalConstant);
     IsSimd128Opcode := fun o =>
       bool_decide (o = kF32x4Add) || bool_decide (o = kF32x4Mul);
     IsPhiOpcode := fun o => bool_decide (o = kPhi);
     SameBasicBlock := fun node0 node1 =>
       bool_decide (row_block (nth node0 rows no_row) = row_block (nth node1 rows no_row));
     GetEarlySchedulePosition := fun node => row_block (nth node rows no_row);
     GetSimdStoreNodes := stores;
     AllNodes := seq 0 (length rows);
     RecursionMaxDepth := max_depth |}.

(** The operators of the example graphs, by position. *)
Definition example_ops : list Operator :=
  [ Op (kOtherOpcode 0) 0;        (* 0: an index or a 256-bit value *)
    Op kLoad 2;                   (* 1: the memory start *)
    Int64ConstantOp 16;           (* 2 *)
    Op kInt64Add 2;               (* 3 *)
    Op kProtectedStore 3;         (* 4 *)
    Op kProtectedLoad 2;          (* 5 *)
    Op kF32x4Add 2;               (* 6 *)
    ExtractF128Op 0;              (* 7 *)
    ExtractF128Op 1;              (* 8 *)
    Op kExternalConstant 0;       (* 9 *)
    Int64ConstantOp 32;           (* 10 *)
    Op kF32x4Mul 2;               (* 11 *)
    Op kPhi 2                     (* 12 *) ].

(** Two adjacent stores of sums of adjacent loads:
    #8 = ProtectedStore (#1, #0, #6) at offset 0 and
    #9 = ProtectedStore (#3, #0, #7) at offset 16, with
    #6 = F32x4Add (#4, #4), #7 = F32x4Add (#5, #5),
    #4 and #5 the loads at offsets 0 and 16. *)
Definition stores_graph : Graph :=
  TableGraph
    [ Row 0 [] 1;            (* 0: index *)
      Row 1 [] 1;            (* 1: memory start *)
      Row 2 [] 1;            (* 2: 16 *)
      Row 3 [1; 2] 1;        (* 3: memory start + 16 *)
      Row 5 [1; 0] 1;        (* 4: load at 0 *)
      Row 5 [3; 0] 1;        (* 5: load at 16 *)
      Row 6 [4; 4] 1;        (* 6 *)
      Row 6 [5; 5] 1;        (* 7 *)
      Row 4 [1; 0; 6] 1;     (* 8: store at 0 *)
      Row 4 [3; 0; 7] 1 ]    (* 9: store at 16 *)
    example_ops [8; 9] 8.

(** The same stores, the second in another basic block. *)
Definition split_stores_graph : Graph :=
  TableGraph
    [ Row 0 [] 1; Row 1 [] 1; Row 2 [] 1; Row 3 [1; 2] 1;
      Row 5 [1; 0] 1; Row 5 [3; 0] 1; Row 6 [4; 4] 1; Row 6 [5; 5] 1;
      Row 4 [1; 0; 6] 1;
      Row 4 [3; 0; 7] 2 ]
    example_ops [8; 9] 8.

(** Lane 1 of the stored value uses lane 0:
    #5 = F32x4Add (#4, #4) and #6 = F32x4Add (#5, #4), stored by
    #7 and #8 at offsets 0 and 16.  The graph has no cycle. *)
Definition chained_lanes_graph : Graph :=
  TableGraph
    [ Row 0 [] 1;            (* 0: index *)
      Row 1 [] 1;            (* 1: memory start *)
      Row 2 [] 1;            (* 2: 16 *)
      Row 3 [1; 2] 1;        (* 3: memory start + 16 *)
      Row 5 [1; 0] 1;        (* 4: load at 0 *)
      Row 6 [4; 4] 1;        (* 5 *)
      Row 6 [5; 4] 1;        (* 6 *)
      Row 4 [1; 0; 5] 1;     (* 7: store at 0 *)
      Row 4 [3; 0; 6] 1 ]    (* 8: store at 16 *)
    example_ops [7; 8] 8.

(** The two halves of a 256-bit value:
    #1 = ExtractF128 [0] (#0) and #2 = ExtractF128 [1] (#0). *)
Definition extract_graph : Graph :=
  TableGraph
    [ Row 0 [] 1;            (* 0: the 256-bit source *)
      Row 7 [0] 1;           (* 1: lane 0 *)
      Row 8 [0] 1 ]          (* 2: lane 1 *)
    example_ops [] 8.

(** A store whose address is the sum of a constant that is not an
    [Int64Constant] and of the [Int64Constant] 16:
    #3 = Int64Add (#1, #2), #5 = ProtectedStore (#3, #0, #4). *)
Definition external_base_graph : Graph :=
  TableGraph
    [ Row 0 [] 1;            (* 0: index *)
      Row 9 [] 1;            (* 1: external constant *)
      Row 2 [] 1;            (* 2: 16 *)
      Row 3 [1; 2] 1;        (* 3 *)
      Row 0 [] 1;            (* 4: the stored value *)
      Row 4 [3; 0; 4] 1 ]    (* 5 *)
    example_ops [5] 8.

(** Two loads whose index nodes depend on each other:
    #2 and #3 take each other as input; #4 and #5 are the loads at
    offsets 0 and 16 with index #2. *)
Definition cyclic_graph : Graph :=
  TableGraph
    [ Row 1 [] 1;            (* 0: memory start *)
      Row 2 [] 1;            (* 1: 16 *)
      Row 0 [3] 1;           (* 2 *)
      Row 0 [2] 1;           (* 3 *)
      Row 5 [0; 2] 1;        (* 4: load at 0 *)
      Row 5 [6; 2] 1;        (* 5: load at 16 *)
      Row 3 [0; 1] 1 ]       (* 6: memory start + 16 *)
    example_ops [] 8.

(** A store whose address is no load and no sum:
    #3 = ProtectedStore (#1, #0, #2), #1 of an opcode the pass does not
    know. *)
Definition unknown_base_graph : Graph :=
  TableGraph
    [ Row 0 [] 1;            (* 0: index *)
      Row 0 [] 1;            (* 1: the address *)
      Row 0 [] 1;            (* 2: the stored value *)
      Row 4 [1; 0; 2] 1 ]    (* 3 *)
    example_ops [3] 8.

(** The loads of [stores_graph], the second in another basic block. *)
Definition split_loads_graph : Graph :=
  TableGraph
    [ Row 0 [] 1;            (* 0: index *)
      Row 1 [] 1;            (* 1: memory start *)
      Row 2 [] 1;            (* 2: 16 *)
      Row 3 [1; 2] 1;        (* 3: memory start + 16 *)
      Row 5 [1; 0] 1;        (* 4: load at 0 *)
      Row 5 [3; 0] 2 ]       (* 5: load at 16 *)
    example_ops [] 8.

(** Two stores of loop-carried values:
    #6 = Phi (#4, #8) and #7 = Phi (#5, #9), with
    #8 = F32x4Add (#6, #4) and #9 = F32x4Add (#7, #5), #4 and #5 the
    loads at offsets 0 and 16; #10 and #11 store #6 and #7 at offsets 0
    and 16. *)
Definition accumulate_graph : Graph :=
  TableGraph
    [ Row 0 [] 1;            (* 0: index *)
      Row 1 [] 1;            (* 1: memory start *)
      Row 2 [] 1;            (* 2: 16 *)
      Row 3 [1; 2] 1;        (* 3: memory start + 16 *)
      Row 5 [1; 0] 1;        (* 4: load at 0 *)
      Row 5 [3; 0] 1;        (* 5: load at 16 *)
      Row 12 [4; 8] 1;       (* 6 *)
      Row 12 [5; 9] 1;       (* 7 *)
      Row 6 [6; 4] 1;        (* 8 *)
      Row 6 [7; 5] 1;        (* 9 *)
      Row 4 [1; 0; 6] 1;     (* 10: store at 0 *)
      Row 4 [3; 0; 7] 1 ]    (* 11: store at 16 *)
    example_ops [10; 11] 8.

(** The tree of [BuildTree] on the stores #10 and #11 of
    [accumulate_graph] when the recursion reaches operand 0 of the
    sums: the stores, the phis and the sums are on the stack and have
    the packs 0, 1 and 3; the loads, operand 0 of the phis, have the
    pack 2 and are off the stack again. *)
Definition accumulate_tree : SLPTree :=
  let t := PushStack (DeleteTree empty_tree) [10; 11] in
  let t := (NewPackNode t [10; 11]).2 in
  let t := PushStack t [6; 7] in
  let t := (NewPackNode t [6; 7]).2 in
  let t := PushStack t [4; 5] in
  let t := (NewPackNode t [4; 5]).2 in
  let t := default t (PopStack t) in
  let t := SetOperand t 1 0 2 in
  let t := PushStack t [8; 9] in
  (NewPackNode t [8; 9]).2.

(** ** Notions the properties are stated with *)

(** What the nodes not yet visited can still cost the work-list loop:
    one iteration to expand each of them, and one for each input the
    expansion pushes. *)
Definition remaining_cost (G : Graph) (nodes : list Node) (visited : gset Node) : nat :=
  sum_list (map (fun node => S (FirstControlIndex G node))
                (filter (fun node => node ∉ visited) nodes)).

(** The opcodes under which [BuildTreeRec] calls [NewPackNode]. *)
Definition PackedOpcode (o : IrOpcode) : bool :=
  match o with
  | kExtractF128 | kProtectedLoad | kLoadTransform | kPhi | kLoopExitValue
  | kF32x4Add | kF32x4Mul | kStore | kProtectedStore => true
  | _ => false
  end.

(** The invariant of the tree during a [BuildTree] that found [base]
    packs in the zone: the on-stack set holds nodes of stacked groups
    only; the registry and the packs made since [base] agree, each
    registered node being a member of its pack and each member of such
    a pack being registered to it; registered nodes have opcodes the
    builder packs. *)
Record TreeInv (G : Graph) (base : nat) (t : SLPTree) : Prop := {
  inv_stack_covers :
    forall node, node ∈ on_stack_ t -> exists group, group ∈ stack_ t /\ node ∈ group;
  inv_stack_groups : forall group, group ∈ stack_ t -> group <> [];
  inv_base : (base <= length (zone_ t))%nat;
  inv_registered :
    forall node p, node_to_packnode_ t !! node = Some p ->
      (base <= p)%nat /\ exists pnode, zone_ t !! p = Some pnode /\ node ∈ nodes_ pnode;
  inv_packs :
    forall p pnode node, (base <= p)%nat -> zone_ t !! p = Some pnode ->
      node ∈ nodes_ pnode -> node_to_packnode_ t !! node = Some p;
  inv_opcodes :
    forall node p, node_to_packnode_ t !! node = Some p ->
      PackedOpcode (opcode G node) = true
}.

(** The zone and the registry only grow: packs keep their place and
    their nodes, registered nodes keep their pack. *)
Record Grows (t t' : SLPTree) : Prop := {
  grows_zone_length : (length (zone_ t) <= length (zone_ t'))%nat;
  grows_zone_nodes :
    forall p pnode, zone_ t !! p = Some pnode ->
      exists pnode', zone_ t' !! p = Some pnode' /\ nodes_ pnode' = nodes_ pnode;
  grows_registry :
    forall node p, node_to_packnode_ t !! node = Some p ->
      node_to_packnode_ t' !! node = Some p
}.

(** What a call of [BuildTreeRec] on [node_group] establishes, from the
    tree [t] to the tree [t'] with result [r]: the invariant, growth,
    a stack that still ends with the stack of [t]; and, when a pack is
    returned, the stack of [t], an on-stack set within that of [t], and
    a pack of the group to which the nodes of the group are
    registered. *)
Record BuildPost (G : Graph) (base : nat) (node_group : list Node)
    (t : SLPTree) (r : option PackPtr) (t' : SLPTree) : Prop := {
  post_inv : TreeInv G base t';
  post_grows : Grows t t';
  post_stack : exists pushed, stack_ t' = pushed ++ stack_ t;
  post_success :
    forall p, r = Some p ->
      stack_ t' = stack_ t /\ on_stack_ t' ⊆ on_stack_ t /\
      IsSame t' p node_group = true /\
      forall node, node ∈ node_group -> GetPackNode t' node = Some p
}.

(** The preflight of [BuildTreeRec] up to [CanBePacked]: the depth cap
    is not reached, the cycle check lets the group through, and the
    group can be packed. *)
Definition PreflightPasses (G : Graph) (node_group : list Node)
    (recursion_depth : nat) (t : SLPTree) : Prop :=
  recursion_depth <> RecursionMaxDepth G /\
  (AllOnStack t node_group = false \/ StackTopIsPhi G t = Some true) /\
  CanBePacked G node_group = true.

(** What the loop of [NewPackNodeAndRecurs] needs of the function it
    calls at the next depth. *)
Definition RecSpec (G : Graph) (base : nat)
    (rec : list Node -> nat -> SLPTree -> Result) (depth : nat) : Prop :=
  forall node_group t,
    TreeInv G base t ->
    (forall node, node ∈ node_group -> node ∈ AllNodes G) ->
    length node_group = 2%nat ->
    exists r t', rec node_group depth t = Some (r, t') /\
                 BuildPost G base node_group t r t'.

(** Two [Load] nodes with the same operator, in one basic block. *)
Definition plain_loads_graph : Graph :=
  TableGraph [ Row 1 [] 1; Row 1 [] 1 ] example_ops [] 8.

(** The tree of [BuildTree] on the stores #7 and #8 of
    [chained_lanes_graph] when the recursion reaches operand 0 of the
    sums: the groups of the stores and of the sums are on the stack
    and have their packs. *)
Definition chained_lanes_tree : SLPTree :=
  let t := PushStack (DeleteTree empty_tree) [7; 8] in
  let t := (NewPackNode t [7; 8]).2 in
  let t := PushStack t [5; 6] in
  (NewPackNode t [5; 6]).2.

(** ** Further notions: the debug checks, the prober, the seeds, the tree *)

Section FurtherNotions.

Variable G : Graph.

(** [IsSupportedLoad], of the debug build, on a node and on a group. *)
Definition IsSupportedLoad (node : Node) : bool :=
  if bool_decide (opcode G node = kProtectedLoad)
     || bool_decide (opcode G node = kLoad)
     || bool_decide (opcode G node = kLoadTransform)
  then true
  else false.

Fixpoint IsSupportedLoad_group (node_group : list Node) : bool :=
  match node_group with
  | [] => true
  | node :: rest => if negb (IsSupportedLoad node) then false else IsSupportedLoad_group rest
  end.

(** No overflow in the differences of offsets: the offsets are well
    inside the [int64_t] range. *)
Definition small_offset (node : Node) : Prop :=
  (- 2 ^ 62 <= GetMemoryOffsetValue G node < 2 ^ 62)%Z.

(** The nodes [IsSideEffectFreeLoad] can come to inspect for a group:
    the inputs before control of the loads that are not themselves in
    the group, and the inputs before control of every node reached that
    is in the basic block of the first load. *)
Inductive Probed (node_group : list Node) (node0 : Node) : Node -> Prop :=
  | probed_input load j :
      load ∈ node_group -> (j < FirstControlIndex G load)%nat ->
      InputAt G load j ∉ node_group ->
      Probed node_group node0 (InputAt G load j)
  | probed_step node j :
      Probed node_group node0 node ->
      SameBasicBlock G node node0 = true ->
      (j < FirstControlIndex G node)%nat ->
      Probed node_group node0 (InputAt G node j).

(** A sequence of nodes in strictly ascending offset order. *)
Fixpoint AscendingOffsets (set : list Node) : Prop :=
  match set with
  | [] => True
  | node :: rest =>
      Forall (fun later => (GetMemoryOffsetValue G node < GetMemoryOffsetValue G later)%Z) rest
      /\ AscendingOffsets rest
  end.

(** The group-of-stores map as [CollectSeeds] builds it: each set is in
    strictly ascending offset order, and its members have the dominator
    and the address the set is filed under and an offset that is a
    multiple of [kSimd128Size]. *)
Definition SeedsWellFormed (group_of_stores : gmap Node (gmap Node StoreNodeSet)) : Prop :=
  forall dominator store_nodes address set,
    group_of_stores !! dominator = Some store_nodes ->
    store_nodes !! address = Some set ->
    AscendingOffsets set /\
    forall node, node ∈ set ->
      GetEarlySchedulePosition G node = dominator /\
      GetNodeAddress G node = address /\
      Z.rem (GetMemoryOffsetValue G node) kSimd128Size = 0%Z.

(** A store is represented in the map when the set of its dominator and
    address has a member with its offset. *)
Definition Represented (group_of_stores : gmap Node (gmap Node StoreNodeSet))
    (node : Node) : Prop :=
  exists store_nodes set member,
    group_of_stores !! GetEarlySchedulePosition G node = Some store_nodes /\
    store_nodes !! GetNodeAddress G node = Some set /\
    member ∈ set /\
    GetMemoryOffsetValue G member = GetMemoryOffsetValue G node.

(** The child recorded at an operand position of a pack, if any. *)
Definition OperandAt (pnode : PackNode) (index : nat) : option PackPtr :=
  default None (operands_ pnode !! index).

(** The operand positions [BuildTreeRec] recurses into for a group
    whose first node is [node0]. *)
Definition RecursedIndices (node0 : Node) : list nat :=
  match opcode G node0 with
  | kPhi | kLoopExitValue | kF32x4Add | kF32x4Mul =>
      seq 0 (ValueInputCount (operator G node0))
  | kStore | kProtectedStore => seq 2 1
  | _ => []
  end.

(** A pack is wired when each operand position the builder recurses
    into holds a pack of the value inputs of its nodes at the position. *)
Definition Wired (t : SLPTree) (p : PackPtr) : Prop :=
  forall pnode node0 i,
    zone_ t !! p = Some pnode -> head (nodes_ pnode) = Some node0 ->
    i ∈ RecursedIndices node0 ->
    exists child cnode,
      OperandAt pnode i = Some child /\ zone_ t !! child = Some cnode /\
      nodes_ cnode = map (fun node => GetValueInput G node i) (nodes_ pnode).

(** What the dispatch of [BuildTreeRec] has checked of a group it makes
    a pack of. *)
Definition GoodGroup (node_group : list Node) : Prop :=
  exists node0 node1,
    node_group = [node0; node1] /\
    CanBePacked G node_group = true /\
    match opcode G node0 with
    | kExtractF128 =>
        node0 = node1 /\ opcode G (InputAt G node0 0) = kLoadTransform
    | kProtectedLoad =>
        GetNodeAddress G node0 = GetNodeAddress G node1 /\
        representation (operator G node0) = kSimd128 /\
        IsContinuousAccess G (SortByOffset G node_group) = true
    | kLoadTransform =>
        node0 = node1 /\
        (transformation (operator G node0) = kS128Load32Splat \/
         transformation (operator G node0) = kS128Load64Splat)
    | kPhi | kLoopExitValue => representation (operator G node0) = kSimd128
    | kF32x4Add | kF32x4Mul => True
    | kStore | kProtectedStore => GetNodeAddress G node0 = GetNodeAddress G node1
    | _ => False
    end.

(** The packs of [t] are in [t'], with their nodes. *)
Definition NodesKept (t t' : SLPTree) : Prop :=
  forall p pnode, zone_ t !! p = Some pnode ->
    exists pnode', zone_ t' !! p = Some pnode' /\ nodes_ pnode' = nodes_ pnode.

(** What a call of [BuildTreeRec] on [node_group] that returns [r] has
    done to the tree, from [t] to [t']: the packs there were are
    untouched and the packs added are of groups the dispatch has
    checked; on failure the stack is that of [t], or that of [t] under
    the group; on success the stack is that of [t], the pack returned
    is a pack of the group and the packs added are wired. *)
Record RunPost (node_group : list Node) (t : SLPTree) (r : option PackPtr)
    (t' : SLPTree) : Prop := {
  run_old : forall q, (q < length (zone_ t))%nat -> zone_ t' !! q = zone_ t !! q;
  run_length : (length (zone_ t) <= length (zone_ t'))%nat;
  run_good :
    forall q pnode, (length (zone_ t) <= q)%nat -> zone_ t' !! q = Some pnode ->
      GoodGroup (nodes_ pnode);
  run_failure :
    r = None ->
    (stack_ t' = stack_ t /\ on_stack_ t' ⊆ on_stack_ t) \/
    (stack_ t' = node_group :: stack_ t /\
     on_stack_ t' ⊆ list_to_set node_group ∪ on_stack_ t);
  run_success :
    forall p, r = Some p ->
      stack_ t' = stack_ t /\ on_stack_ t' ⊆ on_stack_ t /\
      IsSame t' p node_group = true /\
      forall q, (length (zone_ t) <= q < length (zone_ t'))%nat -> Wired t' q
}.

(** What the loop of [NewPackNodeAndRecurs] needs of the function it
    calls, for [RunPost]. *)
Definition RunSpec (rec : list Node -> nat -> SLPTree -> Result) : Prop :=
  forall node_group depth t r t',
    rec node_group depth t = Some (r, t') -> RunPost node_group t r t'.

End FurtherNotions.

(** ** Further example graphs *)

(** The operators of the examples and a [LoadTransform], at position 13. *)
Definition splat_ops : list Operator := example_ops ++ [Op kLoadTransform 2].

(** Two adjacent stores of sums of adjacent loads and one splat:
    #10 = ProtectedStore (#1, #0, #8) at offset 0 and
    #11 = ProtectedStore (#3, #0, #9) at offset 16, with
    #8 = F32x4Add (#4, #7), #9 = F32x4Add (#5, #7), #4 and #5 the
    loads at offsets 0 and 16 and #7 = ExtractF128 [0] (#6) of the
    LoadTransform #6. *)
Definition splat_graph : Graph :=
  TableGraph
    [ Row 0 [] 1;            (* 0: index *)
      Row 1 [] 1;            (* 1: memory start *)
      Row 2 [] 1;            (* 2: 16 *)
      Row 3 [1; 2] 1;        (* 3: memory start + 16 *)
      Row 5 [1; 0] 1;        (* 4: load at 0 *)
      Row 5 [3; 0] 1;        (* 5: load at 16 *)
      Row 13 [1; 0] 1;       (* 6: the splat load *)
      Row 7 [6] 1;           (* 7: its lane 0 *)
      Row 6 [4; 7] 1;        (* 8 *)
      Row 6 [5; 7] 1;        (* 9 *)
      Row 4 [1; 0; 8] 1;     (* 10: store at 0 *)
      Row 4 [3; 0; 9] 1 ]    (* 11: store at 16 *)
    splat_ops [10; 11] 8.

(** The stores of [stores_graph] 32 bytes apart:
    #8 = ProtectedStore (#1, #0, #6) at offset 0 and
    #9 = ProtectedStore (#3, #0, #7) at offset 32. *)
Definition gapped_stores_graph : Graph :=
  TableGraph
    [ Row 0 [] 1;            (* 0: index *)
      Row 1 [] 1;            (* 1: memory start *)
      Row 10 [] 1;           (* 2: 32 *)
      Row 3 [1; 2] 1;        (* 3: memory start + 32 *)
      Row 5 [1; 0] 1;        (* 4: load at 0 *)
      Row 5 [3; 0] 1;        (* 5: load at 32 *)
      Row 6 [4; 4] 1;        (* 6 *)
      Row 6 [5; 5] 1;        (* 7 *)
      Row 4 [1; 0; 6] 1;     (* 8: store at 0 *)
      Row 4 [3; 0; 7] 1 ]    (* 9: store at 32 *)
    example_ops [8; 9] 8.

(** * Properties *)

#[local] Set Warnings "-clear-no-such-hyp".

(** ** Memory address analysis *)

Section MemoryAddressFacts.

Variable G : Graph.

Lemma GetConstantValue_Int64Constant node :
  opcode G node = kInt64Constant ->
  GetConstantValue G node = OpParameter_int64 (operator G node).
Proof. intros H. unfold GetConstantValue. by rewrite decide_True. Qed.

Lemma GetConstantValue_other node :
  opcode G node <> kInt64Constant -> GetConstantValue G node = (-1)%Z.
Proof. intros H. unfold GetConstantValue. by rewrite decide_False. Qed.

Lemma GetMemoryOffsetValue_load node :
  opcode G (InputAt G node 0) = kLoad \/ opcode G (InputAt G node 0) = kLoadFromObject ->
  GetMemoryOffsetValue G node = 0%Z.
Proof.
  intros H. unfold GetMemoryOffsetValue.
  destruct H as [-> | ->]; reflexivity.
Qed.

Lemma GetMemoryOffsetValue_add node :
  opcode G (InputAt G node 0) = kInt64Add ->
  GetMemoryOffsetValue G node =
    if IsConstant G (InputAt G (InputAt G node 0) 0)
    then GetConstantValue G (InputAt G (InputAt G node 0) 0)
    else if IsConstant G (InputAt G (InputAt G node 0) 1)
         then GetConstantValue G (InputAt G (InputAt G node 0) 1)
         else (-1)%Z.
Proof. intros H. unfold GetMemoryOffsetValue. rewrite H. reflexivity. Qed.

Lemma GetMemoryOffsetValue_other node :
  opcode G (InputAt G node 0) <> kLoad ->
  opcode G (InputAt G node 0) <> kLoadFromObject ->
  opcode G (InputAt G node 0) <> kInt64Add ->
  GetMemoryOffsetValue G node = (-1)%Z.
Proof.
  intros H1 H2 H3. unfold GetMemoryOffsetValue.
  rewrite (bool_decide_eq_false_2 _ H1), (bool_decide_eq_false_2 _ H2).
  simpl. by rewrite decide_False.
Qed.

(** The offset is the sentinel as soon as input 0 is no load and no sum
    with an [Int64Constant] input, whatever [IsConstant] answers. *)
Lemma GetMemoryOffsetValue_no_Int64Constant node :
  opcode G (InputAt G node 0) <> kLoad ->
  opcode G (InputAt G node 0) <> kLoadFromObject ->
  (opcode G (InputAt G node 0) = kInt64Add ->
   opcode G (InputAt G (InputAt G node 0) 0) <> kInt64Constant /\
   opcode G (InputAt G (InputAt G node 0) 1) <> kInt64Constant) ->
  GetMemoryOffsetValue G node = (-1)%Z.
Proof.
  intros H1 H2 H3.
  destruct (decide (opcode G (InputAt G node 0) = kInt64Add)) as [Hadd | Hadd].
  - rewrite (GetMemoryOffsetValue_add _ Hadd).
    destruct (H3 Hadd) as [H0 H1'].
    rewrite (GetConstantValue_other _ H0), (GetConstantValue_other _ H1').
    by repeat case_match.
  - by apply GetMemoryOffsetValue_other.
Qed.

Lemma GetMemoryOffsetValue_no_constant node :
  opcode G (InputAt G node 0) <> kLoad ->
  opcode G (InputAt G node 0) <> kLoadFromObject ->
  (opcode G (InputAt G node 0) = kInt64Add ->
   IsConstant G (InputAt G (InputAt G node 0) 0) = false /\
   IsConstant G (InputAt G (InputAt G node 0) 1) = false) ->
  GetMemoryOffsetValue G node = (-1)%Z.
Proof.
  intros H1 H2 H3.
  destruct (decide (opcode G (InputAt G node 0) = kInt64Add)) as [Hadd | Hadd].
  - rewrite (GetMemoryOffsetValue_add _ Hadd).
    destruct (H3 Hadd) as [-> ->]. reflexivity.
  - by apply GetMemoryOffsetValue_other.
Qed.

End MemoryAddressFacts.

(** C6, as the code has it.  The offset of a node is 0 when its input 0
    is a [Load] or a [LoadFromObject], and -1 when input 0 is neither
    of them nor an [Int64Add].  When input 0 is an [Int64Add], the
    first of its two inputs that [NodeProperties::IsConstant] accepts
    decides alone: the offset is its value when it is an
    [Int64Constant] and -1 when it is a constant of another opcode; the
    offset is -1 when neither input is a constant. *)
Theorem GetMemoryOffsetValue_cases (G : Graph) (node : Node) :
  let offset := InputAt G node 0 in
  let lhs := InputAt G offset 0 in
  let rhs := InputAt G offset 1 in
  (opcode G offset = kLoad \/ opcode G offset = kLoadFromObject ->
   GetMemoryOffsetValue G node = 0%Z) /\
  (opcode G offset = kInt64Add ->
   (IsConstant G lhs = true -> opcode G lhs = kInt64Constant ->
    GetMemoryOffsetValue G node = OpParameter_int64 (operator G lhs)) /\
   (IsConstant G lhs = true -> opcode G lhs <> kInt64Constant ->
    GetMemoryOffsetValue G node = (-1)%Z) /\
   (IsConstant G lhs = false -> IsConstant G rhs = true ->
    opcode G rhs = kInt64Constant ->
    GetMemoryOffsetValue G node = OpParameter_int64 (operator G rhs)) /\
   (IsConstant G lhs = false -> IsConstant G rhs = true ->
    opcode G rhs <> kInt64Constant ->
    GetMemoryOffsetValue G node = (-1)%Z) /\
   (IsConstant G lhs = false -> IsConstant G rhs = false ->
    GetMemoryOffsetValue G node = (-1)%Z)) /\
  (opcode G offset <> kLoad -> opcode G offset <> kLoadFromObject ->
   opcode G offset <> kInt64Add ->
   GetMemoryOffsetValue G node = (-1)%Z).
Proof.
  cbv zeta. split; [apply GetMemoryOffsetValue_load|].
  split; [|apply GetMemoryOffsetValue_other].
  intros Hadd. rewrite (GetMemoryOffsetValue_add _ _ Hadd).
  repeat split.
  - intros -> H. by apply GetConstantValue_Int64Constant.
  - intros -> H. by apply GetConstantValue_other.
  - intros -> -> H. by apply GetConstantValue_Int64Constant.
  - intros -> -> H. by apply GetConstantValue_other.
  - intros -> ->. reflexivity.
Qed.

(** The store #9 of [stores_graph]: its input 0 is [Int64Add (#1, #2)],
    #1 is no constant and #2 is the [Int64Constant] 16. *)
Lemma GetMemoryOffsetValue_cases_witness :
  GetMemoryOffsetValue stores_graph 9 = 16%Z.
Proof.
  destruct (GetMemoryOffsetValue_cases stores_graph 9) as (_ & Hadd & _).
  destruct (Hadd eq_refl) as (_ & _ & Hrhs & _).
  exact (Hrhs eq_refl eq_refl eq_refl).
Defined.

(** C6 fails as stated: input 0 of the store #5 of
    [external_base_graph] is an [Int64Add] whose input 1 is the
    [Int64Constant] 16 and whose input 0 is no [Int64Constant], yet the
    offset is -1 and not 16, input 0 being a constant of another
    opcode. *)
Lemma GetMemoryOffsetValue_not_the_Int64Constant :
  let G := external_base_graph in
  let offset := InputAt G 5 0 in
  opcode G offset = kInt64Add /\
  opcode G (InputAt G offset 0) <> kInt64Constant /\
  opcode G (InputAt G offset 1) = kInt64Constant /\
  OpParameter_int64 (operator G (InputAt G offset 1)) = 16%Z /\
  GetMemoryOffsetValue G 5 = (-1)%Z /\
  GetMemoryOffsetValue G 5 <> OpParameter_int64 (operator G (InputAt G offset 1)).
Proof. cbv zeta. repeat split; try reflexivity; discriminate. Qed.

(** ** Seed collection *)

Section SeedFacts.

Variable G : Graph.

Lemma StoreNodeSet_insert_elem node x set :
  x ∈ StoreNodeSet_insert G node set -> x = node \/ x ∈ set.
Proof.
  induction set as [|head rest IH]; simpl.
  - rewrite list_elem_of_singleton. auto.
  - destruct (MemoryOffsetComparer G node head).
    + rewrite elem_of_cons. tauto.
    + destruct (MemoryOffsetComparer G head node); [|auto].
      rewrite !elem_of_cons. intros [-> | H]; [auto|].
      destruct (IH H); auto.
Qed.

Lemma CollectSeed_unaligned group_of_stores node :
  Z.rem (GetMemoryOffsetValue G node) kSimd128Size <> 0%Z ->
  CollectSeed G group_of_stores node = group_of_stores.
Proof.
  intros H. unfold CollectSeed. by rewrite bool_decide_eq_false_2.
Qed.

Lemma CollectSeed_members group_of_stores node x :
  InGroupOfStores (CollectSeed G group_of_stores node) x ->
  (x = node /\ Z.rem (GetMemoryOffsetValue G node) kSimd128Size = 0%Z)
  \/ InGroupOfStores group_of_stores x.
Proof.
  unfold CollectSeed.
  destruct (bool_decide_reflect (Z.rem (GetMemoryOffsetValue G node) kSimd128Size = 0%Z))
    as [Hal | Hal]; simpl; [|auto].
  intros (d & sn & a & set & Hd & Ha & Hx).
  destruct (decide (d = GetEarlySchedulePosition G node)) as [-> | Hne];
    [|rewrite lookup_insert_ne in Hd by done; right; by exists d, sn, a, set].
  rewrite lookup_insert_eq in Hd. injection Hd as <-.
  destruct (decide (a = GetNodeAddress G node)) as [-> | Hna].
  - rewrite lookup_insert_eq in Ha. injection Ha as <-.
    apply StoreNodeSet_insert_elem in Hx as [-> | Hx]; [auto|].
    right.
    destruct (group_of_stores !! GetEarlySchedulePosition G node) as [sn|] eqn:Hd;
      [|by rewrite lookup_empty in Hx; apply elem_of_nil in Hx].
    destruct (sn !! GetNodeAddress G node) as [set|] eqn:Ha;
      [|by apply elem_of_nil in Hx].
    by exists (GetEarlySchedulePosition G node), sn, (GetNodeAddress G node), set.
  - rewrite lookup_insert_ne in Ha by done. right.
    destruct (group_of_stores !! GetEarlySchedulePosition G node) as [sn|] eqn:Hd;
      [|by rewrite lookup_empty in Ha].
    by exists (GetEarlySchedulePosition G node), sn, a, set.
Qed.

Lemma CollectSeeds_members stores group_of_stores x :
  InGroupOfStores (fold_left (CollectSeed G) stores group_of_stores) x ->
  (x ∈ stores /\ Z.rem (GetMemoryOffsetValue G x) kSimd128Size = 0%Z)
  \/ InGroupOfStores group_of_stores x.
Proof.
  revert group_of_stores.
  induction stores as [|node stores IH]; simpl; intros m H; [auto|].
  apply IH in H as [[Hin Hal] | H].
  - left. split; [by apply elem_of_cons; right | done].
  - apply CollectSeed_members in H as [[-> Hal] | H]; [|auto].
    left. split; [by apply elem_of_cons; left | done].
Qed.

Lemma StoreUnits_members chain unit x :
  unit ∈ StoreUnits chain -> x ∈ unit -> x ∈ chain.
Proof.
  revert unit x.
  induction chain as [chain IH] using (induction_ltof1 _ (@length Node)).
  unfold ltof in IH. intros unit x.
  destruct chain as [|store0 [|store1 rest]]; simpl;
    [by intros ?%elem_of_nil | by intros ?%elem_of_nil |].
  rewrite elem_of_cons. intros [-> | Hin] Hx.
  - rewrite !elem_of_cons in Hx. rewrite !elem_of_cons.
    destruct Hx as [-> | [-> | Hx]]; [auto | auto | by apply elem_of_nil in Hx].
  - rewrite !elem_of_cons. right. right.
    eapply (IH rest); [simpl; lia | exact Hin | exact Hx].
Qed.

Lemma ChainUnits_members chain unit x :
  unit ∈ ChainUnits chain -> x ∈ unit -> x ∈ chain.
Proof.
  unfold ChainUnits. case_match; [apply StoreUnits_members|].
  by intros ?%elem_of_nil.
Qed.

Lemma SeedGroups_members group_of_stores unit x :
  unit ∈ SeedGroups group_of_stores -> x ∈ unit ->
  InGroupOfStores group_of_stores x.
Proof.
  unfold SeedGroups. intros Hu Hx.
  apply list_elem_of_In, in_concat in Hu as (units & Hunits & Hu).
  apply in_map_iff in Hunits as ([d sn] & <- & Hd).
  apply list_elem_of_In, elem_of_map_to_list in Hd. simpl in Hu.
  apply in_concat in Hu as (units & Hunits & Hu).
  apply in_map_iff in Hunits as ([a set] & <- & Ha).
  apply list_elem_of_In, elem_of_map_to_list in Ha. simpl in Hu.
  apply list_elem_of_In in Hu.
  exists d, sn, a, set. repeat split; try done.
  by eapply ChainUnits_members.
Qed.

(** The flag of the inner loop only accumulates. *)
Lemma ReduceStoreUnits_changed units changed t :
  ReduceStoreUnits G units changed t =
    match ReduceStoreUnits G units false t with
    | Some (c, t') => Some (changed || c, t')
    | None => None
    end.
Proof.
  revert changed t. induction units as [|u units IH]; simpl; intros changed t.
  - by rewrite orb_false_r.
  - destruct (ReduceStoreChain G u t) as [[[] t']|]; [| apply IH | done].
    rewrite (IH true t'). destruct (ReduceStoreUnits G units false t') as [[c t'']|];
      [|done]. by rewrite orb_true_r.
Qed.

Lemma ReduceStoreUnits_app units1 units2 changed t :
  ReduceStoreUnits G (units1 ++ units2) changed t =
    match ReduceStoreUnits G units1 changed t with
    | Some (c, t') => ReduceStoreUnits G units2 c t'
    | None => None
    end.
Proof.
  revert changed t. induction units1 as [|u units1 IH]; simpl; intros changed t; [done|].
  destruct (ReduceStoreChain G u t) as [[[] t']|]; by rewrite ?IH.
Qed.

(** [ReduceStoreChains] calls [ReduceStoreChain] on the units of its
    chains, in order, and on nothing else. *)
Lemma ReduceStoreChains_from_units store_chains changed t :
  ReduceStoreChains_from G store_chains changed t =
    ReduceStoreUnits G
      (concat (map (fun chain : Node * StoreNodeSet => ChainUnits chain.2) store_chains))
      changed t.
Proof.
  revert changed t.
  induction store_chains as [|[address chain] chains IH]; intros changed t; [done|].
  cbn [ReduceStoreChains_from map concat]. rewrite ReduceStoreUnits_app.
  unfold ChainUnits at 1. cbn [snd].
  destruct ((2 <=? length chain)%nat && (length chain mod 2 =? 0)%nat).
  - destruct (ReduceStoreUnits G (StoreUnits chain) changed t) as [[c t']|]; [apply IH|done].
  - apply IH.
Qed.

Lemma ReduceGroups_units groups success t :
  ReduceGroups G groups success t =
    ReduceStoreUnits G
      (concat (map (fun entry : Node * gmap Node StoreNodeSet =>
                      concat (map (fun chain : Node * StoreNodeSet => ChainUnits chain.2)
                                  (map_to_list entry.2)))
                   groups))
      success t.
Proof.
  revert success t.
  induction groups as [|[dominator chains] groups IH]; intros success t; [done|].
  cbn [ReduceGroups map concat snd].
  rewrite ReduceStoreUnits_app. unfold ReduceStoreChains.
  rewrite ReduceStoreChains_from_units.
  rewrite (ReduceStoreUnits_changed _ success).
  destruct (ReduceStoreUnits G _ false t) as [[[] t']|]; cbn [orb]; rewrite ?IH.
  - by rewrite orb_true_r.
  - by rewrite orb_false_r.
  - done.
Qed.

(** The roots of every tree the driver builds are [SeedGroups] of the
    map [CollectSeeds] leaves. *)
Lemma TryRevectorize_roots rv :
  support_simd256_ rv = true -> GetSimdStoreNodes G <> [] ->
  TryRevectorize G rv =
    match ReduceStoreUnits G (SeedGroups (group_of_stores_ (CollectSeeds G rv))) false
                           (slp_tree_ rv) with
    | Some (success, t) =>
        Some (success,
              {| slp_tree_ := t;
                 group_of_stores_ := group_of_stores_ (CollectSeeds G rv);
                 support_simd256_ := support_simd256_ rv |})
    | None => None
    end.
Proof.
  destruct rv as [t m s]. cbn [support_simd256_]. intros -> Hn.
  unfold TryRevectorize. cbn [support_simd256_].
  rewrite (bool_decide_eq_false_2 _ Hn). cbn [andb negb].
  rewrite ReduceGroups_units. reflexivity.
Qed.

End SeedFacts.

(** C10.  A store whose input 0 is neither a [Load] or [LoadFromObject]
    nor an [Int64Add] with a constant input (no input that is an
    [Int64Constant], or no input that [IsConstant] accepts) has offset
    -1; [CollectSeeds] does not insert it into the group-of-stores map,
    and it is in none of the groups handed to [BuildTree] as roots. *)
Theorem unrecognized_store_is_no_seed (G : Graph) (node : Node) :
  opcode G (InputAt G node 0) <> kLoad ->
  opcode G (InputAt G node 0) <> kLoadFromObject ->
  (opcode G (InputAt G node 0) = kInt64Add ->
   (IsConstant G (InputAt G (InputAt G node 0) 0) = false /\
    IsConstant G (InputAt G (InputAt G node 0) 1) = false)
   \/ (opcode G (InputAt G (InputAt G node 0) 0) <> kInt64Constant /\
       opcode G (InputAt G (InputAt G node 0) 1) <> kInt64Constant)) ->
  GetMemoryOffsetValue G node = (-1)%Z /\
  Z.rem (GetMemoryOffsetValue G node) kSimd128Size <> 0%Z /\
  forall rv : Revectorizer,
    ~ InGroupOfStores (group_of_stores_ rv) node ->
    ~ InGroupOfStores (group_of_stores_ (CollectSeeds G rv)) node /\
    forall unit, unit ∈ SeedGroups (group_of_stores_ (CollectSeeds G rv)) -> node ∉ unit.
Proof.
  intros Hl Hlfo Hadd.
  assert (Hoff : GetMemoryOffsetValue G node = (-1)%Z).
  { destruct (decide (opcode G (InputAt G node 0) = kInt64Add)) as [Ha | Ha].
    - destruct (Hadd Ha) as [H | H].
      + by apply GetMemoryOffsetValue_no_constant.
      + by apply GetMemoryOffsetValue_no_Int64Constant.
    - by apply GetMemoryOffsetValue_other. }
  assert (Hrem : Z.rem (GetMemoryOffsetValue G node) kSimd128Size <> 0%Z)
    by (rewrite Hoff; discriminate).
  split; [done|]. split; [done|].
  intros rv Hnot.
  assert (Hafter : ~ InGroupOfStores (group_of_stores_ (CollectSeeds G rv)) node).
  { simpl. intros H. apply CollectSeeds_members in H as [[_ Hal] | H]; auto. }
  split; [done|].
  intros unit Hu Hx. apply Hafter. by eapply SeedGroups_members.
Qed.

(** The store #3 of [unknown_base_graph], in a fresh pass. *)
Lemma unrecognized_store_is_no_seed_witness :
  GetMemoryOffsetValue unknown_base_graph 3 = (-1)%Z /\
  ~ InGroupOfStores
      (group_of_stores_
         (CollectSeeds unknown_base_graph
            {| slp_tree_ := empty_tree; group_of_stores_ := ∅;
               support_simd256_ := true |})) 3.
Proof.
  assert (H := unrecognized_store_is_no_seed unknown_base_graph 3).
  destruct H as (Hoff & _ & Hrv).
  - vm_compute. discriminate.
  - vm_compute. discriminate.
  - vm_compute. discriminate.
  - split; [exact Hoff|].
    apply Hrv. simpl. intros (d & sn & a & set & Hd & _).
    rewrite lookup_empty in Hd. discriminate.
Defined.

(** ** Store chains *)

Lemma StoreUnits_even (n : nat) (chain : list Node) :
  length chain = (2 * n)%nat ->
  concat (StoreUnits chain) = chain /\
  Forall (fun stores_unit => length stores_unit = 2%nat) (StoreUnits chain) /\
  length (StoreUnits chain) = n.
Proof.
  revert chain. induction n as [|n IH]; intros chain Hlen.
  - destruct chain; [|discriminate]. repeat split. constructor.
  - destruct chain as [|store0 [|store1 rest]]; simpl in Hlen; try lia.
    destruct (IH rest) as (Hcat & Hall & Hn); [lia|].
    cbn [StoreUnits concat app]. rewrite Hcat.
    repeat split; [by constructor | simpl; lia].
Qed.

Lemma ChainUnits_nonempty (chain : StoreNodeSet) :
  ChainUnits chain <> [] ->
  (2 <= length chain)%nat /\ (length chain mod 2 = 0)%nat.
Proof.
  unfold ChainUnits.
  destruct (2 <=? length chain)%nat eqn:H2; [|done].
  destruct (length chain mod 2 =? 0)%nat eqn:Hev; [|done].
  intros _. split; [by apply Nat.leb_le | by apply Nat.eqb_eq].
Qed.

Lemma ChainUnits_even (chain : StoreNodeSet) :
  (2 <= length chain)%nat -> (length chain mod 2 = 0)%nat ->
  ChainUnits chain = StoreUnits chain.
Proof.
  intros H2 Hev. unfold ChainUnits.
  apply Nat.leb_le in H2. apply Nat.eqb_eq in Hev. by rewrite H2, Hev.
Qed.

(** C8.  [ReduceStoreChains] calls [ReduceStoreChain] on the units of
    its chains and on nothing else; a chain has units only when its
    size is at least 2 and even, and then its units are groups of two
    stores that, put end to end, are the chain in offset order.  A
    chain of three stores is left alone: nothing is built and the tree
    is untouched.  A chain of four stores gives two groups of two. *)
Theorem ReduceStoreChains_units (G : Graph) :
  (forall store_chains t,
     ReduceStoreChains G store_chains t =
       ReduceStoreUnits G
         (concat (map (fun chain : Node * StoreNodeSet => ChainUnits chain.2) store_chains))
         false t) /\
  (forall chain : StoreNodeSet,
     ChainUnits chain <> [] ->
     (2 <= length chain)%nat /\ (length chain mod 2 = 0)%nat) /\
  (forall chain : StoreNodeSet,
     (2 <= length chain)%nat -> (length chain mod 2 = 0)%nat ->
     concat (ChainUnits chain) = chain /\
     Forall (fun stores_unit => length stores_unit = 2%nat) (ChainUnits chain) /\
     (2 * length (ChainUnits chain) = length chain)%nat) /\
  (forall address store0 store1 store2 t,
     ReduceStoreChains G [(address, [store0; store1; store2])] t = Some (false, t)) /\
  (forall address store0 store1 store2 store3 t,
     ChainUnits [store0; store1; store2; store3]
       = [[store0; store1]; [store2; store3]] /\
     ReduceStoreChains G [(address, [store0; store1; store2; store3])] t =
       ReduceStoreUnits G [[store0; store1]; [store2; store3]] false t).
Proof.
  split; [intros; apply ReduceStoreChains_from_units|].
  split; [apply ChainUnits_nonempty|].
  split.
  - intros chain H2 Hev. rewrite (ChainUnits_even _ H2 Hev).
    destruct (StoreUnits_even (length chain / 2) chain) as (Hcat & Hall & Hn).
    + pose proof (Nat.div_mod_eq (length chain) 2). lia.
    + repeat split; [done | done |].
      rewrite Hn. pose proof (Nat.div_mod_eq (length chain) 2). lia.
  - split; [reflexivity|]. intros. split; [reflexivity|].
    unfold ReduceStoreChains. rewrite ReduceStoreChains_from_units. reflexivity.
Qed.

(** ** The dependency prober *)

Section ProberFacts.

Variable G : Graph.

Lemma remaining_cost_cons node nodes visited :
  remaining_cost G (node :: nodes) visited =
    ((if decide (node ∉ visited) then S (FirstControlIndex G node) else 0)
     + remaining_cost G nodes visited)%nat.
Proof.
  unfold remaining_cost. rewrite filter_cons.
  destruct (decide (node ∉ visited)); reflexivity.
Qed.

Lemma remaining_cost_mono nodes visited input :
  (remaining_cost G nodes ({[ input ]} ∪ visited) <= remaining_cost G nodes visited)%nat.
Proof.
  induction nodes as [|node nodes IH]; [done|].
  rewrite !remaining_cost_cons.
  destruct (decide (node ∉ {[ input ]} ∪ visited)) as [Hn | Hn];
    destruct (decide (node ∉ visited)) as [Hv | Hv]; try lia.
  exfalso. apply Hv. set_solver.
Qed.

Lemma remaining_cost_visit nodes visited input :
  input ∈ nodes -> input ∉ visited ->
  (remaining_cost G nodes ({[ input ]} ∪ visited) + S (FirstControlIndex G input)
   <= remaining_cost G nodes visited)%nat.
Proof.
  intros Hin Hv. revert Hin.
  induction nodes as [|node nodes IH]; intros Hin; [by apply elem_of_nil in Hin|].
  rewrite !remaining_cost_cons.
  destruct (decide (node = input)) as [-> | Hne].
  - rewrite (decide_True _ _ Hv).
    rewrite decide_False by (intros Hn; apply Hn; apply elem_of_union; left; by apply elem_of_singleton).
    pose proof (remaining_cost_mono nodes visited input). lia.
  - destruct (proj1 (elem_of_cons _ _ _) Hin) as [Heq | Hin']; [congruence|].
    specialize (IH Hin').
    destruct (decide (node ∉ {[ input ]} ∪ visited)) as [Hn | Hn];
      destruct (decide (node ∉ visited)) as [Hv' | Hv']; try lia.
    exfalso. apply Hv'. intros Hmem. apply Hn. apply elem_of_union. by right.
Qed.

Lemma remaining_cost_budget : (remaining_cost G (AllNodes G) ∅ < VisitBudget G)%nat.
Proof.
  unfold VisitBudget.
  assert (H : forall nodes : list Node,
             (remaining_cost G nodes ∅
              <= sum_list (map (fun node => S (FirstControlIndex G node)) nodes))%nat).
  { induction nodes as [|node nodes IH]; [done|].
    rewrite remaining_cost_cons. cbn [map sum_list sum_list_with]. unfold id in *.
    destruct (decide (node ∉ (∅ : gset Node))); lia. }
  specialize (H (AllNodes G)). lia.
Qed.

Lemma push_all_length (inputs to_visit : list Node) :
  length (fold_left (fun to_visit i => i :: to_visit) inputs to_visit)
  = (length inputs + length to_visit)%nat.
Proof.
  revert to_visit. induction inputs as [|i inputs IH]; intros to_visit; [done|].
  simpl. rewrite IH. simpl. lia.
Qed.

Lemma push_all_elem (inputs to_visit : list Node) x :
  x ∈ fold_left (fun to_visit i => i :: to_visit) inputs to_visit ->
  x ∈ inputs \/ x ∈ to_visit.
Proof.
  revert to_visit. induction inputs as [|i inputs IH]; intros to_visit; simpl; [auto|].
  intros H. apply IH in H as [H | H]; rewrite ?elem_of_cons in *; tauto.
Qed.

Lemma InputsBeforeControl_length node :
  length (InputsBeforeControl G node) = FirstControlIndex G node.
Proof. unfold InputsBeforeControl. by rewrite length_map, length_seq. Qed.

Lemma InputsBeforeControl_elem node x :
  x ∈ InputsBeforeControl G node -> exists i, x = InputAt G node i.
Proof.
  unfold InputsBeforeControl. intros H.
  apply list_elem_of_In, in_map_iff in H as (i & <- & _). by exists i.
Qed.

Lemma InitialToVisit_elem node_group x :
  x ∈ InitialToVisit G node_group ->
  exists load i, load ∈ node_group /\ x = InputAt G load i.
Proof.
  unfold InitialToVisit.
  assert (Hinner : forall load inputs to_visit,
    (forall y, y ∈ inputs -> exists i, y = InputAt G load i) ->
    x ∈ fold_left (fun to_visit input =>
                     if bool_decide (input ∈ node_group) then to_visit
                     else input :: to_visit) inputs to_visit ->
    (exists i, x = InputAt G load i) \/ x ∈ to_visit).
  { intros load inputs. induction inputs as [|y inputs IH]; intros tv Hy H; simpl in H.
    - by right.
    - apply IH in H; [|intros z Hz; apply Hy; apply elem_of_cons; by right].
      destruct H as [H | H]; [by left|].
      destruct (bool_decide (y ∈ node_group)); [by right|].
      apply elem_of_cons in H as [Heq | H]; [|by right].
      left. subst x. apply Hy. apply elem_of_cons. by left. }
  assert (Houter : forall loads to_visit,
    x ∈ fold_left
          (fun to_visit load =>
             fold_left (fun to_visit input =>
                          if bool_decide (input ∈ node_group) then to_visit
                          else input :: to_visit)
                       (InputsBeforeControl G load) to_visit)
          loads to_visit ->
    (exists load i, load ∈ loads /\ x = InputAt G load i) \/ x ∈ to_visit).
  { induction loads as [|load loads IH]; intros tv H; simpl in H.
    - by right.
    - apply IH in H as [(l & i & Hl & Hx) | H].
      + left. exists l, i. split; [apply elem_of_cons; by right | done].
      + apply (Hinner load) in H; [|apply InputsBeforeControl_elem].
        destruct H as [[i Hx] | H]; [|by right].
        left. exists load, i. split; [apply elem_of_cons; by left | done]. }
  intros H. apply Houter in H as [H | H]; [done | by apply elem_of_nil in H].
Qed.

(** The loop ends as soon as its fuel exceeds the length of the work
    list plus the cost of the nodes not yet visited. *)
Lemma VisitInputs_terminates t node0 fuel to_visit visited :
  GraphClosed G ->
  (forall x, x ∈ to_visit -> x ∈ AllNodes G) ->
  (length to_visit + remaining_cost G (AllNodes G) visited < fuel)%nat ->
  exists b, VisitInputs G t node0 fuel to_visit visited = Some b.
Proof.
  intros Hclosed. revert to_visit visited.
  induction fuel as [|fuel IH]; intros to_visit visited Hall Hfuel; [lia|].
  destruct to_visit as [|input to_visit]; simpl; [by exists true|].
  assert (Hin : input ∈ AllNodes G) by (apply Hall; by apply elem_of_cons; left).
  assert (Hrest : forall x, x ∈ to_visit -> x ∈ AllNodes G)
    by (intros x Hx; apply Hall; by apply elem_of_cons; right).
  simpl in Hfuel.
  destruct (decide (input ∈ visited)) as [Hv | Hv]; [apply IH; [done | lia]|].
  destruct (OnStack t input); [by exists false|].
  pose proof (remaining_cost_visit (AllNodes G) visited input Hin Hv) as Hcost.
  destruct (SameBasicBlock G input node0).
  - apply IH.
    + intros x Hx. apply push_all_elem in Hx as [Hx | Hx]; [|auto].
      apply InputsBeforeControl_elem in Hx as [i ->]. by apply Hclosed.
    + rewrite push_all_length, InputsBeforeControl_length. lia.
  - apply IH; [done | lia].
Qed.

(** More fuel does not change the answer. *)
Lemma VisitInputs_more_fuel t node0 fuel extra to_visit visited b :
  VisitInputs G t node0 fuel to_visit visited = Some b ->
  VisitInputs G t node0 (fuel + extra) to_visit visited = Some b.
Proof.
  revert to_visit visited.
  induction fuel as [|fuel IH]; intros to_visit visited; [done|].
  simpl. destruct to_visit as [|input to_visit]; [done|].
  destruct (decide (input ∈ visited)); [apply IH|].
  destruct (OnStack t input); [done|].
  destruct (SameBasicBlock G input node0); apply IH.
Qed.

Lemma IsSideEffectFreeLoad_total t node0 node1 :
  GraphClosed G -> node0 ∈ AllNodes G -> node1 ∈ AllNodes G ->
  exists b, IsSideEffectFreeLoad G t [node0; node1] = Some b.
Proof.
  intros Hclosed H0 H1. unfold IsSideEffectFreeLoad.
  apply VisitInputs_terminates; [done | |].
  - intros x Hx. apply InitialToVisit_elem in Hx as (load & i & Hl & ->).
    apply Hclosed. rewrite !elem_of_cons in Hl.
    destruct Hl as [-> | [-> | Hl]]; [done | done | by apply elem_of_nil in Hl].
  - pose proof remaining_cost_budget. lia.
Qed.

End ProberFacts.

(** A graph given by a table is finite when the inputs of its rows are
    rows. *)
Lemma TableGraph_closed rows ops stores max_depth :
  Forall (fun row => Forall (fun input => (input < length rows)%nat) (row_inputs row)) rows ->
  GraphClosed (TableGraph rows ops stores max_depth).
Proof.
  intros Hrows node i Hnode. simpl in *.
  apply list_elem_of_In, in_seq in Hnode.
  destruct (decide (i < length (row_inputs (nth node rows no_row)))%nat) as [Hi | Hi].
  - apply list_elem_of_In, in_seq. split; [lia|]. simpl.
    rewrite Forall_forall in Hrows.
    assert (Hrow : nth node rows no_row ∈ rows)
      by (apply list_elem_of_In, nth_In; lia).
    specialize (Hrows _ Hrow). rewrite Forall_forall in Hrows.
    apply Hrows, list_elem_of_In, nth_In. exact Hi.
  - rewrite nth_overflow by lia. apply list_elem_of_In, in_seq. lia.
Qed.

(** C7.  On a finite graph the work-list loop of [IsSideEffectFreeLoad]
    ends for every group of two of its nodes, cycles among the nodes or
    not: it returns an answer within the budget of one iteration for
    each pending entry, one for each node and one for each input of each
    node, no node being expanded twice; and any larger number of
    iterations gives the same answer. *)
Theorem IsSideEffectFreeLoad_terminates (G : Graph) (t : SLPTree) (node0 node1 : Node) :
  GraphClosed G -> node0 ∈ AllNodes G -> node1 ∈ AllNodes G ->
  exists b,
    IsSideEffectFreeLoad G t [node0; node1] = Some b /\
    forall extra,
      VisitInputs G t node0
        (length (InitialToVisit G [node0; node1]) + VisitBudget G + extra)
        (InitialToVisit G [node0; node1]) ∅ = Some b.
Proof.
  intros Hclosed H0 H1.
  destruct (IsSideEffectFreeLoad_total G t node0 node1 Hclosed H0 H1) as [b Hb].
  exists b. split; [done|].
  intros extra. by apply VisitInputs_more_fuel.
Qed.

Lemma cyclic_graph_closed : GraphClosed cyclic_graph.
Proof.
  apply TableGraph_closed. repeat constructor.
Qed.

(** The loads #4 and #5 of [cyclic_graph], whose index #2 is on a
    cycle with #3: the loop visits #2 and #3 once each and ends. *)
Lemma IsSideEffectFreeLoad_terminates_witness :
  exists b,
    IsSideEffectFreeLoad cyclic_graph empty_tree [4; 5] = Some b /\
    forall extra,
      VisitInputs cyclic_graph empty_tree 4
        (length (InitialToVisit cyclic_graph [4; 5]) + VisitBudget cyclic_graph + extra)
        (InitialToVisit cyclic_graph [4; 5]) ∅ = Some b.
Proof.
  apply (IsSideEffectFreeLoad_terminates cyclic_graph empty_tree 4 5).
  - exact cyclic_graph_closed.
  - apply list_elem_of_In. simpl. tauto.
  - apply list_elem_of_In. simpl. tauto.
Defined.

Example cyclic_graph_loads_are_free :
  IsSideEffectFreeLoad cyclic_graph empty_tree [4; 5] = Some true.
Proof. vm_compute. reflexivity. Qed.

(** ** The recursion stack and the registry *)

Lemma fold_insert_on_stack (node_group : list Node) (s : gset Node) :
  fold_left (fun s node => {[ node ]} ∪ s) node_group s = list_to_set node_group ∪ s.
Proof.
  revert s. induction node_group as [|node rest IH]; intros s; simpl.
  - set_solver.
  - rewrite IH. set_solver.
Qed.

Lemma fold_erase_on_stack (node_group : list Node) (s : gset Node) :
  fold_left (fun s node => s ∖ {[ node ]}) node_group s = s ∖ list_to_set node_group.
Proof.
  revert s. induction node_group as [|node rest IH]; intros s; simpl.
  - set_solver.
  - rewrite IH. set_solver.
Qed.

Lemma fold_register_lookup (node_group : list Node) (p : PackPtr)
    (m : gmap Node PackPtr) (x : Node) :
  fold_left (fun m node => <[node := p]> m) node_group m !! x
  = if decide (x ∈ node_group) then Some p else m !! x.
Proof.
  revert m. induction node_group as [|node rest IH]; intros m; simpl.
  - destruct (decide (x ∈ [])) as [H | H]; [by apply elem_of_nil in H | done].
  - rewrite IH.
    destruct (decide (x ∈ rest)) as [Hin | Hin];
      destruct (decide (x ∈ node :: rest)) as [Hin' | Hin']; try done.
    + exfalso. apply Hin'. by apply elem_of_cons; right.
    + apply elem_of_cons in Hin' as [-> | Hin']; [|done]. apply lookup_insert_eq.
    + rewrite lookup_insert_ne; [done|]. intros ->. apply Hin'. by apply elem_of_cons; left.
Qed.

Lemma on_stack_PushStack t node_group :
  on_stack_ (PushStack t node_group) = list_to_set node_group ∪ on_stack_ t.
Proof. apply fold_insert_on_stack. Qed.

Lemma PopStack_cons t node_group rest :
  stack_ t = node_group :: rest ->
  PopStack t = Some (set_stack t (on_stack_ t ∖ list_to_set node_group) rest).
Proof. intros H. unfold PopStack. by rewrite H, fold_erase_on_stack. Qed.

Lemma OnStack_true t node : OnStack t node = true <-> node ∈ on_stack_ t.
Proof. unfold OnStack. apply bool_decide_eq_true. Qed.

Lemma AllOnStack_true t node_group :
  AllOnStack t node_group = true <->
  exists node, node ∈ node_group /\ node ∈ on_stack_ t.
Proof.
  induction node_group as [|node rest IH]; simpl.
  - split; [done | by intros (x & Hx%elem_of_nil & _)].
  - destruct (OnStack t node) eqn:Hon.
    + split; [|done]. intros _. exists node.
      split; [by apply elem_of_cons; left | by apply OnStack_true].
    + rewrite IH. split.
      * intros (x & Hx & Hs). exists x. split; [by apply elem_of_cons; right | done].
      * intros (x & Hx & Hs). apply elem_of_cons in Hx as [-> | Hx]; [|by exists x].
        apply OnStack_true in Hs. congruence.
Qed.

Lemma AllOnStack_false t node_group :
  AllOnStack t node_group = false <->
  forall node, node ∈ node_group -> node ∉ on_stack_ t.
Proof.
  rewrite <- not_true_iff_false, AllOnStack_true. split.
  - intros H node Hin Hs. apply H. by exists node.
  - intros H (node & Hin & Hs). by apply (H node).
Qed.

Lemma FindDuplicate_None t node_group :
  FindDuplicate t node_group = None <->
  forall node, node ∈ node_group -> GetPackNode t node = None.
Proof.
  induction node_group as [|node rest IH]; simpl.
  - split; [by intros _ x Hx%elem_of_nil | done].
  - destruct (GetPackNode t node) as [p|] eqn:Hp.
    + split; [done|]. intros H. specialize (H node). rewrite Hp in H.
      apply H. by apply elem_of_cons; left.
    + rewrite IH. split.
      * intros H x Hx. apply elem_of_cons in Hx as [-> | Hx]; auto.
      * intros H x Hx. apply H. by apply elem_of_cons; right.
Qed.

Lemma FindDuplicate_Some t node_group p :
  FindDuplicate t node_group = Some p ->
  exists node, node ∈ node_group /\ GetPackNode t node = Some p.
Proof.
  induction node_group as [|node rest IH]; simpl; [done|].
  destruct (GetPackNode t node) as [q|] eqn:Hq.
  - intros [= ->]. exists node. split; [by apply elem_of_cons; left | done].
  - intros H. destruct (IH H) as (x & Hx & Hp).
    exists x. split; [by apply elem_of_cons; right | done].
Qed.

Lemma Grows_refl t : Grows t t.
Proof. split; [lia | by eauto | done]. Qed.

Lemma Grows_trans t1 t2 t3 : Grows t1 t2 -> Grows t2 t3 -> Grows t1 t3.
Proof.
  intros [L1 Z1 R1] [L2 Z2 R2]. split; [lia | | by auto].
  intros p pnode H. destruct (Z1 _ _ H) as (pn' & H' & Hn).
  destruct (Z2 _ _ H') as (pn'' & H'' & Hn'). exists pn''. split; [done | congruence].
Qed.

Lemma Grows_set_stack t s st : Grows t (set_stack t s st).
Proof. split; simpl; [lia | by eauto | done]. Qed.

Lemma Grows_IsSame t t' p node_group :
  Grows t t' -> IsSame t p node_group = true -> IsSame t' p node_group = true.
Proof.
  intros [_ Hz _]. unfold IsSame.
  destruct (zone_ t !! p) as [pnode|] eqn:Hp; [|done].
  destruct (Hz _ _ Hp) as (pnode' & Hp' & Heq). by rewrite Hp', Heq.
Qed.

Section TreeFacts.

Variable G : Graph.
Variable base : nat.

Lemma TreeInv_DeleteTree t : TreeInv G (length (zone_ t)) (DeleteTree t).
Proof.
  split; simpl.
  - intros node H. by apply not_elem_of_empty in H.
  - intros g H. by apply elem_of_nil in H.
  - done.
  - intros node p H. by rewrite lookup_empty in H.
  - intros p pnode node Hp H. apply lookup_lt_Some in H. lia.
  - intros node p H. by rewrite lookup_empty in H.
Qed.

Lemma TreeInv_PushStack t node_group :
  TreeInv G base t -> node_group <> [] -> TreeInv G base (PushStack t node_group).
Proof.
  intros [Hc Hg Hb Hr Hp Ho] Hne. split; [| |exact Hb|exact Hr|exact Hp|exact Ho].
  - intros node. rewrite on_stack_PushStack. simpl.
    rewrite elem_of_union, elem_of_list_to_set. intros [H | H].
    + exists node_group. split; [by apply elem_of_cons; left | done].
    + destruct (Hc _ H) as (g & Hgin & Hn). exists g.
      split; [by apply elem_of_cons; right | done].
  - intros g. simpl. rewrite elem_of_cons. intros [-> | H]; auto.
Qed.

Lemma TreeInv_PopStack t t' :
  TreeInv G base t -> PopStack t = Some t' -> TreeInv G base t'.
Proof.
  intros [Hc Hg Hb Hr Hp Ho]. unfold PopStack.
  destruct (stack_ t) as [|top rest] eqn:Hst; [done|].
  intros [= <-]. rewrite fold_erase_on_stack.
  split; simpl; [| |exact Hb|exact Hr|exact Hp|exact Ho].
  - intros node. rewrite elem_of_difference, elem_of_list_to_set. intros [H Hnot].
    destruct (Hc _ H) as (g & Hgin & Hn). exists g. split; [|done].
    apply elem_of_cons in Hgin as [-> | Hgin]; [done | done].
  - intros g H. apply Hg. by apply elem_of_cons; right.
Qed.

Lemma StackTopIsPhi_defined t node_group :
  TreeInv G base t -> AllOnStack t node_group = true ->
  exists b, StackTopIsPhi G t = Some b.
Proof.
  intros [Hc Hg _ _ _ _] H. apply AllOnStack_true in H as (node & _ & Hs).
  destruct (Hc _ Hs) as (g & Hgin & _). unfold StackTopIsPhi.
  destruct (stack_ t) as [|top rest]; [by apply elem_of_nil in Hgin|].
  destruct top as [|node0 top].
  - exfalso. apply (Hg []); [by apply elem_of_cons; left | done].
  - by eexists.
Qed.

Lemma NewPackNode_eq t node_group :
  NewPackNode t node_group =
    (length (zone_ t),
     {| zone_ := zone_ t ++ [ {| nodes_ := node_group; operands_ := [];
                                  revectorized_node_ := None |} ];
        root_ := root_ t; on_stack_ := on_stack_ t; stack_ := stack_ t;
        node_to_packnode_ :=
          fold_left (fun m node => <[node := length (zone_ t)]> m) node_group
                    (node_to_packnode_ t) |}).
Proof. reflexivity. Qed.

Lemma GetPackNode_NewPackNode t node_group x :
  GetPackNode (NewPackNode t node_group).2 x
  = if decide (x ∈ node_group) then Some (length (zone_ t)) else GetPackNode t x.
Proof. unfold GetPackNode. simpl. apply fold_register_lookup. Qed.

Lemma IsSame_NewPackNode t node_group :
  IsSame (NewPackNode t node_group).2 (length (zone_ t)) node_group = true.
Proof.
  unfold IsSame. simpl.
  rewrite lookup_app_r by lia. rewrite Nat.sub_diag. simpl.
  by apply bool_decide_eq_true.
Qed.

Lemma Grows_NewPackNode t node_group :
  (forall node, node ∈ node_group -> GetPackNode t node = None) ->
  Grows t (NewPackNode t node_group).2.
Proof.
  intros Hfree. split; simpl.
  - rewrite length_app. lia.
  - intros p pnode H. exists pnode. split; [|done].
    rewrite lookup_app_l; [done | by eapply lookup_lt_Some].
  - intros node p H. rewrite fold_register_lookup.
    destruct (decide (node ∈ node_group)) as [Hin | Hin]; [|done].
    specialize (Hfree _ Hin). unfold GetPackNode in Hfree. congruence.
Qed.

Lemma TreeInv_NewPackNode t node_group :
  TreeInv G base t ->
  (forall node, node ∈ node_group -> GetPackNode t node = None) ->
  (forall node, node ∈ node_group -> PackedOpcode (opcode G node) = true) ->
  TreeInv G base (NewPackNode t node_group).2.
Proof.
  intros [Hc Hg Hb Hr Hp Ho] Hfree Hop. split; simpl; [exact Hc|exact Hg| | | |].
  - rewrite length_app. lia.
  - intros node p. rewrite fold_register_lookup.
    destruct (decide (node ∈ node_group)) as [Hin | Hin].
    + intros [= <-]. split; [done|].
      exists {| nodes_ := node_group; operands_ := []; revectorized_node_ := None |}.
      split; [|exact Hin].
      rewrite lookup_app_r by lia. by rewrite Nat.sub_diag.
    + intros H. destruct (Hr _ _ H) as (Hbp & pnode & Hz & Hn).
      split; [done|]. exists pnode. split; [|done].
      rewrite lookup_app_l; [done | by eapply lookup_lt_Some].
  - intros p pnode node Hbp Hz Hn. rewrite fold_register_lookup.
    destruct (decide (p < length (zone_ t))%nat) as [Hlt | Hge].
    + rewrite lookup_app_l in Hz by done.
      pose proof (Hp _ _ _ Hbp Hz Hn) as Hreg.
      rewrite decide_False; [done|]. intros Hin.
      specialize (Hfree _ Hin). unfold GetPackNode in Hfree. congruence.
    + rewrite lookup_app_r in Hz by lia.
      destruct (p - length (zone_ t))%nat as [|k] eqn:Hk; simpl in Hz; [|done].
      injection Hz as <-. simpl in Hn. rewrite decide_True by done.
      f_equal. lia.
  - intros node p. rewrite fold_register_lookup.
    destruct (decide (node ∈ node_group)) as [Hin | Hin]; [auto | apply Ho].
Qed.

Lemma Grows_SetOperand t p index child : Grows t (SetOperand t p index child).
Proof.
  split; simpl; [by rewrite length_alter | | done].
  intros q pnode H. destruct (decide (p = q)) as [-> | Hne].
  - rewrite list_lookup_alter_eq, H. simpl. by eexists.
  - rewrite list_lookup_alter_ne by done. by eexists.
Qed.

Lemma TreeInv_SetOperand t p index child :
  TreeInv G base t -> TreeInv G base (SetOperand t p index child).
Proof.
  intros [Hc Hg Hb Hr Hp Ho]. split; simpl; [exact Hc|exact Hg| | | |exact Ho].
  - by rewrite length_alter.
  - intros node q H. destruct (Hr _ _ H) as (Hbq & pnode & Hz & Hn).
    split; [done|].
    destruct (Grows_SetOperand t p index child) as [_ Hnodes _].
    destruct (Hnodes _ _ Hz) as (pnode' & Hz' & Heq). exists pnode'.
    split; [done | by rewrite Heq].
  - intros q pnode node Hbq Hz Hn.
    destruct (decide (p = q)) as [-> | Hne].
    + rewrite list_lookup_alter_eq in Hz.
      destruct (zone_ t !! q) as [pn|] eqn:Hq; [|done].
      injection Hz as <-. simpl in Hn. by eapply Hp.
    + rewrite list_lookup_alter_ne in Hz by done. by eapply Hp.
Qed.

End TreeFacts.

(** ** The builder keeps its invariant and returns *)

Lemma CanBePacked_true (G : Graph) (node0 node1 : Node) :
  CanBePacked G [node0; node1] = true ->
  SameBasicBlock G node0 node1 = true /\ op G node1 = op G node0 /\
  AllConstant G [node0; node1] = false.
Proof.
  unfold CanBePacked.
  destruct (SameBasicBlock G node0 node1); [|done].
  destruct (AllSameOperator G [node0; node1]) eqn:Hop; [|done].
  destruct (AllConstant G [node0; node1]); [done|].
  intros _. repeat split. simpl in Hop.
  rewrite andb_true_r in Hop. by apply bool_decide_eq_true in Hop.
Qed.

Lemma same_op_same_opcode (G : Graph) (node0 node1 : Node) :
  op G node1 = op G node0 -> opcode G node1 = opcode G node0.
Proof. unfold opcode, operator. by intros ->. Qed.

Section BuilderFacts.

Variable G : Graph.
Variable base : nat.

Lemma post_fail_unpushed t node_group :
  TreeInv G base t -> BuildPost G base node_group t None t.
Proof.
  intros Hinv. split; [done | apply Grows_refl | by exists [] | done].
Qed.

Lemma post_fail_pushed t node_group :
  TreeInv G base t -> node_group <> [] ->
  BuildPost G base node_group t None (PushStack t node_group).
Proof.
  intros Hinv Hne. split.
  - by apply TreeInv_PushStack.
  - apply Grows_set_stack.
  - by exists [node_group].
  - done.
Qed.

(** [PopStack (); return r;] from a tree [u] reached after the push of
    the group. *)
Lemma PopAndReturn_post t u node_group r :
  TreeInv G base u -> Grows t u ->
  (exists pushed, stack_ u = pushed ++ node_group :: stack_ t) ->
  (forall p, r = Some p ->
     stack_ u = node_group :: stack_ t /\
     on_stack_ u ⊆ list_to_set node_group ∪ on_stack_ t /\
     IsSame u p node_group = true /\
     forall node, node ∈ node_group -> GetPackNode u node = Some p) ->
  exists u', PopAndReturn r u = Some (r, u') /\ BuildPost G base node_group t r u'.
Proof.
  intros Hinv Hgrows [pushed Hstack] Hsucc.
  assert (Htop : exists top rest, stack_ u = top :: rest /\
                   exists pushed', rest = pushed' ++ stack_ t).
  { destruct pushed as [|top pushed]; simpl in Hstack.
    - exists node_group, (stack_ t). split; [done | by exists []].
    - exists top, (pushed ++ node_group :: stack_ t). split; [done|].
      exists (pushed ++ [node_group]). by rewrite <- app_assoc. }
  destruct Htop as (top & rest & Htop & pushed' & Hrest).
  unfold PopAndReturn. rewrite (PopStack_cons _ _ _ Htop).
  eexists. split; [reflexivity|]. split.
  - eapply TreeInv_PopStack; [exact Hinv | by apply PopStack_cons].
  - eapply Grows_trans; [exact Hgrows | apply Grows_set_stack].
  - exists pushed'. exact Hrest.
  - intros p Hp. destruct (Hsucc p Hp) as (Hst & Hon & Hsame & Hreg).
    rewrite Hst in Htop. injection Htop as <- <-. simpl.
    repeat split; [set_solver | exact Hsame | exact Hreg].
Qed.

(** A leaf: [NewPackNode], [PopStack], return the new pack. *)
Lemma leaf_post t node_group :
  TreeInv G base t -> node_group <> [] ->
  FindDuplicate (PushStack t node_group) node_group = None ->
  (forall node, node ∈ node_group -> PackedOpcode (opcode G node) = true) ->
  exists t',
    (let '(pnode, u) := NewPackNode (PushStack t node_group) node_group in
     PopAndReturn (Some pnode) u) = Some (Some (length (zone_ t)), t') /\
    BuildPost G base node_group t (Some (length (zone_ t))) t'.
Proof.
  intros Hinv Hne Hfree Hop. rewrite FindDuplicate_None in Hfree.
  rewrite NewPackNode_eq.
  change (length (zone_ (PushStack t node_group))) with (length (zone_ t)).
  apply (PopAndReturn_post t (NewPackNode (PushStack t node_group) node_group).2).
  - apply TreeInv_NewPackNode; [by apply TreeInv_PushStack | done | done].
  - eapply Grows_trans; [apply Grows_set_stack | by apply Grows_NewPackNode].
  - by exists [].
  - intros p [= <-]. split; [done|]. split; [by rewrite <- on_stack_PushStack|].
    split; [apply (IsSame_NewPackNode (PushStack t node_group))|].
    intros node Hin.
    rewrite (GetPackNode_NewPackNode (PushStack t node_group)).
    by rewrite decide_True.
Qed.

Hypothesis Hclosed : GraphClosed G.

Lemma RecurseOperands_post rec pnode node_group indices depth :
  RecSpec G base rec (depth + 1) ->
  (forall node, node ∈ node_group -> node ∈ AllNodes G) ->
  length node_group = 2%nat ->
  forall u, TreeInv G base u ->
  exists r u',
    RecurseOperands G rec pnode node_group indices depth u = Some (r, u') /\
    TreeInv G base u' /\ Grows u u' /\
    (exists pushed, stack_ u' = pushed ++ stack_ u) /\
    (forall p, r = Some p ->
       p = pnode /\ stack_ u' = stack_ u /\ on_stack_ u' ⊆ on_stack_ u).
Proof.
  intros Hrec Hall Hlen.
  induction indices as [|i indices IH]; intros u Hinv; cbn [RecurseOperands].
  - exists (Some pnode), u. split; [done|]. split; [done|].
    split; [apply Grows_refl|]. split; [by exists []|]. by intros p [= <-].
  - destruct (Hrec (map (fun node => GetValueInput G node i) node_group) u)
      as (r & u1 & Hcall & Hpost).
    + done.
    + intros x Hx. apply list_elem_of_In, in_map_iff in Hx as (node & <- & Hnode).
      apply Hclosed, Hall. by apply list_elem_of_In.
    + by rewrite length_map.
    + rewrite Hcall. destruct Hpost as [Hinv1 Hgrows1 Hstack1 Hsucc1].
      destruct r as [child|].
      * destruct (Hsucc1 child eq_refl) as (Hst & Hon & _).
        destruct (IH (SetOperand u1 pnode i child)) as (r & u2 & Hloop & Hinv2 & Hg2 & Hs2 & Hsucc2);
          [by apply TreeInv_SetOperand|].
        exists r, u2. split; [done|]. split; [done|]. split.
        { eapply Grows_trans; [exact Hgrows1|].
          eapply Grows_trans; [apply Grows_SetOperand | exact Hg2]. }
        split.
        { destruct Hs2 as [pushed Hs2]. exists pushed.
          rewrite Hs2. simpl. by rewrite Hst. }
        intros p Hp. destruct (Hsucc2 p Hp) as (-> & Hst2 & Hon2).
        split; [done|]. split; [by rewrite Hst2; simpl|].
        simpl in Hon2. set_solver.
      * exists None, u1. split; [done|]. split; [done|]. split; [done|].
        split; [done|]. done.
Qed.

(** An inner node: [NewPackNodeAndRecurs], [PopStack], return the pack
    or [nullptr]. *)
Lemma recurse_post rec t node_group start_index count depth :
  RecSpec G base rec (depth + 1) ->
  TreeInv G base t ->
  (forall node, node ∈ node_group -> node ∈ AllNodes G) ->
  length node_group = 2%nat ->
  FindDuplicate (PushStack t node_group) node_group = None ->
  (forall node, node ∈ node_group -> PackedOpcode (opcode G node) = true) ->
  exists r t',
    RecurseThenPop
      (NewPackNodeAndRecurs G rec node_group start_index count depth
                            (PushStack t node_group)) = Some (r, t') /\
    BuildPost G base node_group t r t'.
Proof.
  intros Hrec Hinv Hall Hlen Hfree Hop.
  assert (Hne : node_group <> []) by (by destruct node_group).
  rewrite FindDuplicate_None in Hfree.
  unfold NewPackNodeAndRecurs.
  destruct (NewPackNode (PushStack t node_group) node_group) as [pnode t2] eqn:Hnew.
  assert (Hpnode : pnode = length (zone_ t))
    by (rewrite NewPackNode_eq in Hnew; by injection Hnew).
  assert (Ht2 : t2 = (NewPackNode (PushStack t node_group) node_group).2)
    by (by rewrite Hnew).
  subst pnode.
  assert (Hinv2 : TreeInv G base t2)
    by (rewrite Ht2; apply TreeInv_NewPackNode; [by apply TreeInv_PushStack | done | done]).
  assert (Hgrows2 : Grows t t2)
    by (rewrite Ht2; eapply Grows_trans;
        [apply Grows_set_stack | by apply Grows_NewPackNode]).
  destruct (RecurseOperands_post rec (length (zone_ t)) node_group
              (seq start_index count) depth Hrec Hall Hlen t2 Hinv2)
    as (r & u & Hloop & Hinvu & Hgrowsu & [pushed Hstacku] & Hsuccu).
  rewrite Hloop. cbn [RecurseThenPop].
  assert (Hstack2 : stack_ t2 = node_group :: stack_ t) by (by rewrite Ht2).
  assert (Hon2 : on_stack_ t2 = list_to_set node_group ∪ on_stack_ t)
    by (rewrite Ht2; apply on_stack_PushStack).
  destruct (PopAndReturn_post t u node_group r) as (u' & Hpop & Hpost).
  - done.
  - eapply Grows_trans; [exact Hgrows2 | exact Hgrowsu].
  - exists pushed. by rewrite Hstacku, Hstack2.
  - intros p Hp. destruct (Hsuccu p Hp) as (-> & Hst & Hon).
    split; [by rewrite Hst|]. split; [by rewrite <- Hon2|].
    split.
    + eapply Grows_IsSame; [exact Hgrowsu|]. rewrite Ht2.
      apply (IsSame_NewPackNode (PushStack t node_group)).
    + intros node Hin. apply (grows_registry _ _ Hgrowsu). rewrite Ht2.
      pose proof (GetPackNode_NewPackNode (PushStack t node_group) node_group node) as Hreg.
      rewrite decide_True in Hreg by done. exact Hreg.
  - by exists r, u'.
Qed.

End BuilderFacts.

Section BuildTreeRecFacts.

Variable G : Graph.
Variable base : nat.
Hypothesis Hclosed : GraphClosed G.

(** Every call of [BuildTreeRec] at a depth within the cap, with a unit
    of fuel for each depth left, returns, and establishes [BuildPost]. *)
Lemma BuildTreeRec_post fuel :
  forall node_group depth t,
    (depth <= RecursionMaxDepth G)%nat ->
    (RecursionMaxDepth G - depth < fuel)%nat ->
    TreeInv G base t ->
    (forall node, node ∈ node_group -> node ∈ AllNodes G) ->
    length node_group = 2%nat ->
    exists r t', BuildTreeRec G fuel node_group depth t = Some (r, t') /\
                 BuildPost G base node_group t r t'.
Proof.
  induction fuel as [|fuel IH]; intros node_group depth t Hdepth Hfuel Hinv Hall Hlen; [lia|].
  destruct node_group as [|node0 [|node1 [|]]]; try discriminate Hlen.
  assert (Hne : [node0; node1] <> []) by done.
  cbn [BuildTreeRec].
  destruct (decide (depth = RecursionMaxDepth G)) as [Hcap | Hcap].
  { exists None, t. split; [done | by apply post_fail_unpushed]. }
  assert (Hrec : RecSpec G base (BuildTreeRec G fuel) (depth + 1)).
  { intros g u Hu Hg Hl. apply IH; [lia | lia | done | done | done]. }
  assert (Hcycle :
    (if AllOnStack t [node0; node1] then negb <$> StackTopIsPhi G t else Some false) <> None).
  { destruct (AllOnStack t [node0; node1]) eqn:Hon; [|done].
    destruct (StackTopIsPhi_defined G base t _ Hinv Hon) as [b ->]. done. }
  destruct (if AllOnStack t [node0; node1] then negb <$> StackTopIsPhi G t else Some false)
    as [[|]|]; [| |done].
  { exists None, t. split; [done | by apply post_fail_unpushed]. }
  clear Hcycle.
  pose proof (post_fail_pushed G base t [node0; node1] Hinv Hne) as Hfail.
  destruct (CanBePacked G [node0; node1]) eqn:Hcan; cbn [negb];
    [|by exists None, (PushStack t [node0; node1])].
  destruct (CanBePacked_true _ _ _ Hcan) as (_ & Hsame & _).
  apply same_op_same_opcode in Hsame.
  assert (Hpacked : PackedOpcode (opcode G node0) = true ->
            forall node, node ∈ [node0; node1] -> PackedOpcode (opcode G node) = true).
  { intros H node. rewrite !elem_of_cons.
    intros [-> | [-> | Hn]]; [done | by rewrite Hsame | by apply elem_of_nil in Hn]. }
  destruct (FindDuplicate (PushStack t [node0; node1]) [node0; node1]) as [p|] eqn:Hdup.
  { destruct (IsSame (PushStack t [node0; node1]) p [node0; node1]) eqn:Hp; cbn [negb];
      [|by exists None, (PushStack t [node0; node1])].
    destruct (PopAndReturn_post G base t (PushStack t [node0; node1]) [node0; node1] (Some p))
      as (u' & Hpop & Hpost).
    - by apply TreeInv_PushStack.
    - apply Grows_set_stack.
    - by exists [].
    - intros q [= <-]. split; [done|]. split; [by rewrite on_stack_PushStack|].
      split; [done|].
      apply FindDuplicate_Some in Hdup as (x & Hx & Hreg).
      pose proof (TreeInv_PushStack G base t _ Hinv Hne) as Hinv1.
      destruct (inv_registered _ _ _ Hinv1 _ _ Hreg) as (Hbase & pnode & Hz & _).
      unfold IsSame in Hp. rewrite Hz in Hp. apply bool_decide_eq_true in Hp.
      intros node Hnode. apply (inv_packs _ _ _ Hinv1 p pnode); [done | done |].
      by rewrite Hp.
    - by exists (Some p), u'. }
  destruct (decide (opcode G node0 = kExtractF128)) as [Hextract | Hextract].
  { destruct (bool_decide (InputAt G node0 0 = InputAt G node1 0) && _);
      [|by exists None, (PushStack t [node0; node1])].
    destruct (leaf_post G base t [node0; node1] Hinv Hne Hdup) as (t' & Hleaf & Hpost).
    - apply Hpacked. by rewrite Hextract.
    - by exists (Some (length (zone_ t))), t'. }
  destruct (bool_decide (opcode G node0 = kProtectedLoad)
            || bool_decide (opcode G node0 = kLoadTransform)) eqn:Hload.
  { destruct (negb (AllSameAddress G [node0; node1]));
      [by exists None, (PushStack t [node0; node1])|].
    destruct (bool_decide (opcode G node0 = kProtectedLoad) && _);
      [by exists None, (PushStack t [node0; node1])|].
    destruct (bool_decide (opcode G node0 = kLoadTransform) && _);
      [by exists None, (PushStack t [node0; node1])|].
    destruct (IsSideEffectFreeLoad_total G (PushStack t [node0; node1]) node0 node1)
      as [b Hb]; [done | apply Hall; set_solver | apply Hall; set_solver |].
    rewrite Hb. destruct b; [|by exists None, (PushStack t [node0; node1])].
    destruct (leaf_post G base t [node0; node1] Hinv Hne Hdup) as (t' & Hleaf & Hpost).
    - apply Hpacked. apply orb_true_iff in Hload as [H | H];
        apply bool_decide_eq_true in H; by rewrite H.
    - by exists (Some (length (zone_ t))), t'. }
  destruct (opcode G node0) eqn:Hop;
    try (by exists None, (PushStack t [node0; node1]));
    repeat match goal with
    | |- context [if negb ?c then _ else _] =>
        destruct c; cbn [negb]; [|by exists None, (PushStack t [node0; node1])]
    end;
    try (by exists None, (PushStack t [node0; node1]));
    (apply recurse_post; [done | done | done | done | done | done | by apply Hpacked]).
Qed.

End BuildTreeRecFacts.

(** ** [BuildTree] *)

Lemma BuildTree_post (G : Graph) (roots : list Node) (t : SLPTree) :
  GraphClosed G ->
  length roots = 2%nat ->
  (forall node, node ∈ roots -> node ∈ AllNodes G) ->
  exists r t',
    BuildTree G roots t = Some (r, set_root t' r) /\
    BuildPost G (length (zone_ t)) roots (DeleteTree t) r t'.
Proof.
  intros Hclosed Hlen Hall. unfold BuildTree.
  destruct (BuildTreeRec_post G (length (zone_ t)) Hclosed (S (RecursionMaxDepth G))
              roots 0%nat (DeleteTree t)) as (r & t' & Hrun & Hpost);
    [lia | lia | apply TreeInv_DeleteTree | done | done |].
  rewrite Hrun. by exists r, t'.
Qed.

(** C1, as the code has it.  A call of [BuildTree] on two nodes of a
    finite graph returns; when it returns a root pack, the recursion
    stack and the on-stack set are empty.  What an earlier call left on
    the stack has no effect on the call. *)
Theorem BuildTree_success_leaves_stack_empty (G : Graph) (roots : list Node) (t : SLPTree) :
  GraphClosed G ->
  length roots = 2%nat ->
  (forall node, node ∈ roots -> node ∈ AllNodes G) ->
  (exists r t',
     BuildTree G roots t = Some (r, t') /\
     forall root, r = Some root -> on_stack_ t' = ∅ /\ stack_ t' = []) /\
  (forall on_stack stack,
     BuildTree G roots (set_stack t on_stack stack) = BuildTree G roots t).
Proof.
  intros Hclosed Hlen Hall. split; [|done].
  destruct (BuildTree_post G roots t Hclosed Hlen Hall) as (r & t' & Hrun & Hpost).
  exists r, (set_root t' r). split; [done|].
  intros root Hroot. destruct (post_success _ _ _ _ _ _ Hpost root Hroot) as (Hst & Hon & _).
  simpl in *. split; [set_solver | done].
Qed.

Lemma stores_graph_closed : GraphClosed stores_graph.
Proof. apply TableGraph_closed. repeat constructor. Qed.

(** The adjacent stores #8 and #9 of [stores_graph]. *)
Lemma BuildTree_success_leaves_stack_empty_witness :
  (exists r t',
     BuildTree stores_graph [8; 9] empty_tree = Some (r, t') /\
     forall root, r = Some root -> on_stack_ t' = ∅ /\ stack_ t' = []) /\
  (forall on_stack stack,
     BuildTree stores_graph [8; 9] (set_stack empty_tree on_stack stack)
     = BuildTree stores_graph [8; 9] empty_tree).
Proof.
  apply (BuildTree_success_leaves_stack_empty stores_graph [8; 9] empty_tree).
  - exact stores_graph_closed.
  - reflexivity.
  - intros node Hnode. apply list_elem_of_In. apply list_elem_of_In in Hnode.
    simpl in *. intuition lia.
Defined.

(** C1 fails as stated: [BuildTree] on the stores #8 and #9 of
    [split_stores_graph], which are in two basic blocks, returns no
    pack and leaves the group on the stack and its nodes in the
    on-stack set. *)
Lemma BuildTree_failure_leaves_group_on_stack :
  exists t',
    BuildTree split_stores_graph [8; 9] empty_tree = Some (None, t') /\
    stack_ t' = [[8; 9]] /\ on_stack_ t' = {[ 8; 9 ]} /\ on_stack_ t' <> ∅.
Proof.
  eexists. split; [vm_compute; reflexivity|].
  split; [reflexivity|]. split.
  - apply set_eq. intros x. cbn. set_solver.
  - intros H. assert (H8 : 8 ∈ (∅ : gset nat)); [|set_solver].
    rewrite <- H. cbn. set_solver.
Qed.

(** ** Groups the builder refuses *)

Lemma Load_group_fails (G : Graph) (base fuel depth : nat) (t : SLPTree)
    (node0 node1 : Node) :
  TreeInv G base t ->
  opcode G node0 = kLoad -> opcode G node1 = kLoad ->
  exists t', BuildTreeRec G (S fuel) [node0; node1] depth t = Some (None, t') /\
             zone_ t' = zone_ t /\ node_to_packnode_ t' = node_to_packnode_ t.
Proof.
  intros Hinv Hop0 Hop1. cbn [BuildTreeRec].
  destruct (decide (depth = RecursionMaxDepth G)); [by exists t|].
  assert (Hcycle :
    (if AllOnStack t [node0; node1] then negb <$> StackTopIsPhi G t else Some false) <> None).
  { destruct (AllOnStack t [node0; node1]) eqn:Hon; [|done].
    destruct (StackTopIsPhi_defined G base t _ Hinv Hon) as [b ->]. done. }
  destruct (if AllOnStack t [node0; node1] then negb <$> StackTopIsPhi G t else Some false)
    as [[|]|]; [by exists t | | done].
  destruct (negb (CanBePacked G [node0; node1])); [by eexists|].
  destruct (FindDuplicate (PushStack t [node0; node1]) [node0; node1]) as [p|] eqn:Hdup.
  - exfalso.
    assert (Hinv1 : TreeInv G base (PushStack t [node0; node1]))
      by (by apply TreeInv_PushStack).
    apply FindDuplicate_Some in Hdup as (x & Hx & Hreg).
    pose proof (inv_opcodes _ _ _ Hinv1 _ _ Hreg) as Hpacked.
    rewrite !elem_of_cons in Hx.
    destruct Hx as [-> | [-> | Hx]]; [| | by apply elem_of_nil in Hx].
    + by rewrite Hop0 in Hpacked.
    + by rewrite Hop1 in Hpacked.
  - rewrite decide_False by (by rewrite Hop0).
    rewrite Hop0. cbn. by eexists.
Qed.

(** C9.  A call of [BuildTreeRec] on two [Load] nodes returns no pack,
    and allocates and registers nothing, in every tree that satisfies
    the invariant of the builder, which are the trees [BuildTreeRec] is
    called in (the tree [DeleteTree] leaves satisfies it and every call
    keeps it: [TreeInv_DeleteTree], [BuildTreeRec_post]): no pack holds
    a [Load], so that the duplicate check returns none, and the
    dispatch has no case for the opcode.  In particular [BuildTree] on
    two [Load] roots returns no pack. *)
Theorem BuildTreeRec_Load_fails (G : Graph) (node0 node1 : Node) :
  opcode G node0 = kLoad -> opcode G node1 = kLoad ->
  (forall base fuel depth t,
     TreeInv G base t ->
     exists t', BuildTreeRec G (S fuel) [node0; node1] depth t = Some (None, t') /\
                zone_ t' = zone_ t /\ node_to_packnode_ t' = node_to_packnode_ t) /\
  (forall t, exists t', BuildTree G [node0; node1] t = Some (None, t')).
Proof.
  intros Hop0 Hop1. split.
  - intros base fuel depth t Hinv. by apply (Load_group_fails G base).
  - intros t. unfold BuildTree.
    destruct (Load_group_fails G (length (zone_ t)) (RecursionMaxDepth G) 0
                (DeleteTree t) node0 node1) as (t' & -> & _);
      [apply TreeInv_DeleteTree | done | done |].
    by eexists.
Qed.

(** The [Load] nodes #0 and #1 of [plain_loads_graph]. *)
Lemma BuildTreeRec_Load_fails_witness :
  (forall base fuel depth t,
     TreeInv plain_loads_graph base t ->
     exists t', BuildTreeRec plain_loads_graph (S fuel) [0; 1] depth t = Some (None, t') /\
                zone_ t' = zone_ t /\ node_to_packnode_ t' = node_to_packnode_ t) /\
  (forall t, exists t', BuildTree plain_loads_graph [0; 1] t = Some (None, t')).
Proof.
  apply (BuildTreeRec_Load_fails plain_loads_graph 0 1).
  - reflexivity.
  - reflexivity.
Defined.

Example plain_loads_graph_builds_nothing :
  BuildTree plain_loads_graph [0; 1] empty_tree
  = Some (None, PushStack (DeleteTree empty_tree) [0; 1]).
Proof. reflexivity. Qed.

(** ** The registry and the diamond merge *)

Lemma PreflightPasses_cycle (G : Graph) (node_group : list Node) (depth : nat) (t : SLPTree) :
  PreflightPasses G node_group depth t ->
  (if AllOnStack t node_group then negb <$> StackTopIsPhi G t else Some false) = Some false.
Proof.
  intros (_ & [Hoff | Hphi] & _).
  - by rewrite Hoff.
  - rewrite Hphi. by destruct (AllOnStack t node_group).
Qed.

(** C4, as the code has it.  After a call of [BuildTree] on two nodes
    of a finite graph, each node of each pack made during the call is
    registered to that pack, so that no node is in two of these packs,
    and the registry holds nothing else.  In a tree that satisfies the invariant of the
    builder, a call of [BuildTreeRec] on a group one of whose nodes is
    registered returns the registered pack itself, allocating and
    registering nothing, when the pack matches the group element-wise
    and the depth cap, the cycle policy and [CanBePacked] let the group
    through; it returns no pack when the pack does not match. *)
Theorem registry_unique_and_diamond_merge (G : Graph) (Hclosed : GraphClosed G) :
  (forall roots t,
     length roots = 2%nat ->
     (forall node, node ∈ roots -> node ∈ AllNodes G) ->
     exists r t',
       BuildTree G roots t = Some (r, t') /\
       (forall p pnode node,
          (length (zone_ t) <= p)%nat -> zone_ t' !! p = Some pnode ->
          node ∈ nodes_ pnode -> GetPackNode t' node = Some p) /\
       (forall p q pnode qnode node,
          (length (zone_ t) <= p)%nat -> (length (zone_ t) <= q)%nat ->
          zone_ t' !! p = Some pnode -> zone_ t' !! q = Some qnode ->
          node ∈ nodes_ pnode -> node ∈ nodes_ qnode -> p = q) /\
       (forall node p,
          GetPackNode t' node = Some p ->
          (length (zone_ t) <= p)%nat /\
          exists pnode, zone_ t' !! p = Some pnode /\ node ∈ nodes_ pnode)) /\
  (forall base fuel depth t node0 node1 node p,
     TreeInv G base t ->
     node ∈ [node0; node1] -> GetPackNode t node = Some p ->
     (IsSame t p [node0; node1] = true ->
      PreflightPasses G [node0; node1] depth t ->
      exists t',
        BuildTreeRec G (S fuel) [node0; node1] depth t = Some (Some p, t') /\
        zone_ t' = zone_ t /\ node_to_packnode_ t' = node_to_packnode_ t /\
        stack_ t' = stack_ t) /\
     (IsSame t p [node0; node1] = false ->
      exists t',
        BuildTreeRec G (S fuel) [node0; node1] depth t = Some (None, t') /\
        zone_ t' = zone_ t /\ node_to_packnode_ t' = node_to_packnode_ t)).
Proof.
  split.
  - intros roots t Hlen Hall.
    destruct (BuildTree_post G roots t Hclosed Hlen Hall) as (r & t' & Hrun & Hpost).
    exists r, (set_root t' r). split; [done|].
    destruct (post_inv _ _ _ _ _ _ Hpost) as [_ _ _ Hreg Hpacks _].
    split; [exact Hpacks|]. split; [|exact Hreg].
    intros p q pnode qnode node Hp Hq Hzp Hzq Hnp Hnq. simpl in *.
    pose proof (Hpacks _ _ _ Hp Hzp Hnp) as H1.
    pose proof (Hpacks _ _ _ Hq Hzq Hnq) as H2. congruence.
  - intros base fuel depth t node0 node1 node p Hinv Hnode Hreg.
    assert (Hne : [node0; node1] <> []) by done.
    pose proof (TreeInv_PushStack G base t _ Hinv Hne) as Hinv1.
    assert (Hdup : exists q node',
               node' ∈ [node0; node1] /\ GetPackNode t node' = Some q /\
               FindDuplicate (PushStack t [node0; node1]) [node0; node1] = Some q).
    { destruct (FindDuplicate (PushStack t [node0; node1]) [node0; node1]) as [q|] eqn:Hq.
      - apply FindDuplicate_Some in Hq as (node' & Hin & Hq). by exists q, node'.
      - rewrite FindDuplicate_None in Hq. specialize (Hq _ Hnode).
        unfold GetPackNode in *. simpl in Hq. congruence. }
    destruct Hdup as (q & node' & Hnode' & Hregq & Hdup).
    assert (Hmatch : IsSame t q [node0; node1] = true -> q = p).
    { unfold IsSame. intros Hq.
      destruct (inv_registered _ _ _ Hinv _ _ Hregq) as (Hbase & qnode & Hz & _).
      rewrite Hz in Hq. apply bool_decide_eq_true in Hq.
      pose proof (inv_packs _ _ _ Hinv q qnode node Hbase Hz) as H.
      rewrite Hq in H. specialize (H Hnode). unfold GetPackNode in Hreg. congruence. }
    split.
    + intros Hsame Hpre. cbn [BuildTreeRec].
      pose proof (PreflightPasses_cycle _ _ _ _ Hpre) as Hcycle.
      destruct Hpre as (Hcap & _ & Hcan).
      rewrite decide_False by done. rewrite Hcycle, Hcan. cbn [negb].
      assert (q = p) as ->.
      { destruct (inv_registered _ _ _ Hinv _ _ Hreg) as (Hbase & pnode & Hz & _).
        unfold IsSame in Hsame. rewrite Hz in Hsame. apply bool_decide_eq_true in Hsame.
        pose proof (inv_packs _ _ _ Hinv p pnode node' Hbase Hz) as H.
        rewrite Hsame in H. specialize (H Hnode'). unfold GetPackNode in Hregq. congruence. }
      rewrite Hdup.
      change (IsSame (PushStack t [node0; node1]) p [node0; node1])
        with (IsSame t p [node0; node1]).
      rewrite Hsame. cbn [negb]. unfold PopAndReturn.
      rewrite (PopStack_cons _ [node0; node1] (stack_ t)) by done.
      eexists. split; [reflexivity|]. done.
    + intros Hsame. cbn [BuildTreeRec].
      destruct (decide (depth = RecursionMaxDepth G)); [by exists t|].
      assert (Hcycle :
        (if AllOnStack t [node0; node1] then negb <$> StackTopIsPhi G t else Some false)
        <> None).
      { destruct (AllOnStack t [node0; node1]) eqn:Hon; [|done].
        destruct (StackTopIsPhi_defined G base t _ Hinv Hon) as [b ->]. done. }
      destruct (if AllOnStack t [node0; node1] then negb <$> StackTopIsPhi G t
                else Some false) as [[|]|]; [by exists t | | done].
      destruct (negb (CanBePacked G [node0; node1])); [by eexists|].
      rewrite Hdup.
      change (IsSame (PushStack t [node0; node1]) q [node0; node1])
        with (IsSame t q [node0; node1]).
      destruct (IsSame t q [node0; node1]) eqn:Hq; cbn [negb]; [|by eexists].
      specialize (Hmatch eq_refl). subst q. congruence.
Qed.

(** The loads #4 and #5 of [stores_graph], met again once their pack
    is made. *)
Lemma registry_unique_and_diamond_merge_witness :
  let t := (NewPackNode (DeleteTree empty_tree) [4; 5]).2 in
  exists t',
    BuildTreeRec stores_graph 1 [4; 5] 0 t = Some (Some 0, t') /\
    zone_ t' = zone_ t /\ node_to_packnode_ t' = node_to_packnode_ t /\
    stack_ t' = stack_ t.
Proof.
  intros t.
  destruct (registry_unique_and_diamond_merge stores_graph stores_graph_closed)
    as [_ Hmerge].
  destruct (Hmerge 0 0 0 t 4 5 4 0)%nat as [Hmatch _].
  - apply (TreeInv_NewPackNode stores_graph 0 (DeleteTree empty_tree) [4; 5]).
    + apply (TreeInv_DeleteTree stores_graph empty_tree).
    + intros node _. reflexivity.
    + intros node Hnode. rewrite !elem_of_cons in Hnode.
      destruct Hnode as [-> | [-> | Hnode]];
        [reflexivity | reflexivity | by apply elem_of_nil in Hnode].
  - apply elem_of_cons. by left.
  - reflexivity.
  - apply Hmatch; [reflexivity|].
    split; [discriminate|]. split; [left; reflexivity | reflexivity].
Defined.

(** In [BuildTree] on the stores of [stores_graph] the loads #4 and #5
    are met twice, as the two operands of the sums #6 and #7: both
    operand slots of the pack of the sums hold the one pack of the
    loads. *)
Example stores_graph_diamond :
  exists t',
    BuildTree stores_graph [8; 9] empty_tree = Some (Some 0, t') /\
    (operands_ <$> zone_ t' !! 1) = Some [Some 2; Some 2] /\
    (nodes_ <$> zone_ t' !! 2) = Some [4; 5] /\
    length (zone_ t') = 3%nat.
Proof. eexists. split; [vm_compute; reflexivity|]. repeat split. Qed.

(** ** Leaf packs of loads *)

Lemma wrap64_eq_kSimd128Size (z : Z) :
  (0 <= z < 2 ^ 64)%Z -> wrap64 z = kSimd128Size <-> z = 16%Z.
Proof.
  intros Hz. unfold wrap64, kSimd128Size.
  change (2 ^ 63)%Z with 9223372036854775808%Z in *.
  change (2 ^ 64)%Z with 18446744073709551616%Z in *.
  split; intros H; [|subst z; reflexivity].
  Z.div_mod_to_equations. lia.
Qed.

Lemma SortByOffset_pair (G : Graph) (node0 node1 : Node) :
  SortByOffset G [node0; node1] =
    if MemoryOffsetComparer G node0 node1 then [node0; node1] else [node1; node0].
Proof. reflexivity. Qed.

Lemma IsContinuousAccess_sorted_pair (G : Graph) (node0 node1 : Node) :
  in_int64 (GetMemoryOffsetValue G node0) ->
  in_int64 (GetMemoryOffsetValue G node1) ->
  IsContinuousAccess G (SortByOffset G [node0; node1]) = true <->
  (Z.max (GetMemoryOffsetValue G node0) (GetMemoryOffsetValue G node1)
   - Z.min (GetMemoryOffsetValue G node0) (GetMemoryOffsetValue G node1) = 16)%Z.
Proof.
  unfold in_int64. intros H0 H1. rewrite SortByOffset_pair. unfold MemoryOffsetComparer.
  change (2 ^ 63)%Z with 9223372036854775808%Z in *.
  destruct (Z.ltb_spec (GetMemoryOffsetValue G node0) (GetMemoryOffsetValue G node1));
    cbn [IsContinuousAccess IsContinuousAccess_from].
  - destruct (decide (wrap64 (GetMemoryOffsetValue G node1 - GetMemoryOffsetValue G node0)
                      = kSimd128Size)) as [Hw | Hw];
      rewrite wrap64_eq_kSimd128Size in Hw
        by (change (2 ^ 64)%Z with 18446744073709551616%Z; lia);
      split; intros; try done; lia.
  - destruct (decide (wrap64 (GetMemoryOffsetValue G node0 - GetMemoryOffsetValue G node1)
                      = kSimd128Size)) as [Hw | Hw];
      rewrite wrap64_eq_kSimd128Size in Hw
        by (change (2 ^ 64)%Z with 18446744073709551616%Z; lia);
      split; intros; try done; lia.
Qed.

(** C5, as the code has it.  For two [ProtectedLoad] nodes of a finite
    graph that the preflight lets through (depth cap, cycle policy,
    [CanBePacked]) and that have no pack yet, [BuildTreeRec] makes a leaf pack of the
    group if the two nodes have the same address node, the
    representation is [kSimd128], the larger offset is the smaller one
    plus 16, and [IsSideEffectFreeLoad], run with the group on the
    stack, answers true; if one of the four fails it returns no pack
    and allocates and registers nothing. *)
Theorem ProtectedLoad_leaf_pack (G : Graph) (fuel depth : nat) (t : SLPTree)
    (node0 node1 : Node) :
  GraphClosed G -> node0 ∈ AllNodes G -> node1 ∈ AllNodes G ->
  opcode G node0 = kProtectedLoad -> opcode G node1 = kProtectedLoad ->
  PreflightPasses G [node0; node1] depth t ->
  GetPackNode t node0 = None -> GetPackNode t node1 = None ->
  in_int64 (GetMemoryOffsetValue G node0) ->
  in_int64 (GetMemoryOffsetValue G node1) ->
  let conditions :=
    GetNodeAddress G node0 = GetNodeAddress G node1 /\
    representation (operator G node0) = kSimd128 /\
    (Z.max (GetMemoryOffsetValue G node0) (GetMemoryOffsetValue G node1)
     - Z.min (GetMemoryOffsetValue G node0) (GetMemoryOffsetValue G node1) = 16)%Z /\
    IsSideEffectFreeLoad G (PushStack t [node0; node1]) [node0; node1] = Some true in
  (conditions ->
   exists t',
     BuildTreeRec G (S fuel) [node0; node1] depth t = Some (Some (length (zone_ t)), t') /\
     zone_ t' = zone_ t ++ [ {| nodes_ := [node0; node1]; operands_ := [];
                                revectorized_node_ := None |} ] /\
     GetPackNode t' node0 = Some (length (zone_ t)) /\
     GetPackNode t' node1 = Some (length (zone_ t)) /\
     stack_ t' = stack_ t) /\
  (~ conditions ->
   exists t',
     BuildTreeRec G (S fuel) [node0; node1] depth t = Some (None, t') /\
     zone_ t' = zone_ t /\ node_to_packnode_ t' = node_to_packnode_ t).
Proof.
  intros Hclosed Hin0 Hin1 Hop0 Hop1 Hpre Hfree0 Hfree1 Hoff0 Hoff1 conditions.
  pose proof (PreflightPasses_cycle _ _ _ _ Hpre) as Hcycle.
  destruct Hpre as (Hcap & _ & Hcan).
  assert (Hdup : FindDuplicate (PushStack t [node0; node1]) [node0; node1] = None).
  { apply FindDuplicate_None. intros node. rewrite !elem_of_cons.
    intros [-> | [-> | H]]; [done | done | by apply elem_of_nil in H]. }
  assert (Hrun : BuildTreeRec G (S fuel) [node0; node1] depth t =
    if negb (AllSameAddress G [node0; node1]) then Some (None, PushStack t [node0; node1])
    else if negb (bool_decide (representation (operator G node0) = kSimd128))
            || negb (IsContinuousAccess G (SortByOffset G [node0; node1]))
    then Some (None, PushStack t [node0; node1])
    else match IsSideEffectFreeLoad G (PushStack t [node0; node1]) [node0; node1] with
         | None => None
         | Some false => Some (None, PushStack t [node0; node1])
         | Some true =>
             let '(p, t) := NewPackNode (PushStack t [node0; node1]) [node0; node1] in
             PopAndReturn (Some p) t
         end).
  { cbn [BuildTreeRec]. rewrite decide_False by done.
    rewrite Hcycle, Hcan, Hdup. cbn [negb].
    rewrite decide_False by (by rewrite Hop0).
    rewrite Hop0. rewrite (bool_decide_eq_true_2 (kProtectedLoad = kProtectedLoad)) by done.
    rewrite (bool_decide_eq_false_2 (kProtectedLoad = kLoadTransform)) by done.
    cbn [orb andb]. reflexivity. }
  rewrite Hrun.
  destruct (IsSideEffectFreeLoad_total G (PushStack t [node0; node1]) node0 node1
              Hclosed Hin0 Hin1) as [free Hfree].
  pose proof (IsContinuousAccess_sorted_pair G node0 node1 Hoff0 Hoff1) as Hcont.
  assert (Haddr : AllSameAddress G [node0; node1] = true <->
                  GetNodeAddress G node0 = GetNodeAddress G node1).
  { cbn [AllSameAddress forallb]. rewrite andb_true_r, bool_decide_eq_true.
    split; congruence. }
  split.
  - intros (Ha & Hrep & Hdelta & Hsafe).
    apply Haddr in Ha. apply Hcont in Hdelta. rewrite Ha, Hdelta, Hsafe.
    rewrite (bool_decide_eq_true_2 _ Hrep). cbn [negb orb].
    rewrite NewPackNode_eq. unfold PopAndReturn.
    erewrite PopStack_cons by reflexivity.
    eexists. split; [reflexivity|]. cbn.
    split; [done|]. repeat split.
    + pose proof (GetPackNode_NewPackNode (PushStack t [node0; node1]) [node0; node1] node0)
        as H. rewrite decide_True in H by (apply elem_of_cons; by left). exact H.
    + pose proof (GetPackNode_NewPackNode (PushStack t [node0; node1]) [node0; node1] node1)
        as H. rewrite decide_True in H by (apply elem_of_cons; right; apply elem_of_cons; by left).
      exact H.
  - intros Hnot.
    destruct (AllSameAddress G [node0; node1]) eqn:Ha; cbn [negb]; [|by eexists].
    destruct (bool_decide (representation (operator G node0) = kSimd128)) eqn:Hrep;
      cbn [negb orb]; [|by eexists].
    destruct (IsContinuousAccess G (SortByOffset G [node0; node1])) eqn:Hc;
      cbn [negb]; [|by eexists].
    rewrite Hfree. destruct free; [|by eexists].
    exfalso. apply Hnot. unfold conditions.
    split; [by apply Haddr|]. split; [by apply bool_decide_eq_true in Hrep|].
    split; [by apply Hcont | done].
Qed.

(** The loads #4 and #5 of [stores_graph], at offsets 0 and 16, in the
    tree [DeleteTree] leaves. *)
Lemma ProtectedLoad_leaf_pack_witness :
  exists t',
    BuildTreeRec stores_graph 1 [4; 5] 0 (DeleteTree empty_tree) = Some (Some 0, t') /\
    zone_ t' = [ {| nodes_ := [4; 5]; operands_ := []; revectorized_node_ := None |} ] /\
    GetPackNode t' 4 = Some 0 /\ GetPackNode t' 5 = Some 0 /\ stack_ t' = [].
Proof.
  destruct (ProtectedLoad_leaf_pack stores_graph 0 0 (DeleteTree empty_tree) 4 5)
    as [Hleaf _].
  - exact stores_graph_closed.
  - apply list_elem_of_In. simpl. lia.
  - apply list_elem_of_In. simpl. lia.
  - reflexivity.
  - reflexivity.
  - split; [discriminate|]. split; [left; reflexivity | reflexivity].
  - reflexivity.
  - reflexivity.
  - vm_compute. split; [discriminate | reflexivity].
  - vm_compute. split; [discriminate | reflexivity].
  - apply Hleaf. split; [reflexivity|]. split; [reflexivity|].
    split; [reflexivity | vm_compute; reflexivity].
Defined.

(** ** The cycle policy *)

(** The cycle check of [BuildTreeRec] rejects a group exactly when one
    of its nodes is in the on-stack set and the top of the stack is no
    phi group. *)
Lemma cycle_check_rejects (G : Graph) (t : SLPTree) (node_group : list Node) :
  (if AllOnStack t node_group then negb <$> StackTopIsPhi G t else Some false) = Some true
  <-> (exists node, node ∈ node_group /\ node ∈ on_stack_ t) /\
      StackTopIsPhi G t = Some false.
Proof.
  rewrite <- AllOnStack_true.
  destruct (AllOnStack t node_group); [|by split; [|intros [? _]]].
  destruct (StackTopIsPhi G t) as [[|]|]; cbn; split; try done; by intros [_ ?].
Qed.

(** Whatever the other nodes of the group, one node in the on-stack set
    is enough for the rejection, which leaves the tree as it was. *)
Lemma partly_stacked_group_rejected (G : Graph) (fuel depth : nat) (t : SLPTree)
    (node0 node1 : Node) :
  depth <> RecursionMaxDepth G ->
  node0 ∈ on_stack_ t \/ node1 ∈ on_stack_ t ->
  StackTopIsPhi G t = Some false ->
  BuildTreeRec G (S fuel) [node0; node1] depth t = Some (None, t).
Proof.
  intros Hcap Hon Htop. cbn [BuildTreeRec]. rewrite decide_False by done.
  assert (Hany : AllOnStack t [node0; node1] = true).
  { apply AllOnStack_true. destruct Hon as [Hon | Hon].
    - exists node0. split; [apply elem_of_cons; by left | done].
    - exists node1. split; [apply elem_of_cons; right; apply elem_of_cons; by left | done]. }
  by rewrite Hany, Htop.
Qed.

(** C2 fails on the code.  In [BuildTree] on the stores #7 and #8 of
    [chained_lanes_graph], operand 0 of the sums #5 and #6 is the group
    of #4 and #5.  #4 is not on the stack, #5 is, and the top of the
    stack is the group of the sums, no phi group: [AllOnStack] answers
    true and [BuildTreeRec] returns no pack without pushing the group,
    the tree being left as it was. *)
Lemma AllOnStack_rejects_partly_stacked_group :
  let G := chained_lanes_graph in
  let t := chained_lanes_tree in
  stack_ t = [[5; 6]; [7; 8]] /\
  InputAt G 5 0 = 4 /\ InputAt G 6 0 = 5 /\
  OnStack t 4 = false /\ OnStack t 5 = true /\
  StackTopIsPhi G t = Some false /\
  AllOnStack t [4; 5] = true /\
  BuildTreeRec G 1 [4; 5] 2 t = Some (None, t).
Proof. cbv zeta. repeat split. Qed.

(** The whole call fails there. *)
Example chained_lanes_graph_builds_nothing :
  exists t', BuildTree chained_lanes_graph [7; 8] empty_tree = Some (None, t').
Proof. eexists. vm_compute. reflexivity. Qed.

(** ** Pairs of [ExtractF128] *)

(** Two nodes whose [int32_t] parameters differ have different
    operators, and [CanBePacked] refuses them. *)
Lemma CanBePacked_different_lanes (G : Graph) (node0 node1 : Node) :
  OpParameter_int32 (operator G node1) <> OpParameter_int32 (operator G node0) ->
  CanBePacked G [node0; node1] = false.
Proof.
  intros Hlane. destruct (CanBePacked G [node0; node1]) eqn:Hcan; [|done].
  destruct (CanBePacked_true _ _ _ Hcan) as (_ & Hop & _).
  exfalso. apply Hlane. unfold operator. by rewrite Hop.
Qed.

(** In a tree that satisfies the invariant of the builder, no pair of
    nodes with consecutive lane parameters gets a pack. *)
Lemma consecutive_lanes_rejected (G : Graph) (base fuel depth : nat) (t : SLPTree)
    (node0 node1 : Node) :
  TreeInv G base t ->
  OpParameter_int32 (operator G node1) = (OpParameter_int32 (operator G node0) + 1)%Z ->
  exists t', BuildTreeRec G (S fuel) [node0; node1] depth t = Some (None, t').
Proof.
  intros Hinv Hlane. cbn [BuildTreeRec].
  destruct (decide (depth = RecursionMaxDepth G)); [by exists t|].
  assert (Hcycle :
    (if AllOnStack t [node0; node1] then negb <$> StackTopIsPhi G t else Some false) <> None).
  { destruct (AllOnStack t [node0; node1]) eqn:Hon; [|done].
    destruct (StackTopIsPhi_defined G base t _ Hinv Hon) as [b ->]. done. }
  destruct (if AllOnStack t [node0; node1] then negb <$> StackTopIsPhi G t else Some false)
    as [[|]|]; [by exists t | | done].
  rewrite CanBePacked_different_lanes by lia. by eexists.
Qed.

(** C3 fails on the code.  #1 and #2 of [extract_graph] are distinct
    [ExtractF128] nodes of one basic block, with the same input 0, no
    [LoadTransform], and lanes 0 and 1.  Their operators differ, as
    their lanes do, [CanBePacked] refuses the group and [BuildTreeRec]
    returns no pack, the group left on the stack; the comparison of the
    lanes in the [ExtractF128] case is never reached. *)
Lemma consecutive_ExtractF128_not_packed :
  let G := extract_graph in
  opcode G 1 = kExtractF128 /\ opcode G 2 = kExtractF128 /\
  SameBasicBlock G 1 2 = true /\
  InputAt G 1 0 = InputAt G 2 0 /\
  opcode G (InputAt G 1 0) <> kLoadTransform /\
  OpParameter_int32 (operator G 2) = (OpParameter_int32 (operator G 1) + 1)%Z /\
  CanBePacked G [1; 2] = false /\
  BuildTreeRec G 1 [1; 2] 0 (DeleteTree empty_tree)
    = Some (None, PushStack (DeleteTree empty_tree) [1; 2]) /\
  exists t', BuildTree G [1; 2] empty_tree = Some (None, t').
Proof.
  cbv zeta. repeat split; try discriminate.
  eexists. vm_compute. reflexivity.
Qed.

(** ** Groups the preflight stops *)

(** C4 fails as stated.  In [BuildTree] on the stores #10 and #11 of
    [accumulate_graph], operand 0 of the sums #8 and #9 is the group of
    the phis #6 and #7, met for the second time.  Both phis are
    registered to the pack 1, which matches the group element-wise;
    yet [BuildTreeRec] returns no pack: the phis are on the stack and
    the top of the stack is the group of the sums, so that the cycle
    policy stops the group before the duplicate check. *)
Lemma registered_group_stopped_by_cycle_policy :
  let G := accumulate_graph in
  let t := accumulate_tree in
  stack_ t = [[8; 9]; [6; 7]; [10; 11]] /\
  InputAt G 8 0 = 6 /\ InputAt G 9 0 = 7 /\
  GetPackNode t 6 = Some 1 /\ GetPackNode t 7 = Some 1 /\
  IsSame t 1 [6; 7] = true /\
  BuildTreeRec G 1 [6; 7] 3 t = Some (None, t) /\
  exists t', BuildTree G [10; 11] empty_tree = Some (None, t').
Proof.
  cbv zeta. repeat split.
  eexists. vm_compute. reflexivity.
Qed.

(** C5 fails as stated.  The [ProtectedLoad] nodes #4 and #5 of
    [split_loads_graph] have the same address node, the representation
    [kSimd128] and the offsets 0 and 16, and [IsSideEffectFreeLoad]
    answers true for them; yet [BuildTreeRec] returns no pack, the two
    loads being in two basic blocks. *)
Lemma contiguous_loads_stopped_by_CanBePacked :
  let G := split_loads_graph in
  let t := DeleteTree empty_tree in
  opcode G 4 = kProtectedLoad /\ opcode G 5 = kProtectedLoad /\
  GetNodeAddress G 4 = GetNodeAddress G 5 /\
  representation (operator G 4) = kSimd128 /\
  GetMemoryOffsetValue G 4 = 0%Z /\ GetMemoryOffsetValue G 5 = 16%Z /\
  IsContinuousAccess G (SortByOffset G [4; 5]) = true /\
  IsSideEffectFreeLoad G (PushStack t [4; 5]) [4; 5] = Some true /\
  SameBasicBlock G 4 5 = false /\
  BuildTreeRec G 1 [4; 5] 0 t = Some (None, PushStack t [4; 5]).
Proof.
  cbv zeta. repeat split.
Qed.

(** * Further properties of the code *)

(** ** The recursion stack *)

(** X1.  [PopStack] after [PushStack] gives back the stack, but erases the
    nodes of the group from the on-stack set even when an earlier push
    had put them there: the tree is the one before the push exactly
    when no node of the group was on the stack. *)
Theorem PopStack_PushStack (t : SLPTree) (node_group : list Node) :
  exists t',
    PopStack (PushStack t node_group) = Some t' /\
    stack_ t' = stack_ t /\ zone_ t' = zone_ t /\
    node_to_packnode_ t' = node_to_packnode_ t /\ root_ t' = root_ t /\
    (forall node,
       OnStack t' node = OnStack t node && negb (bool_decide (node ∈ node_group))) /\
    (t' = t <-> forall node, node ∈ node_group -> OnStack t node = false).
Proof.
  rewrite (PopStack_cons (PushStack t node_group) node_group (stack_ t)) by done.
  eexists. split; [reflexivity|]. cbn [stack_ zone_ node_to_packnode_ root_ set_stack].
  repeat split.
  - intros node. unfold OnStack. cbn [on_stack_ set_stack].
    rewrite on_stack_PushStack.
    apply eq_true_iff_eq. rewrite andb_true_iff, negb_true_iff.
    rewrite !bool_decide_eq_true, bool_decide_eq_false.
    rewrite elem_of_difference, elem_of_union, elem_of_list_to_set. tauto.
  - intros Heq node Hin. apply not_true_iff_false. rewrite OnStack_true.
    intros Hon. rewrite <- Heq in Hon. cbn [on_stack_ set_stack] in Hon.
    rewrite elem_of_difference, elem_of_list_to_set in Hon. tauto.
  - intros Hoff. destruct t as [z r s st m]. unfold set_stack, PushStack. cbn.
    f_equal. rewrite fold_insert_on_stack. apply set_eq. intros x.
    rewrite elem_of_difference, elem_of_union, elem_of_list_to_set.
    split; [tauto|]. intros Hx. split; [tauto|]. intros Hin.
    specialize (Hoff x Hin). apply not_true_iff_false in Hoff.
    apply Hoff. by apply OnStack_true.
Qed.

(** ** The registry *)

(** X2.  [NewPackNode] allocates a pack at a pointer that was not in use,
    leaves the packs there were as they are, and registers every node
    of the group to the new pack, whatever pack the node was registered
    to before; the other nodes keep their registration. *)
Theorem NewPackNode_registers (t : SLPTree) (node_group : list Node) :
  let p := (NewPackNode t node_group).1 in
  let t' := (NewPackNode t node_group).2 in
  zone_ t !! p = None /\
  zone_ t' = zone_ t ++ [ {| nodes_ := node_group; operands_ := [];
                             revectorized_node_ := None |} ] /\
  zone_ t' !! p = Some {| nodes_ := node_group; operands_ := [];
                          revectorized_node_ := None |} /\
  IsSame t' p node_group = true /\
  (forall node, node ∈ node_group -> GetPackNode t' node = Some p) /\
  (forall node, node ∉ node_group -> GetPackNode t' node = GetPackNode t node) /\
  stack_ t' = stack_ t /\ on_stack_ t' = on_stack_ t.
Proof.
  cbv zeta. rewrite NewPackNode_eq. cbn [fst snd zone_ stack_ on_stack_].
  split; [apply lookup_ge_None; lia|]. split; [done|].
  split; [rewrite lookup_app_r by lia; by rewrite Nat.sub_diag|].
  split; [apply IsSame_NewPackNode|].
  split.
  - intros node Hin. pose proof (GetPackNode_NewPackNode t node_group node) as H.
    rewrite decide_True in H by done. exact H.
  - split; [|done]. intros node Hin.
    pose proof (GetPackNode_NewPackNode t node_group node) as H.
    rewrite decide_False in H by done. exact H.
Qed.

(** ** The result of [BuildTree] *)

(** X3.  [BuildTree] on two nodes of a finite graph stores what it returns
    in [root_]; a pack it returns was made during the call, and is the
    pack of the roots, in their order, to which both roots are
    registered. *)
Theorem BuildTree_root (G : Graph) (roots : list Node) (t : SLPTree) :
  GraphClosed G ->
  length roots = 2%nat ->
  (forall node, node ∈ roots -> node ∈ AllNodes G) ->
  exists r t',
    BuildTree G roots t = Some (r, t') /\ root_ t' = r /\
    forall p, r = Some p ->
      (length (zone_ t) <= p)%nat /\
      (exists pnode, zone_ t' !! p = Some pnode /\ nodes_ pnode = roots) /\
      forall node, node ∈ roots -> GetPackNode t' node = Some p.
Proof.
  intros Hclosed Hlen Hall.
  destruct (BuildTree_post G roots t Hclosed Hlen Hall) as (r & t' & Hrun & Hpost).
  exists r, (set_root t' r). split; [done|]. split; [done|].
  intros p Hp. destruct (post_success _ _ _ _ _ _ Hpost p Hp) as (_ & _ & Hsame & Hreg).
  assert (Hr0 : exists node, node ∈ roots) by (destruct roots; [done | eexists; by left]).
  destruct Hr0 as [node0 Hnode0].
  destruct (inv_registered _ _ _ (post_inv _ _ _ _ _ _ Hpost) _ _ (Hreg _ Hnode0))
    as (Hbase & pnode & Hz & _).
  cbn [zone_ set_root]. split; [done|]. split; [|exact Hreg].
  exists pnode. split; [done|]. unfold IsSame in Hsame. rewrite Hz in Hsame.
  by apply bool_decide_eq_true in Hsame.
Qed.

Lemma BuildTree_root_witness :
  exists r t',
    BuildTree stores_graph [8; 9] empty_tree = Some (r, t') /\ root_ t' = r /\
    forall p, r = Some p ->
      (length (zone_ empty_tree) <= p)%nat /\
      (exists pnode, zone_ t' !! p = Some pnode /\ nodes_ pnode = [8; 9]) /\
      forall node, node ∈ [8; 9] -> GetPackNode t' node = Some p.
Proof.
  apply (BuildTree_root stores_graph [8; 9] empty_tree).
  - exact stores_graph_closed.
  - reflexivity.
  - intros node Hnode. apply list_elem_of_In. apply list_elem_of_In in Hnode.
    simpl in *. intuition lia.
Defined.

(** ** Contiguous accesses *)

Lemma wrap64_small (z : Z) : (- 2 ^ 63 <= z < 2 ^ 63)%Z -> wrap64 z = z.
Proof.
  intros Hz. unfold wrap64.
  change (2 ^ 63)%Z with 9223372036854775808%Z in *.
  change (2 ^ 64)%Z with 18446744073709551616%Z in *.
  Z.div_mod_to_equations. lia.
Qed.

Lemma IsContinuousAccess_from_progression (G : Graph) (rest : list Node) (previous : Z) :
  (- 2 ^ 62 <= previous < 2 ^ 62)%Z ->
  Forall (small_offset G) rest ->
  IsContinuousAccess_from G previous rest = true <->
  forall i node, rest !! i = Some node ->
    GetMemoryOffsetValue G node = (previous + 16 * (Z.of_nat i + 1))%Z.
Proof.
  revert previous. induction rest as [|node rest IH]; intros previous Hprev Hsmall.
  - split; [by intros _ i node H | done].
  - apply Forall_cons in Hsmall as [Hnode Hsmall]. unfold small_offset in Hnode.
    cbn [IsContinuousAccess_from].
    change (2 ^ 62)%Z with 4611686018427387904%Z in *.
    rewrite wrap64_small
      by (change (2 ^ 63)%Z with 9223372036854775808%Z; lia).
    unfold kSimd128Size.
    destruct (decide ((GetMemoryOffsetValue G node - previous)%Z = 16%Z)) as [Hd | Hd].
    + rewrite (IH (GetMemoryOffsetValue G node)) by done. split.
      * intros H [|i] x Hx; simpl in Hx.
        -- injection Hx as <-. lia.
        -- rewrite (H i x Hx). lia.
      * intros H i x Hx. rewrite (H (S i) x Hx). lia.
    + split; [done|]. intros H. exfalso. apply Hd.
      rewrite (H 0%nat node eq_refl). lia.
Qed.

(** X4.  For offsets well inside the [int64_t] range, a group is a
    continuous access exactly when the offset of its element [i] is the
    offset of its first element plus 16 times [i]; the nodes of such a
    group are pairwise distinct. *)
Theorem IsContinuousAccess_progression (G : Graph) (node0 : Node) (rest : list Node) :
  Forall (small_offset G) (node0 :: rest) ->
  (IsContinuousAccess G (node0 :: rest) = true <->
   forall i node, (node0 :: rest) !! i = Some node ->
     GetMemoryOffsetValue G node = (GetMemoryOffsetValue G node0 + 16 * Z.of_nat i)%Z) /\
  (IsContinuousAccess G (node0 :: rest) = true -> NoDup (node0 :: rest)).
Proof.
  intros Hsmall. pose proof Hsmall as Hall.
  apply Forall_cons in Hsmall as [H0 Hsmall].
  assert (Hiff : IsContinuousAccess G (node0 :: rest) = true <->
    forall i node, (node0 :: rest) !! i = Some node ->
      GetMemoryOffsetValue G node = (GetMemoryOffsetValue G node0 + 16 * Z.of_nat i)%Z).
  { cbn [IsContinuousAccess].
    rewrite (IsContinuousAccess_from_progression G rest _ H0 Hsmall). split.
    - intros H [|i] x Hx; simpl in Hx.
      + injection Hx as <-. lia.
      + rewrite (H i x Hx). lia.
    - intros H i x Hx. rewrite (H (S i) x Hx). lia. }
  split; [exact Hiff|].
  intros Hc. apply NoDup_alt. intros i j x Hi Hj.
  rewrite Hiff in Hc. pose proof (Hc i x Hi) as Ei. pose proof (Hc j x Hj) as Ej. lia.
Qed.

(** The stores #8 and #9 of [stores_graph], at offsets 0 and 16. *)
Lemma IsContinuousAccess_progression_witness :
  (IsContinuousAccess stores_graph [8; 9] = true <->
   forall i node, [8; 9] !! i = Some node ->
     GetMemoryOffsetValue stores_graph node
     = (GetMemoryOffsetValue stores_graph 8 + 16 * Z.of_nat i)%Z) /\
  (IsContinuousAccess stores_graph [8; 9] = true -> NoDup [8; 9]).
Proof.
  apply (IsContinuousAccess_progression stores_graph 8 [9]).
  repeat constructor; vm_compute; congruence.
Defined.

(** ** What the dependency prober answers *)

Section ProberAnswer.

Variable G : Graph.

Lemma InputsBeforeControl_elem_iff node x :
  x ∈ InputsBeforeControl G node <->
  exists j, (j < FirstControlIndex G node)%nat /\ x = InputAt G node j.
Proof.
  unfold InputsBeforeControl. rewrite list_elem_of_In, in_map_iff. split.
  - intros (j & <- & Hj). apply in_seq in Hj. exists j. split; [lia | done].
  - intros (j & Hj & ->). exists j. split; [done|]. apply in_seq. lia.
Qed.

Lemma push_unless_sibling_elem (node_group inputs to_visit : list Node) x :
  x ∈ fold_left (fun to_visit input =>
                   if bool_decide (input ∈ node_group) then to_visit
                   else input :: to_visit) inputs to_visit
  <-> (x ∈ inputs /\ x ∉ node_group) \/ x ∈ to_visit.
Proof.
  revert to_visit. induction inputs as [|y inputs IH]; intros tv; simpl.
  - split; [by right | intros [[H%elem_of_nil _] | H]; done].
  - rewrite IH. destruct (bool_decide_reflect (y ∈ node_group)) as [Hy | Hy];
      rewrite ?elem_of_cons.
    + split; [tauto|]. intros [[[-> | H] Hn] | H]; tauto.
    + split; [|tauto]. intros [H | [-> | H]]; tauto.
Qed.

Lemma InitialToVisit_elem_iff node_group x :
  x ∈ InitialToVisit G node_group <->
  exists load j, load ∈ node_group /\ (j < FirstControlIndex G load)%nat /\
                 x = InputAt G load j /\ x ∉ node_group.
Proof.
  unfold InitialToVisit.
  assert (Houter : forall loads to_visit,
    x ∈ fold_left
          (fun to_visit load =>
             fold_left (fun to_visit input =>
                          if bool_decide (input ∈ node_group) then to_visit
                          else input :: to_visit)
                       (InputsBeforeControl G load) to_visit)
          loads to_visit <->
    (exists load j, load ∈ loads /\ (j < FirstControlIndex G load)%nat /\
                    x = InputAt G load j /\ x ∉ node_group) \/ x ∈ to_visit).
  { induction loads as [|load loads IH]; intros tv; simpl.
    - split; [by right | intros [(l & _ & H%elem_of_nil & _) | H]; done].
    - rewrite IH, push_unless_sibling_elem, InputsBeforeControl_elem_iff. split.
      + intros [(l & j & Hl & Hj & Hx & Hn) | [[(j & Hj & Hx) Hn] | H]].
        * left. exists l, j. rewrite elem_of_cons. tauto.
        * left. exists load, j. rewrite elem_of_cons. tauto.
        * by right.
      + intros [(l & j & Hl & Hj & Hx & Hn) | H]; [|tauto].
        apply elem_of_cons in Hl as [-> | Hl].
        * right. left. split; [by exists j | done].
        * left. by exists l, j. }
  rewrite Houter. split; [|by left].
  intros [H | H%elem_of_nil]; done.
Qed.

Variable t : SLPTree.
Variable node0 : Node.

(** A negative answer comes with a pending or expanded node that is on
    the stack. *)
Lemma VisitInputs_false (P : Node -> Prop) fuel to_visit visited :
  (forall node j, P node -> SameBasicBlock G node node0 = true ->
                  (j < FirstControlIndex G node)%nat -> P (InputAt G node j)) ->
  (forall x, x ∈ to_visit -> P x) ->
  VisitInputs G t node0 fuel to_visit visited = Some false ->
  exists node, P node /\ node ∈ on_stack_ t.
Proof.
  intros Hstep. revert to_visit visited.
  induction fuel as [|fuel IH]; intros to_visit visited Hall; [done|].
  simpl. destruct to_visit as [|input to_visit]; [done|].
  assert (Hin : P input) by (apply Hall; by left).
  assert (Hrest : forall x, x ∈ to_visit -> P x) by (intros x Hx; apply Hall; by right).
  destruct (decide (input ∈ visited)); [by apply IH|].
  destruct (OnStack t input) eqn:Hon.
  { intros _. exists input. split; [done | by apply OnStack_true]. }
  destruct (SameBasicBlock G input node0) eqn:Hbb; [|by apply IH].
  apply IH. intros x Hx. apply push_all_elem in Hx as [Hx | Hx]; [|auto].
  apply InputsBeforeControl_elem_iff in Hx as (j & Hj & ->). by apply Hstep.
Qed.

Lemma push_all_elem_iff (inputs to_visit : list Node) x :
  x ∈ fold_left (fun to_visit i => i :: to_visit) inputs to_visit <->
  x ∈ inputs \/ x ∈ to_visit.
Proof.
  revert to_visit. induction inputs as [|i inputs IH]; intros to_visit; simpl.
  - split; [by right | intros [H%elem_of_nil | H]; done].
  - rewrite IH, !elem_of_cons. tauto.
Qed.

(** A positive answer comes with a set of nodes, none of them on the
    stack, that holds the pending and the expanded nodes and the inputs
    before control of its nodes of the block of [node0]. *)
Lemma VisitInputs_true fuel to_visit (visited : gset Node) :
  (forall x, x ∈ visited ->
     (x ∉ on_stack_ t) /\
     (SameBasicBlock G x node0 = true ->
      forall j, (j < FirstControlIndex G x)%nat ->
                InputAt G x j ∈ visited \/ InputAt G x j ∈ to_visit)) ->
  VisitInputs G t node0 fuel to_visit visited = Some true ->
  exists V : gset Node,
    (forall x, x ∈ to_visit -> x ∈ V) /\
    (forall x, x ∈ visited -> x ∈ V) /\
    (forall x, x ∈ V -> x ∉ on_stack_ t) /\
    (forall x j, x ∈ V -> SameBasicBlock G x node0 = true ->
                 (j < FirstControlIndex G x)%nat -> InputAt G x j ∈ V).
Proof.
  revert to_visit visited.
  induction fuel as [|fuel IH]; intros to_visit visited Hinv; [done|].
  simpl. destruct to_visit as [|input to_visit].
  { intros _. exists visited. split; [by intros x H%elem_of_nil|].
    split; [done|]. split; [intros x Hx; by apply Hinv|].
    intros x j Hx Hbb Hj. destruct (Hinv x Hx) as [_ Hc].
    destruct (Hc Hbb j Hj) as [H | H%elem_of_nil]; done. }
  destruct (decide (input ∈ visited)) as [Hv | Hv].
  { intros Hrun. destruct (IH to_visit visited) as (V & Htv & Hvis & Hoff & Hcl); [|done|].
    - intros x Hx. destruct (Hinv x Hx) as [Hx1 Hx2]. split; [done|].
      intros Hbb j Hj. destruct (Hx2 Hbb j Hj) as [H | H]; [by left|].
      apply elem_of_cons in H as [-> | H]; [by left | by right].
    - exists V. split; [|done].
      intros x Hx. apply elem_of_cons in Hx as [-> | Hx]; auto. }
  destruct (OnStack t input) eqn:Hon; [done|].
  assert (Hoff : input ∉ on_stack_ t).
  { intros H. apply OnStack_true in H. congruence. }
  destruct (SameBasicBlock G input node0) eqn:Hbb.
  - intros Hrun.
    apply IH in Hrun as (V & Htv & Hvis & HoffV & Hcl); [|].
    2:{ intros x Hx. apply elem_of_union in Hx as [Hx | Hx].
      * apply elem_of_singleton in Hx as ->. split; [done|].
        intros _ j Hj. right. apply push_all_elem_iff. left.
        apply InputsBeforeControl_elem_iff. by exists j.
      * destruct (Hinv x Hx) as [Hx1 Hx2]. split; [done|].
        intros Hbx j Hj. destruct (Hx2 Hbx j Hj) as [H | H].
        -- left. apply elem_of_union. by right.
        -- apply elem_of_cons in H as [-> | H].
           ++ left. apply elem_of_union. left. by apply elem_of_singleton.
           ++ right. apply push_all_elem_iff. by right. }
    exists V. split.
    { intros x Hx. apply elem_of_cons in Hx as [-> | Hx].
        -- apply Hvis. apply elem_of_union. left. by apply elem_of_singleton.
        -- apply Htv. apply push_all_elem_iff. by right. }
    split; [|done]. intros x Hx. apply Hvis. apply elem_of_union. by right.
  - intros Hrun.
    apply IH in Hrun as (V & Htv & Hvis & HoffV & Hcl); [|].
    2:{ intros x Hx. apply elem_of_union in Hx as [Hx | Hx].
      * apply elem_of_singleton in Hx as ->. split; [done|]. congruence.
      * destruct (Hinv x Hx) as [Hx1 Hx2]. split; [done|].
        intros Hbx j Hj. destruct (Hx2 Hbx j Hj) as [H | H].
        -- left. apply elem_of_union. by right.
        -- apply elem_of_cons in H as [-> | H].
           ++ left. apply elem_of_union. left. by apply elem_of_singleton.
           ++ by right. }
    exists V. split.
    { intros x Hx. apply elem_of_cons in Hx as [-> | Hx].
      - apply Hvis. apply elem_of_union. left. by apply elem_of_singleton.
      - by apply Htv. }
    split; [|done]. intros x Hx. apply Hvis. apply elem_of_union. by right.
Qed.

End ProberAnswer.

(** X5.  On a finite graph [IsSideEffectFreeLoad] answers true exactly when
    none of the nodes it can come to inspect (the inputs before control
    of the two loads that are not one of them, and from there the
    inputs before control of the nodes in the block of the first load)
    is on the stack. *)
Theorem IsSideEffectFreeLoad_answer (G : Graph) (t : SLPTree) (node0 node1 : Node) :
  GraphClosed G -> node0 ∈ AllNodes G -> node1 ∈ AllNodes G ->
  exists b,
    IsSideEffectFreeLoad G t [node0; node1] = Some b /\
    (b = true <->
     forall node, Probed G [node0; node1] node0 node -> OnStack t node = false).
Proof.
  intros Hclosed H0 H1.
  destruct (IsSideEffectFreeLoad_total G t node0 node1 Hclosed H0 H1) as [b Hb].
  exists b. split; [done|].
  unfold IsSideEffectFreeLoad in Hb. destruct b.
  - split; [|done]. intros _.
    apply VisitInputs_true in Hb as (V & Htv & _ & Hoff & Hcl);
      [|by intros x H%not_elem_of_empty].
    assert (HV : forall node, Probed G [node0; node1] node0 node -> node ∈ V).
    { intros node Hp. induction Hp as [load j Hload Hj Hn | node j Hp IH Hbb Hj].
      - apply Htv. apply InitialToVisit_elem_iff. by exists load, j.
      - by apply Hcl. }
    intros node Hp. apply not_true_iff_false. rewrite OnStack_true. by apply Hoff, HV.
  - split; [done|]. intros Hall. exfalso.
    apply (VisitInputs_false G t node0 (Probed G [node0; node1] node0)) in Hb
      as (node & Hp & Hon).
    + specialize (Hall node Hp). apply OnStack_true in Hon. congruence.
    + intros node j Hp Hbb Hj. by apply probed_step.
    + intros x Hx. apply InitialToVisit_elem_iff in Hx as (load & j & Hl & Hj & -> & Hn).
      by apply probed_input.
Qed.

(** The loads #4 and #5 of [stores_graph]. *)
Lemma IsSideEffectFreeLoad_answer_witness :
  exists b,
    IsSideEffectFreeLoad stores_graph empty_tree [4; 5] = Some b /\
    (b = true <->
     forall node, Probed stores_graph [4; 5] 4 node -> OnStack empty_tree node = false).
Proof.
  apply (IsSideEffectFreeLoad_answer stores_graph empty_tree 4 5).
  - exact stores_graph_closed.
  - apply list_elem_of_In. simpl. lia.
  - apply list_elem_of_In. simpl. lia.
Defined.

(** ** The seeds [CollectSeeds] collects *)

Section SeedInvariants.

Variable G : Graph.

Lemma StoreNodeSet_insert_keeps node set x :
  x ∈ set -> x ∈ StoreNodeSet_insert G node set.
Proof.
  induction set as [|head rest IH]; simpl; [by intros ?%elem_of_nil|].
  destruct (MemoryOffsetComparer G node head); [by right|].
  destruct (MemoryOffsetComparer G head node); [|done].
  rewrite !elem_of_cons. intros [-> | H]; auto.
Qed.

Lemma StoreNodeSet_insert_represents node set :
  AscendingOffsets G set ->
  exists member, member ∈ StoreNodeSet_insert G node set /\
                 GetMemoryOffsetValue G member = GetMemoryOffsetValue G node.
Proof.
  induction set as [|head rest IH]; simpl; intros Hasc.
  - exists node. split; [by left | done].
  - unfold MemoryOffsetComparer.
    destruct (Z.ltb_spec (GetMemoryOffsetValue G node) (GetMemoryOffsetValue G head)).
    + exists node. split; [by left | done].
    + destruct (Z.ltb_spec (GetMemoryOffsetValue G head) (GetMemoryOffsetValue G node)).
      * destruct (IH (proj2 Hasc)) as (m & Hm & Heq). exists m. split; [by right | done].
      * exists head. split; [by left | lia].
Qed.

Lemma StoreNodeSet_insert_ascending node set :
  AscendingOffsets G set -> AscendingOffsets G (StoreNodeSet_insert G node set).
Proof.
  induction set as [|head rest IH]; simpl; intros Hasc; [done|].
  destruct Hasc as [Hhead Hrest]. unfold MemoryOffsetComparer.
  destruct (Z.ltb_spec (GetMemoryOffsetValue G node) (GetMemoryOffsetValue G head)).
  - simpl. split; [|done]. constructor; [done|].
    eapply Forall_impl; [exact Hhead|]. simpl. intros. lia.
  - destruct (Z.ltb_spec (GetMemoryOffsetValue G head) (GetMemoryOffsetValue G node));
      [|done].
    simpl. split; [|by apply IH].
    apply Forall_forall. intros x Hx.
    apply StoreNodeSet_insert_elem in Hx as [-> | Hx]; [done|].
    rewrite Forall_forall in Hhead. by apply Hhead.
Qed.

(** Inserting a node whose offset a member has changes nothing. *)
Lemma StoreNodeSet_insert_same_offset node set :
  AscendingOffsets G set ->
  (exists member, member ∈ set /\
                  GetMemoryOffsetValue G member = GetMemoryOffsetValue G node) ->
  StoreNodeSet_insert G node set = set.
Proof.
  induction set as [|head rest IH]; simpl; intros Hasc (m & Hm & Heq);
    [by apply elem_of_nil in Hm|].
  destruct Hasc as [Hhead Hrest]. unfold MemoryOffsetComparer.
  rewrite Forall_forall in Hhead.
  apply elem_of_cons in Hm as [-> | Hm].
  - rewrite !(proj2 (Z.ltb_ge _ _)) by lia. done.
  - specialize (Hhead _ Hm).
    rewrite (proj2 (Z.ltb_ge _ _)) by lia. rewrite (proj2 (Z.ltb_lt _ _)) by lia.
    f_equal. apply IH; [done | by exists m].
Qed.

Lemma CollectSeed_well_formed m node :
  SeedsWellFormed G m -> SeedsWellFormed G (CollectSeed G m node).
Proof.
  intros Hwf. unfold CollectSeed.
  destruct (bool_decide_reflect (Z.rem (GetMemoryOffsetValue G node) kSimd128Size = 0%Z))
    as [Hal | Hal]; simpl; [|done].
  intros d sn a set Hd Ha.
  destruct (decide (d = GetEarlySchedulePosition G node)) as [-> | Hne];
    [|rewrite lookup_insert_ne in Hd by done; by eapply Hwf].
  rewrite lookup_insert_eq in Hd. injection Hd as <-.
  destruct (decide (a = GetNodeAddress G node)) as [-> | Hna].
  - rewrite lookup_insert_eq in Ha. injection Ha as <-.
    assert (Hold : AscendingOffsets G
                     match (match m !! GetEarlySchedulePosition G node with
                            | Some sn => sn | None => ∅ end) !! GetNodeAddress G node with
                     | Some set => set | None => [] end /\
                   forall x, x ∈ match (match m !! GetEarlySchedulePosition G node with
                                        | Some sn => sn | None => ∅ end)
                                       !! GetNodeAddress G node with
                                 | Some set => set | None => [] end ->
                     GetEarlySchedulePosition G x = GetEarlySchedulePosition G node /\
                     GetNodeAddress G x = GetNodeAddress G node /\
                     Z.rem (GetMemoryOffsetValue G x) kSimd128Size = 0%Z).
    { destruct (m !! GetEarlySchedulePosition G node) as [sn|] eqn:Hd.
      - destruct (sn !! GetNodeAddress G node) as [set|] eqn:Ha; [by eapply Hwf|].
        split; [done | by intros x ?%elem_of_nil].
      - rewrite lookup_empty. split; [done | by intros x ?%elem_of_nil]. }
    destruct Hold as [Hasc Hmem]. split; [by apply StoreNodeSet_insert_ascending|].
    intros x Hx. apply StoreNodeSet_insert_elem in Hx as [-> | Hx]; auto.
  - rewrite lookup_insert_ne in Ha by done.
    destruct (m !! GetEarlySchedulePosition G node) as [sn|] eqn:Hd;
      [by eapply Hwf | by rewrite lookup_empty in Ha].
Qed.

Lemma CollectSeed_represents m node :
  SeedsWellFormed G m ->
  Z.rem (GetMemoryOffsetValue G node) kSimd128Size = 0%Z ->
  Represented G (CollectSeed G m node) node.
Proof.
  intros Hwf Hal. unfold CollectSeed, Represented.
  rewrite (bool_decide_eq_true_2 _ Hal). simpl.
  rewrite lookup_insert_eq. eexists. eexists.
  assert (Hasc : AscendingOffsets G
                   match (match m !! GetEarlySchedulePosition G node with
                          | Some sn => sn | None => ∅ end) !! GetNodeAddress G node with
                   | Some set => set | None => [] end).
  { destruct (m !! GetEarlySchedulePosition G node) as [sn|] eqn:Hd.
    - destruct (sn !! GetNodeAddress G node) as [set|] eqn:Ha; [by eapply Hwf | done].
    - by rewrite lookup_empty. }
  destruct (StoreNodeSet_insert_represents node _ Hasc) as (member & Hm & Heq).
  exists member. split; [reflexivity|]. rewrite lookup_insert_eq. done.
Qed.

Lemma CollectSeed_keeps_represented m node x :
  Represented G m x -> Represented G (CollectSeed G m node) x.
Proof.
  intros (sn & set & member & Hd & Ha & Hm & Heq). unfold CollectSeed.
  destruct (bool_decide (Z.rem (GetMemoryOffsetValue G node) kSimd128Size = 0%Z));
    simpl; [|by exists sn, set, member].
  unfold Represented.
  destruct (decide (GetEarlySchedulePosition G node = GetEarlySchedulePosition G x))
    as [Hde | Hde].
  - rewrite Hde, lookup_insert_eq, Hd.
    destruct (decide (GetNodeAddress G node = GetNodeAddress G x)) as [Hae | Hae].
    + rewrite Hae, Ha. eexists. eexists. exists member.
      split; [reflexivity|]. rewrite lookup_insert_eq.
      split; [reflexivity|]. split; [by apply StoreNodeSet_insert_keeps | done].
    + eexists. exists set, member. split; [reflexivity|].
      rewrite lookup_insert_ne by done. done.
  - rewrite lookup_insert_ne by done. by exists sn, set, member.
Qed.

Lemma CollectSeed_represented_id m node :
  SeedsWellFormed G m -> Represented G m node -> CollectSeed G m node = m.
Proof.
  intros Hwf (sn & set & member & Hd & Ha & Hm & Heq). unfold CollectSeed.
  destruct (bool_decide (Z.rem (GetMemoryOffsetValue G node) kSimd128Size = 0%Z));
    simpl; [|done].
  rewrite Hd, Ha.
  rewrite StoreNodeSet_insert_same_offset;
    [|by eapply Hwf | by exists member].
  rewrite (insert_id sn) by done. by apply insert_id.
Qed.

Lemma CollectSeeds_fold_well_formed stores m :
  SeedsWellFormed G m -> SeedsWellFormed G (fold_left (CollectSeed G) stores m).
Proof.
  revert m. induction stores as [|node stores IH]; intros m Hwf; [done|].
  simpl. by apply IH, CollectSeed_well_formed.
Qed.

Lemma CollectSeeds_fold_keeps stores m x :
  Represented G m x -> Represented G (fold_left (CollectSeed G) stores m) x.
Proof.
  revert m. induction stores as [|node stores IH]; intros m Hx; [done|].
  simpl. by apply IH, CollectSeed_keeps_represented.
Qed.

Lemma CollectSeeds_fold_represents stores m x :
  SeedsWellFormed G m -> x ∈ stores ->
  Z.rem (GetMemoryOffsetValue G x) kSimd128Size = 0%Z ->
  Represented G (fold_left (CollectSeed G) stores m) x.
Proof.
  revert m. induction stores as [|node stores IH]; intros m Hwf Hx Hal;
    [by apply elem_of_nil in Hx|].
  simpl. apply elem_of_cons in Hx as [-> | Hx].
  - by apply CollectSeeds_fold_keeps, CollectSeed_represents.
  - apply IH; [by apply CollectSeed_well_formed | done | done].
Qed.

Lemma CollectSeeds_fold_id stores m :
  SeedsWellFormed G m ->
  (forall x, x ∈ stores ->
     Z.rem (GetMemoryOffsetValue G x) kSimd128Size = 0%Z -> Represented G m x) ->
  fold_left (CollectSeed G) stores m = m.
Proof.
  induction stores as [|node stores IH]; intros Hwf Hrep; [done|].
  simpl.
  assert (Hnode : CollectSeed G m node = m).
  { destruct (decide (Z.rem (GetMemoryOffsetValue G node) kSimd128Size = 0%Z)) as [Hal | Hal].
    - apply CollectSeed_represented_id; [done|]. apply Hrep; [by left | done].
    - by apply CollectSeed_unaligned. }
  rewrite Hnode. apply IH; [done|]. intros x Hx. apply Hrep. by right.
Qed.

End SeedInvariants.

(** X6.  [CollectSeeds] keeps the group-of-stores map well formed: in the
    map it leaves, every set is in strictly ascending offset order, so
    that no two of its members have the same offset, and every member
    has the dominator and the address the set is filed under and an
    offset that is a multiple of 16.  What it adds are stores of the
    graph's list of SIMD stores. *)
Theorem CollectSeeds_well_formed (G : Graph) (rv : Revectorizer) :
  SeedsWellFormed G (group_of_stores_ rv) ->
  SeedsWellFormed G (group_of_stores_ (CollectSeeds G rv)) /\
  forall node,
    InGroupOfStores (group_of_stores_ (CollectSeeds G rv)) node ->
    node ∈ GetSimdStoreNodes G \/ InGroupOfStores (group_of_stores_ rv) node.
Proof.
  intros Hwf. split; [by apply CollectSeeds_fold_well_formed|].
  intros node H. simpl in H. apply CollectSeeds_members in H as [[H _] | H]; auto.
Qed.

Lemma SeedsWellFormed_empty (G : Graph) : SeedsWellFormed G ∅.
Proof. intros d sn a set H. by rewrite lookup_empty in H. Qed.

(** A fresh pass over [stores_graph]. *)
Lemma CollectSeeds_well_formed_witness :
  let rv := {| slp_tree_ := empty_tree; group_of_stores_ := ∅; support_simd256_ := true |} in
  SeedsWellFormed stores_graph (group_of_stores_ (CollectSeeds stores_graph rv)) /\
  forall node,
    InGroupOfStores (group_of_stores_ (CollectSeeds stores_graph rv)) node ->
    node ∈ GetSimdStoreNodes stores_graph \/ InGroupOfStores (group_of_stores_ rv) node.
Proof.
  intros rv. apply (CollectSeeds_well_formed stores_graph rv).
  apply SeedsWellFormed_empty.
Defined.

(** X7.  After [CollectSeeds], every store of the graph's list whose offset
    is a multiple of 16 is represented: the set filed under its
    dominator and address has a member with its offset (the store
    itself, or the store of that offset inserted before it). *)
Theorem CollectSeeds_represents_aligned_stores (G : Graph) (rv : Revectorizer) (node : Node) :
  SeedsWellFormed G (group_of_stores_ rv) ->
  node ∈ GetSimdStoreNodes G ->
  Z.rem (GetMemoryOffsetValue G node) kSimd128Size = 0%Z ->
  Represented G (group_of_stores_ (CollectSeeds G rv)) node.
Proof. intros Hwf Hin Hal. by apply CollectSeeds_fold_represents. Qed.

Lemma CollectSeeds_represents_aligned_stores_witness :
  Represented stores_graph
    (group_of_stores_
       (CollectSeeds stores_graph
          {| slp_tree_ := empty_tree; group_of_stores_ := ∅; support_simd256_ := true |}))
    9.
Proof.
  apply CollectSeeds_represents_aligned_stores.
  - apply SeedsWellFormed_empty.
  - apply list_elem_of_In. simpl. tauto.
  - reflexivity.
Defined.

(** X8.  [CollectSeeds] is idempotent on well-formed maps: a second run adds
    nothing to what the first left. *)
Theorem CollectSeeds_idempotent (G : Graph) (rv : Revectorizer) :
  SeedsWellFormed G (group_of_stores_ rv) ->
  CollectSeeds G (CollectSeeds G rv) = CollectSeeds G rv.
Proof.
  intros Hwf. unfold CollectSeeds. cbn [slp_tree_ group_of_stores_ support_simd256_].
  f_equal. apply CollectSeeds_fold_id.
  - by apply CollectSeeds_fold_well_formed.
  - intros x Hx Hal. by apply CollectSeeds_fold_represents.
Qed.

Lemma CollectSeeds_idempotent_witness :
  let rv := {| slp_tree_ := empty_tree; group_of_stores_ := ∅; support_simd256_ := true |} in
  CollectSeeds stores_graph (CollectSeeds stores_graph rv) = CollectSeeds stores_graph rv.
Proof.
  intros rv. apply (CollectSeeds_idempotent stores_graph rv).
  apply SeedsWellFormed_empty.
Defined.

Lemma StoreUnits_ascending_pairs (G : Graph) (chain : list Node) (unit : list Node) :
  AscendingOffsets G chain -> unit ∈ StoreUnits chain ->
  exists store0 store1,
    unit = [store0; store1] /\ store0 ∈ chain /\ store1 ∈ chain /\
    (GetMemoryOffsetValue G store0 < GetMemoryOffsetValue G store1)%Z.
Proof.
  revert unit.
  induction chain as [chain IH] using (induction_ltof1 _ (@length nat)).
  unfold ltof in IH. intros unit Hasc.
  destruct chain as [|store0 [|store1 rest]]; simpl;
    [by intros ?%elem_of_nil | by intros ?%elem_of_nil |].
  destruct Hasc as [H0 [H1 Hrest]].
  rewrite elem_of_cons. intros [-> | Hin].
  - exists store0, store1. rewrite !elem_of_cons.
    apply Forall_cons in H0 as [H0 _]. tauto.
  - destruct (IH rest) with (unit := unit) as (s0 & s1 & -> & Hs0 & Hs1 & Hlt);
      [simpl; lia | done | done |].
    exists s0, s1. rewrite !elem_of_cons. tauto.
Qed.

(** X9.  The roots the driver takes from a well-formed group-of-stores map
    are pairs of stores in ascending offset order, with one dominator,
    one address node and offsets that are multiples of 16; the address
    check [AllSameAddress] passes for them. *)
Theorem seed_groups_are_ascending_pairs (G : Graph)
    (group_of_stores : gmap nat (gmap nat StoreNodeSet)) (unit : list Node) :
  SeedsWellFormed G group_of_stores ->
  unit ∈ SeedGroups group_of_stores ->
  exists store0 store1,
    unit = [store0; store1] /\
    (GetMemoryOffsetValue G store0 < GetMemoryOffsetValue G store1)%Z /\
    Z.rem (GetMemoryOffsetValue G store0) kSimd128Size = 0%Z /\
    Z.rem (GetMemoryOffsetValue G store1) kSimd128Size = 0%Z /\
    GetEarlySchedulePosition G store0 = GetEarlySchedulePosition G store1 /\
    GetNodeAddress G store0 = GetNodeAddress G store1 /\
    AllSameAddress G unit = true.
Proof.
  intros Hwf Hu. unfold SeedGroups in Hu.
  apply list_elem_of_In, in_concat in Hu as (units & Hunits & Hu).
  apply in_map_iff in Hunits as ([d sn] & <- & Hd).
  apply list_elem_of_In, elem_of_map_to_list in Hd. simpl in Hu.
  apply in_concat in Hu as (units & Hunits & Hu).
  apply in_map_iff in Hunits as ([a set] & <- & Ha).
  apply list_elem_of_In, elem_of_map_to_list in Ha. simpl in Hu.
  apply list_elem_of_In in Hu.
  destruct (Hwf d sn a set Hd Ha) as [Hasc Hmem].
  unfold ChainUnits in Hu.
  destruct ((2 <=? length set)%nat && (length set mod 2 =? 0)%nat);
    [|by apply elem_of_nil in Hu].
  destruct (StoreUnits_ascending_pairs G set unit Hasc Hu)
    as (s0 & s1 & -> & Hs0 & Hs1 & Hlt).
  destruct (Hmem _ Hs0) as (Hd0 & Ha0 & Hal0).
  destruct (Hmem _ Hs1) as (Hd1 & Ha1 & Hal1).
  exists s0, s1. repeat split; try done; try congruence.
  cbn [AllSameAddress forallb]. rewrite andb_true_r. apply bool_decide_eq_true. congruence.
Qed.

(** The one chain of [stores_graph] after a fresh [CollectSeeds]. *)
Lemma seed_groups_are_ascending_pairs_witness :
  exists store0 store1,
    [8; 9] = [store0; store1] /\
    (GetMemoryOffsetValue stores_graph store0 < GetMemoryOffsetValue stores_graph store1)%Z /\
    Z.rem (GetMemoryOffsetValue stores_graph store0) kSimd128Size = 0%Z /\
    Z.rem (GetMemoryOffsetValue stores_graph store1) kSimd128Size = 0%Z /\
    GetEarlySchedulePosition stores_graph store0
      = GetEarlySchedulePosition stores_graph store1 /\
    GetNodeAddress stores_graph store0 = GetNodeAddress stores_graph store1 /\
    AllSameAddress stores_graph [8; 9] = true.
Proof.
  apply (seed_groups_are_ascending_pairs stores_graph
           (group_of_stores_
              (CollectSeeds stores_graph
                 {| slp_tree_ := empty_tree; group_of_stores_ := ∅;
                    support_simd256_ := true |}))).
  - apply CollectSeeds_fold_well_formed, SeedsWellFormed_empty.
  - vm_compute. apply list_elem_of_In. simpl. tauto.
Defined.

(** ** What a run of the builder does to the tree *)

Lemma wrap32_succ_ne (z : Z) : wrap32 (z + 1) <> z.
Proof.
  unfold wrap32.
  change (2 ^ 31)%Z with 2147483648%Z. change (2 ^ 32)%Z with 4294967296%Z.
  Z.div_mod_to_equations. lia.
Qed.

Lemma OperandAt_SetOperand_eq (pnode : PackNode) (i : nat) (child : nat) :
  OperandAt (SetOperand_pack pnode i child) i = Some child.
Proof.
  unfold OperandAt, SetOperand_pack. cbn [operands_].
  rewrite list_lookup_insert_eq; [done|].
  rewrite length_app, length_replicate. lia.
Qed.

Lemma OperandAt_SetOperand_ne (pnode : PackNode) (i j : nat) (child : nat) :
  i <> j -> OperandAt (SetOperand_pack pnode i child) j = OperandAt pnode j.
Proof.
  intros Hne. unfold OperandAt, SetOperand_pack. cbn [operands_].
  rewrite list_lookup_insert_ne by done.
  destruct (decide (j < length (operands_ pnode))%nat) as [Hj | Hj].
  - by rewrite lookup_app_l.
  - rewrite lookup_app_r by lia.
    rewrite (lookup_ge_None_2 (operands_ pnode) j) by lia.
    destruct (replicate _ None !! _) as [x|] eqn:Hx; [|done].
    apply lookup_replicate in Hx as [-> _]. done.
Qed.

Lemma NodesKept_refl t : NodesKept t t.
Proof. intros p pnode H. by exists pnode. Qed.

Lemma NodesKept_trans t1 t2 t3 : NodesKept t1 t2 -> NodesKept t2 t3 -> NodesKept t1 t3.
Proof.
  intros H12 H23 p pnode H. destruct (H12 _ _ H) as (pn2 & H2 & E2).
  destruct (H23 _ _ H2) as (pn3 & H3 & E3). exists pn3. split; [done | congruence].
Qed.

Lemma NodesKept_SetOperand t p i child : NodesKept t (SetOperand t p i child).
Proof. exact (grows_zone_nodes _ _ (Grows_SetOperand t p i child)). Qed.

Section RunFacts.

Variable G : Graph.

Lemma Wired_stable t t' q :
  zone_ t' !! q = zone_ t !! q -> NodesKept t t' -> Wired G t q -> Wired G t' q.
Proof.
  intros Hq Hkept Hw pnode node0 i Hz Hhead Hi. rewrite Hq in Hz.
  destruct (Hw pnode node0 i Hz Hhead Hi) as (child & cnode & Hop & Hc & Hn).
  destruct (Hkept _ _ Hc) as (cnode' & Hc' & Hn').
  exists child, cnode'. split; [done|]. split; [done | congruence].
Qed.

Lemma RunPost_NodesKept node_group t r t' :
  RunPost G node_group t r t' -> NodesKept t t'.
Proof.
  intros Hpost p pnode H. exists pnode. split; [|done].
  rewrite (run_old _ _ _ _ _ Hpost); [done | by eapply lookup_lt_Some].
Qed.

Lemma run_fail_unpushed t node_group : RunPost G node_group t None t.
Proof.
  split; [done | lia | | by left | done].
  intros q pnode Hq H. apply lookup_lt_Some in H. lia.
Qed.

Lemma run_fail_pushed t node_group : RunPost G node_group t None (PushStack t node_group).
Proof.
  split; [done | simpl; lia | | | done].
  - intros q pnode Hq H. apply lookup_lt_Some in H. simpl in H. lia.
  - intros _. right. split; [done|]. by rewrite on_stack_PushStack.
Qed.

(** The duplicate check returns a pack of the group. *)
Lemma diamond_run t node_group p r t' :
  IsSame (PushStack t node_group) p node_group = true ->
  PopAndReturn (Some p) (PushStack t node_group) = Some (r, t') ->
  RunPost G node_group t r t'.
Proof.
  intros Hsame. unfold PopAndReturn.
  rewrite (PopStack_cons _ node_group (stack_ t)) by done.
  intros [= <- <-]. split; cbn [zone_ stack_ on_stack_ set_stack PushStack].
  - done.
  - lia.
  - intros q pnode Hq H. apply lookup_lt_Some in H. lia.
  - done.
  - intros q [= <-]. split; [done|]. split.
    + rewrite fold_insert_on_stack. set_solver.
    + split; [exact Hsame|]. intros q Hq. lia.
Qed.

(** A leaf: the new pack has no operand position to wire. *)
Lemma leaf_run t node_group node0 rest r t' :
  node_group = node0 :: rest ->
  GoodGroup G node_group -> RecursedIndices G node0 = [] ->
  (let '(p, u) := NewPackNode (PushStack t node_group) node_group in
   PopAndReturn (Some p) u) = Some (r, t') ->
  RunPost G node_group t r t'.
Proof.
  intros Hg Hgood Hleaf. rewrite NewPackNode_eq. unfold PopAndReturn.
  erewrite PopStack_cons by reflexivity.
  intros [= <- <-]. split; cbn [zone_ stack_ on_stack_ set_stack PushStack].
  - intros q Hq. rewrite lookup_app_l; [done | lia].
  - rewrite length_app. lia.
  - intros q pnode Hq H.
    rewrite lookup_app_r in H by lia.
    destruct (q - length (zone_ t))%nat; simpl in H; [|done].
    by injection H as <-.
  - done.
  - intros q [= <-]. split; [done|]. split.
    + rewrite fold_insert_on_stack. set_solver.
    + split.
      * unfold IsSame. cbn [zone_ set_stack]. rewrite lookup_app_r by lia.
        rewrite Nat.sub_diag. simpl. by apply bool_decide_eq_true.
      * rewrite length_app. simpl. intros q Hq.
        assert (q = length (zone_ t)) as -> by lia.
        intros pnode n0 i Hz Hhead Hi. cbn [zone_ set_stack] in Hz.
        rewrite lookup_app_r in Hz by lia. rewrite Nat.sub_diag in Hz.
        injection Hz as <-. simpl in Hhead. rewrite Hg in Hhead.
        injection Hhead as <-. rewrite Hleaf in Hi. by apply elem_of_nil in Hi.
Qed.

Lemma RecurseOperands_run rec pnode node_group indices depth :
  RunSpec G rec ->
  forall u r u',
    RecurseOperands G rec pnode node_group indices depth u = Some (r, u') ->
    (pnode < length (zone_ u))%nat ->
    (forall q, q <> pnode -> (q < length (zone_ u))%nat -> zone_ u' !! q = zone_ u !! q) /\
    (forall qn, zone_ u !! pnode = Some qn ->
       exists qn',
         zone_ u' !! pnode = Some qn' /\ nodes_ qn' = nodes_ qn /\
         (forall j, j ∉ indices -> OperandAt qn' j = OperandAt qn j) /\
         (forall p, r = Some p -> forall j, j ∈ indices ->
            exists child cnode,
              OperandAt qn' j = Some child /\ zone_ u' !! child = Some cnode /\
              nodes_ cnode = map (fun node => GetValueInput G node j) node_group)) /\
    ((length (zone_ u) <= length (zone_ u'))%nat /\
     forall q qn, (length (zone_ u) <= q)%nat -> zone_ u' !! q = Some qn ->
                  GoodGroup G (nodes_ qn)) /\
    (forall p, r = Some p ->
       p = pnode /\ stack_ u' = stack_ u /\ on_stack_ u' ⊆ on_stack_ u /\
       forall q, (length (zone_ u) <= q < length (zone_ u'))%nat -> Wired G u' q) /\
    (r = None ->
     (stack_ u' = stack_ u /\ on_stack_ u' ⊆ on_stack_ u) \/
     exists x, stack_ u' = x :: stack_ u /\ on_stack_ u' ⊆ list_to_set x ∪ on_stack_ u).
Proof.
  intros Hrec. induction indices as [|i indices IH]; intros u r u' Hrun Hpnode;
    cbn [RecurseOperands] in Hrun.
  - injection Hrun as <- <-. split; [done|]. split.
    { intros qn Hqn. exists qn. split; [done|]. split; [done|]. split; [done|].
      by intros p _ j Hj%elem_of_nil. }
    split.
    { split; [lia|]. intros q qn Hq H. apply lookup_lt_Some in H. lia. }
    split; [|by intros [=]].
    intros p [= <-]. split; [done|]. split; [done|]. split; [done|]. intros q Hq. lia.
  - destruct (rec (map (fun node => GetValueInput G node i) node_group) (depth + 1)%nat u)
      as [[[child|] u1]|] eqn:Hcall; [| |done].
    + pose proof (Hrec _ _ _ _ _ Hcall) as Hpost.
      destruct (run_success _ _ _ _ _ Hpost child eq_refl) as (Hst1 & Hon1 & Hsame1 & Hw1).
      pose proof (run_length _ _ _ _ _ Hpost) as Hlen1.
      pose proof (RunPost_NodesKept _ _ _ _ Hpost) as Hkept1.
      pose proof (NodesKept_SetOperand u1 pnode i child) as Hkept2.
      assert (Hlen2 : length (zone_ (SetOperand u1 pnode i child)) = length (zone_ u1))
        by (simpl; apply length_alter).
      destruct (IH (SetOperand u1 pnode i child) r u' Hrun) as (M1 & M2 & [M3 M3'] & M4 & M5);
        [lia|].
      assert (Hne2 : forall q, q <> pnode ->
                zone_ (SetOperand u1 pnode i child) !! q = zone_ u1 !! q).
      { intros q Hq. simpl. by rewrite list_lookup_alter_ne. }
      assert (Hkept3 : NodesKept (SetOperand u1 pnode i child) u').
      { intros q qn Hq. destruct (decide (q = pnode)) as [-> | Hqp].
        - destruct (M2 qn Hq) as (qn' & Hq' & Hn & _). by exists qn'.
        - exists qn. split; [|done]. rewrite M1; [done | done | by eapply lookup_lt_Some]. }
      split.
      { intros q Hq Hlt. rewrite M1 by (done || lia). rewrite Hne2 by done.
        by apply (run_old _ _ _ _ _ Hpost). }
      split.
      { intros qn Hqn.
        assert (Hqn1 : zone_ u1 !! pnode = Some qn)
          by (by rewrite (run_old _ _ _ _ _ Hpost)).
        assert (Hqn2 : zone_ (SetOperand u1 pnode i child) !! pnode
                       = Some (SetOperand_pack qn i child))
          by (simpl; by rewrite list_lookup_alter_eq, Hqn1).
        destruct (M2 _ Hqn2) as (qn' & Hq' & Hn & Hkeep & Hset).
        exists qn'. split; [done|]. split; [done|]. split.
        - intros j Hj. rewrite Hkeep by (intros H; apply Hj; by right).
          apply OperandAt_SetOperand_ne. intros ->. apply Hj. by left.
        - intros p Hp j Hj. destruct (decide (j ∈ indices)) as [Hin | Hin];
            [by eapply Hset|].
          apply elem_of_cons in Hj as [-> | Hj]; [|done].
          rewrite Hkeep by done. rewrite OperandAt_SetOperand_eq.
          unfold IsSame in Hsame1.
          destruct (zone_ u1 !! child) as [cn|] eqn:Hc; [|done].
          apply bool_decide_eq_true in Hsame1.
          destruct (Hkept2 _ _ Hc) as (cn2 & Hc2 & Hn2).
          destruct (Hkept3 _ _ Hc2) as (cn3 & Hc3 & Hn3).
          exists child, cn3. split; [done|]. split; [done | congruence]. }
      split.
      { split; [lia|]. intros q qn Hq Hz.
        destruct (decide (q < length (zone_ u1))%nat) as [Hlt | Hge].
        - rewrite M1 in Hz by lia. rewrite Hne2 in Hz by lia.
          by eapply (run_good _ _ _ _ _ Hpost).
        - eapply M3'; [|done]. lia. }
      split.
      { intros p Hp. destruct (M4 p Hp) as (-> & Hst & Hon & Hw).
        split; [done|]. split; [by rewrite Hst|]. split; [simpl in Hon; set_solver|].
        intros q Hq. destruct (decide (q < length (zone_ u1))%nat) as [Hlt | Hge].
        - apply (Wired_stable (SetOperand u1 pnode i child)); [apply M1; lia | done |].
          apply (Wired_stable u1); [apply Hne2; lia | done |].
          apply Hw1. lia.
        - apply Hw. lia. }
      intros Hr. destruct (M5 Hr) as [[Hst Hon] | (x & Hst & Hon)].
      * left. split; [by rewrite Hst|]. simpl in Hon. set_solver.
      * right. exists x. split; [rewrite Hst; simpl; by rewrite Hst1|].
        simpl in Hon. set_solver.
    + injection Hrun as <- <-.
      pose proof (Hrec _ _ _ _ _ Hcall) as Hpost.
      split; [intros q _ Hq; by apply (run_old _ _ _ _ _ Hpost)|].
      split.
      { intros qn Hqn. exists qn.
        split; [by rewrite (run_old _ _ _ _ _ Hpost)|]. split; [done|].
        split; [done | by intros p [=]]. }
      split.
      { split; [apply (run_length _ _ _ _ _ Hpost)|]. apply (run_good _ _ _ _ _ Hpost). }
      split; [by intros p [=]|].
      intros _. destruct (run_failure _ _ _ _ _ Hpost eq_refl) as [H | H]; [by left|].
      right. by eexists.
Qed.

(** An inner node: [NewPackNodeAndRecurs], [PopStack], return. *)
Lemma recurse_run rec t node0 node1 start_index count depth r t' :
  RunSpec G rec ->
  GoodGroup G [node0; node1] ->
  RecursedIndices G node0 = seq start_index count ->
  RecurseThenPop
    (NewPackNodeAndRecurs G rec [node0; node1] start_index count depth
                          (PushStack t [node0; node1])) = Some (r, t') ->
  RunPost G [node0; node1] t r t'.
Proof.
  intros Hrec Hgood Hidx. unfold NewPackNodeAndRecurs. rewrite NewPackNode_eq.
  set (pn0 := {| nodes_ := [node0; node1]; operands_ := []; revectorized_node_ := None |}).
  set (t1 := PushStack t [node0; node1]).
  set (t2 := {| zone_ := zone_ t1 ++ [pn0]; root_ := root_ t1; on_stack_ := on_stack_ t1;
                stack_ := stack_ t1;
                node_to_packnode_ :=
                  fold_left (fun m node => <[node := length (zone_ t1)]> m)
                            [node0; node1] (node_to_packnode_ t1) |}).
  change (length (zone_ t1)) with (length (zone_ t)).
  destruct (RecurseOperands G rec (length (zone_ t)) [node0; node1]
              (seq start_index count) depth t2) as [[r0 u]|] eqn:Hloop; [|done].
  cbn [RecurseThenPop]. unfold PopAndReturn.
  destruct (PopStack u) as [u''|] eqn:Hpop; [|done].
  intros [= <- <-].
  assert (Hlen2 : length (zone_ t2) = S (length (zone_ t)))
    by (unfold t2; cbn [zone_]; rewrite length_app; simpl; lia).
  assert (Hpn2 : zone_ t2 !! length (zone_ t) = Some pn0).
  { unfold t2. cbn [zone_]. rewrite lookup_app_r by (unfold t1; simpl; lia).
    unfold t1. simpl. by rewrite Nat.sub_diag. }
  destruct (RecurseOperands_run rec _ _ _ _ Hrec _ _ _ Hloop) as (L1 & L2 & [L3 L3'] & L4 & L5);
    [lia|].
  destruct (L2 _ Hpn2) as (pn' & Hpn' & Hnodes & _ & Hset).
  unfold PopStack in Hpop.
  destruct (stack_ u) as [|top rest] eqn:Hstack; [done|].
  injection Hpop as <-. rewrite fold_erase_on_stack.
  assert (Hon2 : on_stack_ t2 = list_to_set [node0; node1] ∪ on_stack_ t)
    by (unfold t2, t1; cbn [on_stack_]; apply on_stack_PushStack).
  assert (Hst2 : stack_ t2 = [node0; node1] :: stack_ t) by done.
  split; cbn [zone_ stack_ on_stack_ set_stack].
  - intros q Hq. rewrite L1 by lia. unfold t2, t1. cbn [zone_ PushStack set_stack].
    rewrite lookup_app_l; [done | simpl; lia].
  - lia.
  - intros q qn Hq Hz. destruct (decide (q = length (zone_ t))) as [-> | Hne].
    + rewrite Hpn' in Hz. injection Hz as <-. by rewrite Hnodes.
    + eapply L3'; [|done]. lia.
  - intros ->. destruct (L5 eq_refl) as [[Hst Hon] | (x & Hst & Hon)].
    + left. rewrite Hst2 in Hst. injection Hst as -> ->.
      split; [done|]. rewrite Hon2 in Hon. set_solver.
    + right. injection Hst as -> ->.
      split; [done|]. rewrite Hon2 in Hon. set_solver.
  - intros p ->. destruct (L4 _ eq_refl) as (-> & Hst & Hon & Hw).
    rewrite Hst2 in Hst. injection Hst as -> ->.
    split; [done|]. split; [rewrite Hon2 in Hon; set_solver|].
    split.
    + unfold IsSame. cbn [zone_ set_stack]. rewrite Hpn', Hnodes.
      by apply bool_decide_eq_true.
    + intros q Hq. destruct (decide (q = length (zone_ t))) as [-> | Hne].
      * intros pnode n0 i Hz Hhead Hi. cbn [zone_ set_stack] in Hz. rewrite Hpn' in Hz.
        injection Hz as <-. rewrite Hnodes in Hhead. simpl in Hhead.
        injection Hhead as <-. rewrite Hidx in Hi.
        destruct (Hset _ eq_refl i Hi) as (child & cnode & Hop & Hc & Hn).
        exists child, cnode. split; [done|]. split; [done|]. by rewrite Hnodes.
      * assert (Hwq : Wired G u q) by (apply Hw; lia).
        intros pnode n0 i Hz Hhead Hi. cbn [zone_ set_stack] in Hz.
        destruct (Hwq pnode n0 i Hz Hhead Hi) as (child & cnode & H).
        by exists child, cnode.
Qed.

End RunFacts.

Lemma AllSameAddress_pair (G : Graph) (node0 node1 : Node) :
  AllSameAddress G [node0; node1] = true ->
  GetNodeAddress G node0 = GetNodeAddress G node1.
Proof.
  cbn [AllSameAddress forallb]. rewrite andb_true_r.
  intros H. by apply bool_decide_eq_true in H.
Qed.

Lemma IsSplat_pair (node0 node1 : Node) : IsSplat [node0; node1] = true -> node0 = node1.
Proof.
  cbn [IsSplat forallb]. rewrite andb_true_r.
  intros H. by apply bool_decide_eq_true in H.
Qed.

Section RunInduction.

Variable G : Graph.

Ltac fail_pushed H := injection H as <- <-; apply run_fail_pushed.

(** Every call of [BuildTreeRec] that returns establishes [RunPost]. *)
Lemma BuildTreeRec_run fuel : RunSpec G (BuildTreeRec G fuel).
Proof.
  induction fuel as [|fuel IH]; intros node_group depth t r t' Hrun; [done|].
  cbn [BuildTreeRec] in Hrun.
  destruct node_group as [|node0 [|node1 [|]]]; try done.
  destruct (decide (depth = RecursionMaxDepth G)) as [Hcap | Hcap].
  { injection Hrun as <- <-. apply run_fail_unpushed. }
  destruct (if AllOnStack t [node0; node1] then negb <$> StackTopIsPhi G t else Some false)
    as [[|]|]; [| |done].
  { injection Hrun as <- <-. apply run_fail_unpushed. }
  destruct (CanBePacked G [node0; node1]) eqn:Hcan; cbn [negb] in Hrun;
    [|fail_pushed Hrun].
  destruct (CanBePacked_true _ _ _ Hcan) as (_ & Hsame & _).
  destruct (FindDuplicate (PushStack t [node0; node1]) [node0; node1]) as [p|] eqn:Hdup.
  { destruct (IsSame (PushStack t [node0; node1]) p [node0; node1]) eqn:Hp;
      cbn [negb] in Hrun; [|fail_pushed Hrun].
    by eapply diamond_run. }
  destruct (decide (opcode G node0 = kExtractF128)) as [Hextract | Hextract].
  { destruct (bool_decide (InputAt G node0 0 = InputAt G node1 0) && _) eqn:Hcond;
      [|fail_pushed Hrun].
    eapply leaf_run; [reflexivity | | | exact Hrun].
    - exists node0, node1. split; [done|]. split; [done|]. rewrite Hextract.
      apply andb_true_iff in Hcond as [_ Hcond].
      destruct (decide (opcode G (InputAt G node0 0) = kLoadTransform)) as [Hsrc | Hsrc].
      + by apply bool_decide_eq_true in Hcond.
      + apply bool_decide_eq_true in Hcond. exfalso.
        unfold operator in Hcond. rewrite Hsame in Hcond.
        by apply wrap32_succ_ne in Hcond.
    - unfold RecursedIndices. by rewrite Hextract. }
  destruct (bool_decide (opcode G node0 = kProtectedLoad)
            || bool_decide (opcode G node0 = kLoadTransform)) eqn:Hload.
  { destruct (AllSameAddress G [node0; node1]) eqn:Haddr; cbn [negb] in Hrun;
      [|fail_pushed Hrun].
    apply AllSameAddress_pair in Haddr.
    destruct (bool_decide (opcode G node0 = kProtectedLoad) && _) eqn:Hprotected;
      [fail_pushed Hrun|].
    destruct (bool_decide (opcode G node0 = kLoadTransform) && _) eqn:Htransform;
      [fail_pushed Hrun|].
    destruct (IsSideEffectFreeLoad G (PushStack t [node0; node1]) [node0; node1])
      as [[|]|]; [|fail_pushed Hrun|done].
    apply orb_true_iff in Hload as [Hop | Hop]; apply bool_decide_eq_true in Hop.
    - eapply leaf_run; [reflexivity | | | exact Hrun].
      + exists node0, node1. split; [done|]. split; [done|]. rewrite Hop.
        split; [done|].
        rewrite bool_decide_eq_true_2 in Hprotected by done. cbn [andb] in Hprotected.
        apply orb_false_iff in Hprotected as [Hrep Hcont].
        apply negb_false_iff in Hrep, Hcont. by apply bool_decide_eq_true in Hrep.
      + unfold RecursedIndices. by rewrite Hop.
    - eapply leaf_run; [reflexivity | | | exact Hrun].
      + exists node0, node1. split; [done|]. split; [done|]. rewrite Hop.
        rewrite bool_decide_eq_true_2 in Htransform by done. cbn [andb] in Htransform.
        apply orb_false_iff in Htransform as [Hsplat Hkind].
        apply negb_false_iff in Hsplat. apply IsSplat_pair in Hsplat.
        split; [done|].
        apply andb_false_iff in Hkind as [Hkind | Hkind];
          apply negb_false_iff, bool_decide_eq_true in Hkind; [by left | by right].
      + unfold RecursedIndices. by rewrite Hop. }
  destruct (opcode G node0) eqn:Hop; try (fail_pushed Hrun).
  - destruct (AllSameAddress G [node0; node1]) eqn:Haddr; cbn [negb] in Hrun;
      [|fail_pushed Hrun].
    eapply recurse_run; [exact IH | | | exact Hrun].
    + exists node0, node1. split; [done|]. split; [done|]. rewrite Hop.
      by apply AllSameAddress_pair.
    + unfold RecursedIndices. by rewrite Hop.
  - destruct (AllSameAddress G [node0; node1]) eqn:Haddr; cbn [negb] in Hrun;
      [|fail_pushed Hrun].
    eapply recurse_run; [exact IH | | | exact Hrun].
    + exists node0, node1. split; [done|]. split; [done|]. rewrite Hop.
      by apply AllSameAddress_pair.
    + unfold RecursedIndices. by rewrite Hop.
  - destruct (bool_decide (representation (operator G node0) = kSimd128)) eqn:Hrep;
      cbn [negb] in Hrun; [|fail_pushed Hrun].
    eapply recurse_run; [exact IH | | | exact Hrun].
    + exists node0, node1. split; [done|]. split; [done|]. rewrite Hop.
      by apply bool_decide_eq_true in Hrep.
    + unfold RecursedIndices. by rewrite Hop.
  - destruct (bool_decide (representation (operator G node0) = kSimd128)) eqn:Hrep;
      cbn [negb] in Hrun; [|fail_pushed Hrun].
    eapply recurse_run; [exact IH | | | exact Hrun].
    + exists node0, node1. split; [done|]. split; [done|]. rewrite Hop.
      by apply bool_decide_eq_true in Hrep.
    + unfold RecursedIndices. by rewrite Hop.
  - eapply recurse_run; [exact IH | | | exact Hrun].
    + exists node0, node1. split; [done|]. split; [done|]. by rewrite Hop.
    + unfold RecursedIndices. by rewrite Hop.
  - eapply recurse_run; [exact IH | | | exact Hrun].
    + exists node0, node1. split; [done|]. split; [done|]. by rewrite Hop.
    + unfold RecursedIndices. by rewrite Hop.
Qed.

End RunInduction.

(** [BuildTree] on two nodes of a finite graph returns, and its run
    establishes [RunPost] from the tree [DeleteTree] leaves. *)
Lemma BuildTree_run (G : Graph) (roots : list Node) (t : SLPTree) :
  GraphClosed G ->
  length roots = 2%nat ->
  (forall node, node ∈ roots -> node ∈ AllNodes G) ->
  exists r t',
    BuildTree G roots t = Some (r, set_root t' r) /\
    RunPost G roots (DeleteTree t) r t'.
Proof.
  intros Hclosed Hlen Hall. unfold BuildTree.
  destruct (BuildTreeRec_post G (length (zone_ t)) Hclosed (S (RecursionMaxDepth G))
              roots 0%nat (DeleteTree t)) as (r & t' & Hrun & _);
    [lia | lia | apply TreeInv_DeleteTree | done | done |].
  rewrite Hrun. exists r, t'. split; [done|]. by eapply BuildTreeRec_run.
Qed.

Lemma stores_graph_roots node : node ∈ [8; 9] -> node ∈ AllNodes stores_graph.
Proof.
  intros Hnode. apply list_elem_of_In. apply list_elem_of_In in Hnode.
  simpl in *. intuition lia.
Qed.

Lemma GoodGroup_packed (G : Graph) (node_group : list Node) :
  GoodGroup G node_group ->
  exists node0 node1,
    node_group = [node0; node1] /\ CanBePacked G node_group = true /\
    PackedOpcode (opcode G node0) = true.
Proof.
  intros (node0 & node1 & -> & Hcan & Hop). exists node0, node1.
  split; [done|]. split; [done|]. by destruct (opcode G node0).
Qed.

(** X10.  [BuildTree] never touches the packs of earlier trees: the
    zone only grows, and every pack that was in it before the call is
    there after it, at its pointer, with its nodes, its operands and
    its revectorized node. *)
Theorem BuildTree_keeps_earlier_packs (G : Graph) (roots : list Node) (t : SLPTree) :
  GraphClosed G ->
  length roots = 2%nat ->
  (forall node, node ∈ roots -> node ∈ AllNodes G) ->
  exists r t',
    BuildTree G roots t = Some (r, t') /\
    (length (zone_ t) <= length (zone_ t'))%nat /\
    forall q, (q < length (zone_ t))%nat -> zone_ t' !! q = zone_ t !! q.
Proof.
  intros Hclosed Hlen Hall.
  destruct (BuildTree_run G roots t Hclosed Hlen Hall) as (r & t' & Hrun & Hpost).
  exists r, (set_root t' r). split; [done|]. cbn [zone_ set_root]. split.
  - apply (run_length _ _ _ _ _ Hpost).
  - apply (run_old _ _ _ _ _ Hpost).
Qed.

(** A second tree for the stores of [stores_graph], the zone holding
    the packs of [chained_lanes_tree]. *)
Lemma BuildTree_keeps_earlier_packs_witness :
  exists r t',
    BuildTree stores_graph [8; 9] chained_lanes_tree = Some (r, t') /\
    (length (zone_ chained_lanes_tree) <= length (zone_ t'))%nat /\
    forall q, (q < length (zone_ chained_lanes_tree))%nat ->
      zone_ t' !! q = zone_ chained_lanes_tree !! q.
Proof.
  apply (BuildTree_keeps_earlier_packs stores_graph [8; 9] chained_lanes_tree).
  - exact stores_graph_closed.
  - reflexivity.
  - exact stores_graph_roots.
Defined.

(** X11.  Every pack [BuildTree] makes, in a run that fails as in one
    that succeeds, pairs two nodes of one basic block that have the
    same operator, are not both constants and have an opcode the
    builder packs. *)
Theorem BuildTree_packs_pair_alike_nodes (G : Graph) (roots : list Node) (t : SLPTree) :
  GraphClosed G ->
  length roots = 2%nat ->
  (forall node, node ∈ roots -> node ∈ AllNodes G) ->
  exists r t',
    BuildTree G roots t = Some (r, t') /\
    forall p pnode,
      (length (zone_ t) <= p)%nat -> zone_ t' !! p = Some pnode ->
      exists node0 node1,
        nodes_ pnode = [node0; node1] /\
        SameBasicBlock G node0 node1 = true /\
        op G node1 = op G node0 /\
        (IsConstant G node0 = false \/ IsConstant G node1 = false) /\
        PackedOpcode (opcode G node0) = true.
Proof.
  intros Hclosed Hlen Hall.
  destruct (BuildTree_run G roots t Hclosed Hlen Hall) as (r & t' & Hrun & Hpost).
  exists r, (set_root t' r). split; [done|]. cbn [zone_ set_root].
  intros p pnode Hp Hz.
  destruct (GoodGroup_packed G _ (run_good _ _ _ _ _ Hpost p pnode Hp Hz))
    as (node0 & node1 & Hnodes & Hcan & Hop).
  rewrite Hnodes in Hcan.
  destruct (CanBePacked_true _ _ _ Hcan) as (Hblock & Hsame & Hconst).
  exists node0, node1. repeat split; try done.
  cbn [AllConstant] in Hconst.
  destruct (IsConstant G node0); [|by left].
  destruct (IsConstant G node1); [done | by right].
Qed.

Lemma BuildTree_packs_pair_alike_nodes_witness :
  exists r t',
    BuildTree stores_graph [8; 9] empty_tree = Some (r, t') /\
    forall p pnode,
      (length (zone_ empty_tree) <= p)%nat -> zone_ t' !! p = Some pnode ->
      exists node0 node1,
        nodes_ pnode = [node0; node1] /\
        SameBasicBlock stores_graph node0 node1 = true /\
        op stores_graph node1 = op stores_graph node0 /\
        (IsConstant stores_graph node0 = false \/ IsConstant stores_graph node1 = false) /\
        PackedOpcode (opcode stores_graph node0) = true.
Proof.
  apply (BuildTree_packs_pair_alike_nodes stores_graph [8; 9] empty_tree).
  - exact stores_graph_closed.
  - reflexivity.
  - exact stores_graph_roots.
Defined.

(** X12.  [BuildTree] never packs two different [ExtractF128] nodes nor
    two different [LoadTransform] nodes: a pack it makes of such nodes
    holds one node twice, an [ExtractF128] of a [LoadTransform] source
    or a [LoadTransform] that is a 32-bit or 64-bit splat. *)
Theorem BuildTree_splat_packs (G : Graph) (roots : list Node) (t : SLPTree) :
  GraphClosed G ->
  length roots = 2%nat ->
  (forall node, node ∈ roots -> node ∈ AllNodes G) ->
  exists r t',
    BuildTree G roots t = Some (r, t') /\
    forall p pnode node0 node1,
      (length (zone_ t) <= p)%nat -> zone_ t' !! p = Some pnode ->
      nodes_ pnode = [node0; node1] ->
      (opcode G node0 = kExtractF128 ->
       node0 = node1 /\ opcode G (InputAt G node0 0) = kLoadTransform) /\
      (opcode G node0 = kLoadTransform ->
       node0 = node1 /\
       (transformation (operator G node0) = kS128Load32Splat \/
        transformation (operator G node0) = kS128Load64Splat)).
Proof.
  intros Hclosed Hlen Hall.
  destruct (BuildTree_run G roots t Hclosed Hlen Hall) as (r & t' & Hrun & Hpost).
  exists r, (set_root t' r). split; [done|]. cbn [zone_ set_root].
  intros p pnode node0 node1 Hp Hz Hnodes.
  destruct (run_good _ _ _ _ _ Hpost p pnode Hp Hz) as (n0 & n1 & Hg & _ & Hop).
  rewrite Hnodes in Hg. injection Hg as <- <-.
  split; intros H; by rewrite H in Hop.
Qed.

(** The stores #10 and #11 of [splat_graph]: operand 1 of the sums is
    the pack of the lane #7 with itself. *)
Lemma BuildTree_splat_packs_witness :
  exists r t',
    BuildTree splat_graph [10; 11] empty_tree = Some (r, t') /\
    forall p pnode node0 node1,
      (length (zone_ empty_tree) <= p)%nat -> zone_ t' !! p = Some pnode ->
      nodes_ pnode = [node0; node1] ->
      (opcode splat_graph node0 = kExtractF128 ->
       node0 = node1 /\ opcode splat_graph (InputAt splat_graph node0 0) = kLoadTransform) /\
      (opcode splat_graph node0 = kLoadTransform ->
       node0 = node1 /\
       (transformation (operator splat_graph node0) = kS128Load32Splat \/
        transformation (operator splat_graph node0) = kS128Load64Splat)).
Proof.
  apply (BuildTree_splat_packs splat_graph [10; 11] empty_tree).
  - apply TableGraph_closed. repeat constructor.
  - reflexivity.
  - intros node Hnode. apply list_elem_of_In. apply list_elem_of_In in Hnode.
    simpl in *. intuition lia.
Defined.

(** X13.  What [BuildTree] has checked of the other packs it makes: a
    pack of [ProtectedLoad] nodes has one address node, the
    representation [kSimd128] and, in offset order, offsets 16 apart; a
    pack of stores has one address node; a pack of [Phi] or
    [LoopExitValue] nodes has the representation [kSimd128]. *)
Theorem BuildTree_pack_conditions (G : Graph) (roots : list Node) (t : SLPTree) :
  GraphClosed G ->
  length roots = 2%nat ->
  (forall node, node ∈ roots -> node ∈ AllNodes G) ->
  exists r t',
    BuildTree G roots t = Some (r, t') /\
    forall p pnode node0 node1,
      (length (zone_ t) <= p)%nat -> zone_ t' !! p = Some pnode ->
      nodes_ pnode = [node0; node1] ->
      (opcode G node0 = kProtectedLoad ->
       GetNodeAddress G node0 = GetNodeAddress G node1 /\
       representation (operator G node0) = kSimd128 /\
       IsContinuousAccess G (SortByOffset G [node0; node1]) = true) /\
      (opcode G node0 = kStore \/ opcode G node0 = kProtectedStore ->
       GetNodeAddress G node0 = GetNodeAddress G node1) /\
      (opcode G node0 = kPhi \/ opcode G node0 = kLoopExitValue ->
       representation (operator G node0) = kSimd128).
Proof.
  intros Hclosed Hlen Hall.
  destruct (BuildTree_run G roots t Hclosed Hlen Hall) as (r & t' & Hrun & Hpost).
  exists r, (set_root t' r). split; [done|]. cbn [zone_ set_root].
  intros p pnode node0 node1 Hp Hz Hnodes.
  destruct (run_good _ _ _ _ _ Hpost p pnode Hp Hz) as (n0 & n1 & Hg & _ & Hop).
  rewrite Hnodes in Hg. injection Hg as <- <-. rewrite Hnodes in Hop.
  split; [|split].
  - intros H. by rewrite H in Hop.
  - intros [H | H]; by rewrite H in Hop.
  - intros [H | H]; by rewrite H in Hop.
Qed.

Lemma BuildTree_pack_conditions_witness :
  exists r t',
    BuildTree stores_graph [8; 9] empty_tree = Some (r, t') /\
    forall p pnode node0 node1,
      (length (zone_ empty_tree) <= p)%nat -> zone_ t' !! p = Some pnode ->
      nodes_ pnode = [node0; node1] ->
      (opcode stores_graph node0 = kProtectedLoad ->
       GetNodeAddress stores_graph node0 = GetNodeAddress stores_graph node1 /\
       representation (operator stores_graph node0) = kSimd128 /\
       IsContinuousAccess stores_graph (SortByOffset stores_graph [node0; node1]) = true) /\
      (opcode stores_graph node0 = kStore \/ opcode stores_graph node0 = kProtectedStore ->
       GetNodeAddress stores_graph node0 = GetNodeAddress stores_graph node1) /\
      (opcode stores_graph node0 = kPhi \/ opcode stores_graph node0 = kLoopExitValue ->
       representation (operator stores_graph node0) = kSimd128).
Proof.
  apply (BuildTree_pack_conditions stores_graph [8; 9] empty_tree).
  - exact stores_graph_closed.
  - reflexivity.
  - exact stores_graph_roots.
Defined.

(** X14.  What a failed [BuildTree] leaves on the recursion stack: no
    group, or the roots alone, whatever the depth the failure came
    from; the on-stack set holds roots only. *)
Theorem BuildTree_failure_stack (G : Graph) (roots : list Node) (t : SLPTree) :
  GraphClosed G ->
  length roots = 2%nat ->
  (forall node, node ∈ roots -> node ∈ AllNodes G) ->
  exists r t',
    BuildTree G roots t = Some (r, t') /\
    (r = None ->
     (stack_ t' = [] \/ stack_ t' = [roots]) /\
     forall node, OnStack t' node = true -> node ∈ roots).
Proof.
  intros Hclosed Hlen Hall.
  destruct (BuildTree_run G roots t Hclosed Hlen Hall) as (r & t' & Hrun & Hpost).
  exists r, (set_root t' r). split; [done|]. cbn [stack_ set_root].
  intros Hr.
  destruct (run_failure _ _ _ _ _ Hpost Hr) as [[Hst Hon] | [Hst Hon]];
    cbn [DeleteTree ClearStack set_registry set_stack stack_ on_stack_] in Hst, Hon.
  - split; [by left|]. intros node Hnode%OnStack_true.
    cbn [on_stack_ set_root] in Hnode. set_solver.
  - split; [by right|]. intros node Hnode%OnStack_true.
    cbn [on_stack_ set_root] in Hnode. set_solver.
Qed.

Lemma BuildTree_failure_stack_witness :
  exists r t',
    BuildTree split_stores_graph [8; 9] empty_tree = Some (r, t') /\
    (r = None ->
     (stack_ t' = [] \/ stack_ t' = [[8; 9]]) /\
     forall node, OnStack t' node = true -> node ∈ [8; 9]).
Proof.
  apply (BuildTree_failure_stack split_stores_graph [8; 9] empty_tree).
  - apply TableGraph_closed. repeat constructor.
  - reflexivity.
  - intros node Hnode. apply list_elem_of_In. apply list_elem_of_In in Hnode.
    simpl in *. intuition lia.
Defined.

(** X15.  The tree a successful [BuildTree] makes mirrors the graph:
    every pack made during the call has, at each operand position the
    builder recurses into for its opcode (every value input of a [Phi],
    [LoopExitValue], [F32x4Add] or [F32x4Mul], the stored value of a
    store), a child pack that pairs the value inputs of its two nodes
    at that position, in their order. *)
Theorem BuildTree_success_wired (G : Graph) (roots : list Node) (t : SLPTree) :
  GraphClosed G ->
  length roots = 2%nat ->
  (forall node, node ∈ roots -> node ∈ AllNodes G) ->
  exists r t',
    BuildTree G roots t = Some (r, t') /\
    forall root, r = Some root ->
      forall p pnode node0 i,
        (length (zone_ t) <= p)%nat -> zone_ t' !! p = Some pnode ->
        head (nodes_ pnode) = Some node0 ->
        i ∈ RecursedIndices G node0 ->
        exists child cnode,
          OperandAt pnode i = Some child /\ zone_ t' !! child = Some cnode /\
          nodes_ cnode = map (fun node => GetValueInput G node i) (nodes_ pnode).
Proof.
  intros Hclosed Hlen Hall.
  destruct (BuildTree_run G roots t Hclosed Hlen Hall) as (r & t' & Hrun & Hpost).
  exists r, (set_root t' r). split; [done|]. cbn [zone_ set_root].
  intros root Hroot p pnode node0 i Hp Hz Hhead Hi.
  destruct (run_success _ _ _ _ _ Hpost root Hroot) as (_ & _ & _ & Hwired).
  assert (Hw : Wired G t' p).
  { apply Hwired. split; [done|]. by eapply lookup_lt_Some. }
  exact (Hw pnode node0 i Hz Hhead Hi).
Qed.

Lemma BuildTree_success_wired_witness :
  exists r t',
    BuildTree stores_graph [8; 9] empty_tree = Some (r, t') /\
    forall root, r = Some root ->
      forall p pnode node0 i,
        (length (zone_ empty_tree) <= p)%nat -> zone_ t' !! p = Some pnode ->
        head (nodes_ pnode) = Some node0 ->
        i ∈ RecursedIndices stores_graph node0 ->
        exists child cnode,
          OperandAt pnode i = Some child /\ zone_ t' !! child = Some cnode /\
          nodes_ cnode = map (fun node => GetValueInput stores_graph node i) (nodes_ pnode).
Proof.
  apply (BuildTree_success_wired stores_graph [8; 9] empty_tree).
  - exact stores_graph_closed.
  - reflexivity.
  - exact stores_graph_roots.
Defined.

(** ** The debug checks *)

(** X16.  The debug checks of the builder hold where it reaches them.
    After [CanBePacked] has let a group through, the group is of
    constants or of one operator, as [BuildTreeRec] asserts; when its
    first node is a [ProtectedLoad] or a [LoadTransform] the group is of
    supported loads, as [IsSideEffectFreeLoad] asserts; and when it is
    a [ProtectedLoad], every node whose offset [IsContinuousAccess]
    reads in the sorted group is a [ProtectedLoad], as
    [GetMemoryOffsetValue] asserts. *)
Theorem BuildTreeRec_debug_checks (G : Graph) (node0 node1 : Node) :
  CanBePacked G [node0; node1] = true ->
  AllConstant G [node0; node1] || AllSameOperator G [node0; node1] = true /\
  (opcode G node0 = kProtectedLoad \/ opcode G node0 = kLoadTransform ->
   IsSupportedLoad_group G [node0; node1] = true) /\
  (opcode G node0 = kProtectedLoad ->
   forall node, node ∈ SortByOffset G [node0; node1] -> opcode G node = kProtectedLoad).
Proof.
  intros Hcan. destruct (CanBePacked_true _ _ _ Hcan) as (_ & Hsame & Hconst).
  pose proof (same_op_same_opcode _ _ _ Hsame) as Hopcode.
  split; [|split].
  - rewrite Hconst. cbn [orb AllSameOperator forallb].
    rewrite andb_true_r. by apply bool_decide_eq_true.
  - intros Hop. cbn [IsSupportedLoad_group]. unfold IsSupportedLoad.
    rewrite Hopcode. destruct Hop as [-> | ->]; reflexivity.
  - intros Hop node. rewrite SortByOffset_pair.
    destruct (MemoryOffsetComparer G node0 node1); rewrite !elem_of_cons;
      intros [-> | [-> | H]]; try done; try congruence; by apply elem_of_nil in H.
Qed.

(** The loads #4 and #5 of [stores_graph]. *)
Lemma BuildTreeRec_debug_checks_witness :
  AllConstant stores_graph [4; 5] || AllSameOperator stores_graph [4; 5] = true /\
  (opcode stores_graph 4 = kProtectedLoad \/ opcode stores_graph 4 = kLoadTransform ->
   IsSupportedLoad_group stores_graph [4; 5] = true) /\
  (opcode stores_graph 4 = kProtectedLoad ->
   forall node, node ∈ SortByOffset stores_graph [4; 5] ->
     opcode stores_graph node = kProtectedLoad).
Proof. apply (BuildTreeRec_debug_checks stores_graph 4 5). reflexivity. Defined.

(** ** The driver *)

Section DriverRuns.

Variable G : Graph.

Lemma StoreUnits_pairs (chain : list Node) (unit : list Node) :
  unit ∈ StoreUnits chain -> length unit = 2%nat.
Proof.
  revert unit.
  induction chain as [chain IH] using (induction_ltof1 _ (@length nat)).
  unfold ltof in IH. intros unit.
  destruct chain as [|store0 [|store1 rest]]; simpl;
    [by intros ?%elem_of_nil | by intros ?%elem_of_nil |].
  rewrite elem_of_cons. intros [-> | Hin]; [done|].
  apply (IH rest); [simpl; lia | done].
Qed.

Lemma SeedGroups_pairs (group_of_stores : gmap nat (gmap nat StoreNodeSet))
    (unit : list Node) :
  unit ∈ SeedGroups group_of_stores -> length unit = 2%nat.
Proof.
  unfold SeedGroups. intros Hu.
  apply list_elem_of_In, in_concat in Hu as (units & Hunits & Hu).
  apply in_map_iff in Hunits as ([d sn] & <- & Hd). simpl in Hu.
  apply in_concat in Hu as (units & Hunits & Hu).
  apply in_map_iff in Hunits as ([a set] & <- & Ha). simpl in Hu.
  apply list_elem_of_In in Hu. unfold ChainUnits in Hu.
  destruct ((2 <=? length set)%nat && (length set mod 2 =? 0)%nat);
    [by eapply StoreUnits_pairs | by apply elem_of_nil in Hu].
Qed.

(** Units that are not contiguous leave the flag and the tree alone. *)
Lemma ReduceStoreUnits_idle units changed t :
  (forall unit, unit ∈ units -> IsContinuousAccess G unit = false) ->
  ReduceStoreUnits G units changed t = Some (changed, t).
Proof.
  induction units as [|unit units IH]; intros Hno; [done|].
  cbn [ReduceStoreUnits]. unfold ReduceStoreChain.
  rewrite (Hno unit) by (by left). cbn [negb].
  apply IH. intros u Hu. apply Hno. by right.
Qed.

Lemma ReduceStoreUnits_returns units :
  GraphClosed G ->
  (forall unit, unit ∈ units ->
     length unit = 2%nat /\ forall node, node ∈ unit -> node ∈ AllNodes G) ->
  forall changed t,
  exists c t',
    ReduceStoreUnits G units changed t = Some (c, t') /\
    (length (zone_ t) <= length (zone_ t'))%nat /\
    (forall q, (q < length (zone_ t))%nat -> zone_ t' !! q = zone_ t !! q) /\
    (c = true ->
     changed = true \/
     exists unit t0 root t1,
       unit ∈ units /\ IsContinuousAccess G unit = true /\
       BuildTree G unit t0 = Some (Some root, t1)).
Proof.
  intros Hclosed. induction units as [|unit units IH]; intros Hunits changed t.
  - exists changed, t. split; [done|]. split; [lia|]. split; [done|]. by left.
  - assert (Hrest : forall u, u ∈ units ->
              length u = 2%nat /\ forall node, node ∈ u -> node ∈ AllNodes G).
    { intros u Hu. apply Hunits. by right. }
    cbn [ReduceStoreUnits]. unfold ReduceStoreChain.
    destruct (IsContinuousAccess G unit) eqn:Hcont; cbn [negb].
    + destruct (Hunits unit) as [Hlen Hall]; [by left|].
      destruct (BuildTree_run G unit t Hclosed Hlen Hall) as (r & t1 & Hbuild & Hpost).
      rewrite Hbuild.
      pose proof (run_length _ _ _ _ _ Hpost) as Hlen1.
      pose proof (run_old _ _ _ _ _ Hpost) as Hold1.
      cbn [DeleteTree ClearStack set_registry set_stack zone_] in Hlen1, Hold1.
      assert (Hgo : forall b,
                exists c t',
                  ReduceStoreUnits G units b (set_root t1 r) = Some (c, t') /\
                  (length (zone_ t) <= length (zone_ t'))%nat /\
                  (forall q, (q < length (zone_ t))%nat -> zone_ t' !! q = zone_ t !! q) /\
                  (c = true ->
                   b = true \/
                   exists u t0 root t2,
                     u ∈ units /\ IsContinuousAccess G u = true /\
                     BuildTree G u t0 = Some (Some root, t2))).
      { intros b. destruct (IH Hrest b (set_root t1 r)) as (c & t' & Hrun & Hl & Ho & Hc).
        cbn [zone_ set_root] in Hl, Ho.
        exists c, t'. split; [done|]. split; [lia|]. split; [|done].
        intros q Hq. rewrite Ho by lia. by apply Hold1. }
      destruct r as [root|].
      * destruct (Hgo true) as (c & t' & Hrun & Hl & Ho & Hc).
        exists c, t'. split; [done|]. split; [done|]. split; [done|].
        intros _. right. exists unit, t, root, (set_root t1 (Some root)).
        split; [by left | done].
      * destruct (Hgo changed) as (c & t' & Hrun & Hl & Ho & Hc).
        exists c, t'. split; [done|]. split; [done|]. split; [done|].
        intros Hct. destruct (Hc Hct) as [H | (u & t0 & root & t2 & Hu & Hcu)]; [by left|].
        right. exists u, t0, root, t2. split; [by right | done].
    + destruct (IH Hrest changed t) as (c & t' & Hrun & Hl & Ho & Hc).
      exists c, t'. split; [done|]. split; [done|]. split; [done|].
      intros Hct. destruct (Hc Hct) as [H | (u & t0 & root & t2 & Hu & Hcu)]; [by left|].
      right. exists u, t0, root, t2. split; [by right | done].
Qed.

End DriverRuns.

(** X17.  [TryRevectorize] on a finite graph returns: every [BuildTree]
    it starts comes back.  It keeps the packs there were in the zone
    of the tree, and it reports success only when 256-bit SIMD is
    supported and [BuildTree] has returned a pack for some contiguous
    pair of seeds it took from the group-of-stores map. *)
Theorem TryRevectorize_returns (G : Graph) (rv : Revectorizer) :
  GraphClosed G ->
  (forall node, node ∈ GetSimdStoreNodes G -> node ∈ AllNodes G) ->
  (forall node, InGroupOfStores (group_of_stores_ rv) node -> node ∈ AllNodes G) ->
  exists success rv',
    TryRevectorize G rv = Some (success, rv') /\
    support_simd256_ rv' = support_simd256_ rv /\
    (length (zone_ (slp_tree_ rv)) <= length (zone_ (slp_tree_ rv')))%nat /\
    (forall q, (q < length (zone_ (slp_tree_ rv)))%nat ->
       zone_ (slp_tree_ rv') !! q = zone_ (slp_tree_ rv) !! q) /\
    (success = true ->
     support_simd256_ rv = true /\
     exists unit t0 root t1,
       unit ∈ SeedGroups (group_of_stores_ rv') /\ IsContinuousAccess G unit = true /\
       BuildTree G unit t0 = Some (Some root, t1)).
Proof.
  intros Hclosed Hstores Hmap.
  destruct (support_simd256_ rv) eqn:Hsimd;
    [|exists false, rv; unfold TryRevectorize; rewrite Hsimd; by repeat split].
  destruct (decide (GetSimdStoreNodes G = [])) as [Hnone | Hsome].
  { exists false, rv. unfold TryRevectorize. rewrite Hsimd.
    rewrite (bool_decide_eq_true_2 _ Hnone). by repeat split. }
  rewrite (TryRevectorize_roots G rv Hsimd Hsome).
  destruct (ReduceStoreUnits_returns G
              (SeedGroups (group_of_stores_ (CollectSeeds G rv))) Hclosed) with
    (changed := false) (t := slp_tree_ rv) as (c & t' & -> & Hl & Ho & Hc).
  { intros unit Hunit. split; [by eapply SeedGroups_pairs|].
    intros node Hnode.
    pose proof (SeedGroups_members _ _ _ Hunit Hnode) as Hin.
    apply (CollectSeeds_members G) in Hin as [[Hin _] | Hin]; auto. }
  eexists c, _. split; [reflexivity|].
  cbn [slp_tree_ group_of_stores_ support_simd256_].
  split; [done|]. split; [done|]. split; [done|].
  intros Hct. split; [done|]. destruct (Hc Hct) as [H | H]; [done | exact H].
Qed.

(** A fresh pass over [stores_graph]. *)
Lemma TryRevectorize_returns_witness :
  let rv := {| slp_tree_ := empty_tree; group_of_stores_ := ∅; support_simd256_ := true |} in
  exists success rv',
    TryRevectorize stores_graph rv = Some (success, rv') /\
    support_simd256_ rv' = support_simd256_ rv /\
    (length (zone_ (slp_tree_ rv)) <= length (zone_ (slp_tree_ rv')))%nat /\
    (forall q, (q < length (zone_ (slp_tree_ rv)))%nat ->
       zone_ (slp_tree_ rv') !! q = zone_ (slp_tree_ rv) !! q) /\
    (success = true ->
     support_simd256_ rv = true /\
     exists unit t0 root t1,
       unit ∈ SeedGroups (group_of_stores_ rv') /\
       IsContinuousAccess stores_graph unit = true /\
       BuildTree stores_graph unit t0 = Some (Some root, t1)).
Proof.
  intros rv. apply (TryRevectorize_returns stores_graph rv).
  - exact stores_graph_closed.
  - exact stores_graph_roots.
  - intros node (d & sn & a & set & H & _). unfold rv in H.
    cbn [group_of_stores_] in H. by rewrite lookup_empty in H.
Defined.

(** X18.  Without a contiguous pair of seeds [TryRevectorize] builds
    nothing: it reports no success and leaves the SLP tree as it was,
    its stack, registry and root included. *)
Theorem TryRevectorize_without_contiguous_seeds (G : Graph) (rv : Revectorizer) :
  (forall unit,
     unit ∈ SeedGroups (group_of_stores_ (CollectSeeds G rv)) ->
     IsContinuousAccess G unit = false) ->
  exists rv', TryRevectorize G rv = Some (false, rv') /\ slp_tree_ rv' = slp_tree_ rv.
Proof.
  intros Hno.
  destruct (support_simd256_ rv) eqn:Hsimd;
    [|exists rv; unfold TryRevectorize; by rewrite Hsimd].
  destruct (decide (GetSimdStoreNodes G = [])) as [Hnone | Hsome].
  { exists rv. unfold TryRevectorize. rewrite Hsimd.
    by rewrite (bool_decide_eq_true_2 _ Hnone). }
  rewrite (TryRevectorize_roots G rv Hsimd Hsome).
  rewrite (ReduceStoreUnits_idle G _ false (slp_tree_ rv) Hno).
  by eexists.
Qed.

(** A fresh pass over [gapped_stores_graph], whose two stores are 32
    bytes apart. *)
Lemma TryRevectorize_without_contiguous_seeds_witness :
  let rv := {| slp_tree_ := empty_tree; group_of_stores_ := ∅; support_simd256_ := true |} in
  exists rv',
    TryRevectorize gapped_stores_graph rv = Some (false, rv') /\
    slp_tree_ rv' = slp_tree_ rv.
Proof.
  intros rv. apply (TryRevectorize_without_contiguous_seeds gapped_stores_graph rv).
  intros unit Hunit. vm_compute in Hunit.
  apply list_elem_of_In in Hunit. simpl in Hunit.
  destruct Hunit as [<- | []]. reflexivity.
Defined.
